(** * go-slackjira: the Jira reference matcher, issue resolver and event loop

    A shallow embedding of [main.go].  Go strings are the sequences of
    runes that the [regexp] package decodes from them, and positions are
    rune indices.  The program runs in a monad of state and panics over
    its package variables, the outside world and a trace of its calls;
    what it calls and does not define (the HTTP round trip, the JSON
    decoder, the Slack post) is the class [Runtime].  The pattern is
    built as text, parsed, and matched by a backtracking matcher with
    Go's leftmost-first preference and the loop of [allMatches].  [main]
    is a step relation on a process with its goroutines. *)

From Stdlib Require Import String Ascii.
From Stdlib Require Import List NArith ZArith Arith Bool Lia.
Import ListNotations.

Set Implicit Arguments.

(** ** Strings *)

Definition rune := N.
Bind Scope N_scope with rune.
Definition gostring := list rune.

Definition runes (s : string) : gostring :=
  map N_of_ascii (list_ascii_of_string s).

Definition rune_in (lo hi r : rune) : bool := (N.leb lo r && N.leb r hi)%bool.

(** [\d] is [0-9] and [\w] is [0-9A-Za-z_] in Go's syntax. *)
Definition is_digit (r : rune) : bool := rune_in 48 57 r.

Definition is_word (r : rune) : bool :=
  (rune_in 48 57 r || rune_in 65 90 r || rune_in 97 122 r || N.eqb r 95)%bool.

(** [unicode.IsSpace]. *)
Definition is_space (r : rune) : bool :=
  (rune_in 9 13 r || N.eqb r 32 || N.eqb r 133 || N.eqb r 160 ||
   N.eqb r 5760 || rune_in 8192 8202 r || N.eqb r 8232 || N.eqb r 8233 ||
   N.eqb r 8239 || N.eqb r 8287 || N.eqb r 12288)%bool.

Fixpoint trim_left (s : gostring) : gostring :=
  match s with
  | r :: s' => if is_space r then trim_left s' else s
  | [] => []
  end.

Definition TrimSpace (s : gostring) : gostring :=
  rev (trim_left (rev (trim_left s))).

(** [==] on strings. *)
Fixpoint eqb_string (a b : gostring) : bool :=
  match a, b with
  | [], [] => true
  | x :: a', y :: b' => (N.eqb x y && eqb_string a' b')%bool
  | _, _ => false
  end.

Definition hyphen : rune := 45%N.
Definition plus_sign : rune := 43%N.

(** ** The regexp fragment used by [buildPattern] *)

Module Syntax.

Inductive PerlClass := ClassDigit | ClassWord | ClassNotDigit | ClassNotWord.

Definition in_class (c : PerlClass) (r : rune) : bool :=
  match c with
  | ClassDigit => is_digit r
  | ClassWord => is_word r
  | ClassNotDigit => negb (is_digit r)
  | ClassNotWord => negb (is_word r)
  end.

(** Constructors carry the names of [regexp/syntax.Op]. *)
Inductive Regexp :=
| OpEmptyMatch
| OpLiteral (r : rune)
| OpCharClass (c : PerlClass)
| OpBeginText
| OpEndText
| OpCapture (i : nat) (sub : Regexp)
| OpConcat (a b : Regexp)
| OpAlternate (a b : Regexp)
| OpPlus (sub : Regexp)
| OpQuest (sub : Regexp).

End Syntax.
Export Syntax.

(** [regexp/syntax.Parse] on this fragment: one pass over the pattern
    with a stack of open groups.  [SyntaxError] is a pattern Go rejects;
    [Unsupported] is one outside the fragment (classes in brackets, [*],
    [.], counted or lazy repetition, flags, other escapes), about which
    nothing is said. *)
Module Parser.

Inductive Result (A : Type) := Parsed (a : A) | SyntaxError | Unsupported.
Arguments Parsed {A} a.
Arguments SyntaxError {A}.
Arguments Unsupported {A}.

(** An open group: its capture index (none for [(?:] and for the top
    level), the alternatives closed so far and the pieces of the
    alternative being read, both most recent first. *)
Record Frame := {
  fcap : option nat;
  falts : list Regexp;
  fcur : list Regexp
}.

Definition new_frame (cap : option nat) : Frame :=
  {| fcap := cap; falts := []; fcur := [] |}.

Fixpoint mk_concat (l : list Regexp) : Regexp :=
  match l with
  | [] => OpEmptyMatch
  | [r] => r
  | r :: l' => OpConcat r (mk_concat l')
  end.

Fixpoint mk_alt (l : list Regexp) : Regexp :=
  match l with
  | [] => OpEmptyMatch
  | [r] => r
  | r :: l' => OpAlternate r (mk_alt l')
  end.

Definition push (r : Regexp) (f : Frame) : Frame :=
  {| fcap := fcap f; falts := falts f; fcur := r :: fcur f |}.

Definition bar (f : Frame) : Frame :=
  {| fcap := fcap f; falts := mk_concat (rev (fcur f)) :: falts f; fcur := [] |}.

Definition close (f : Frame) : Regexp :=
  let body := mk_alt (rev (mk_concat (rev (fcur f)) :: falts f)) in
  match fcap f with
  | Some i => OpCapture i body
  | None => body
  end.

Inductive Kind :=
| KLParen | KRParen | KBar | KPlus | KQuest | KBackslash | KCaret | KDollar
| KUnsupported | KLiteral.

Definition kind (c : rune) : Kind :=
  if N.eqb c 40 then KLParen
  else if N.eqb c 41 then KRParen
  else if N.eqb c 124 then KBar
  else if N.eqb c 43 then KPlus
  else if N.eqb c 63 then KQuest
  else if N.eqb c 92 then KBackslash
  else if N.eqb c 94 then KCaret
  else if N.eqb c 36 then KDollar
  else if (N.eqb c 42 || N.eqb c 46 || N.eqb c 91 || N.eqb c 93
           || N.eqb c 123 || N.eqb c 125)%bool then KUnsupported
  else KLiteral.

(** After a backslash: a Perl class, or an escaped ASCII punctuation
    character standing for itself. *)
Definition escape (c : rune) : option Regexp :=
  if N.eqb c 100 then Some (OpCharClass ClassDigit)
  else if N.eqb c 68 then Some (OpCharClass ClassNotDigit)
  else if N.eqb c 119 then Some (OpCharClass ClassWord)
  else if N.eqb c 87 then Some (OpCharClass ClassNotWord)
  else if (N.ltb c 128 && negb (is_word c))%bool then Some (OpLiteral c)
  else None.

(** What follows a repetition operator: another [+] or [*] is an
    error, [?] makes it lazy and [{] may count. *)
Definition after_repeat (t : gostring) : Result unit :=
  match t with
  | c :: _ =>
      if (N.eqb c 43 || N.eqb c 42)%bool then SyntaxError
      else if (N.eqb c 63 || N.eqb c 123)%bool then Unsupported
      else Parsed tt
  | [] => Parsed tt
  end.

Definition push_all (k : gostring) (f : Frame) : Frame :=
  {| fcap := fcap f; falts := falts f; fcur := rev (map OpLiteral k) ++ fcur f |}.

Definition repeat_last (op : Regexp -> Regexp) (f : Frame) : option Frame :=
  match fcur f with
  | r :: cur => Some {| fcap := fcap f; falts := falts f; fcur := op r :: cur |}
  | [] => None
  end.

Fixpoint parse (t : gostring) (ncap : nat) (stack : list Frame) (f : Frame)
  : Result (Regexp * nat) :=
  match t with
  | [] =>
      match stack with
      | [] => Parsed (close f, ncap)
      | _ :: _ => SyntaxError
      end
  | c :: t' =>
      match kind c with
      | KLParen =>
          match t' with
          | q :: t'' =>
              if N.eqb q 63 then
                match t'' with
                | colon :: t3 =>
                    if N.eqb colon 58
                    then parse t3 ncap (f :: stack) (new_frame None)
                    else Unsupported
                | [] => SyntaxError
                end
              else parse t' (S ncap) (f :: stack) (new_frame (Some (S ncap)))
          | [] => SyntaxError
          end
      | KRParen =>
          match stack with
          | outer :: stack' => parse t' ncap stack' (push (close f) outer)
          | [] => SyntaxError
          end
      | KBar => parse t' ncap stack (bar f)
      | KPlus =>
          match after_repeat t', repeat_last OpPlus f with
          | Parsed _, Some f' => parse t' ncap stack f'
          | Unsupported, _ => Unsupported
          | _, _ => SyntaxError
          end
      | KQuest =>
          match after_repeat t', repeat_last OpQuest f with
          | Parsed _, Some f' => parse t' ncap stack f'
          | Unsupported, _ => Unsupported
          | _, _ => SyntaxError
          end
      | KBackslash =>
          match t' with
          | e :: t'' =>
              match escape e with
              | Some r => parse t'' ncap stack (push r f)
              | None => Unsupported
              end
          | [] => SyntaxError
          end
      | KCaret => parse t' ncap stack (push OpBeginText f)
      | KDollar => parse t' ncap stack (push OpEndText f)
      | KUnsupported => Unsupported
      | KLiteral => parse t' ncap stack (push (OpLiteral c) f)
      end
  end.

End Parser.

(** A compiled expression, with its number of capture groups. *)
Record Compiled := { expr : Regexp; numSubexp : nat }.

(** [regexp.Compile]. *)
Definition Compile (pattern : gostring) : Parser.Result Compiled :=
  match Parser.parse pattern 0 [] (Parser.new_frame None) with
  | Parser.Parsed (re, n) => Parser.Parsed {| expr := re; numSubexp := n |}
  | Parser.SyntaxError => Parser.SyntaxError
  | Parser.Unsupported => Parser.Unsupported
  end.

(** ** Matching: leftmost-first, as a backtracking search *)

(** Submatch positions: entry [i] is the span of group [i], entry 0 the
    whole match; [None] is Go's [-1]. *)
Definition span := (nat * nat)%type.
Definition caps := list (option span).

Fixpoint set_cap (i : nat) (v : span) (c : caps) : caps :=
  match i, c with
  | O, _ :: c' => Some v :: c'
  | S i', x :: c' => x :: set_cap i' v c'
  | _, [] => []
  end.

Definition cont := nat -> gostring -> caps -> option (nat * caps).

Definition accept : cont := fun p _ c => Some (p, c).

Definition orelse {A} (x y : option A) : option A :=
  match x with Some _ => x | None => y end.

(** Greedy repetition of the matcher [m], one or more times, then [k];
    [n] bounds the iterations by the length of the text left, and an
    iteration that consumed nothing is not repeated. *)
Fixpoint again (m : nat -> gostring -> caps -> cont -> option (nat * caps))
  (k : cont) (n : nat) (p : nat) (s : gostring) (c : caps) : option (nat * caps) :=
  m p s c (fun p' s' c' =>
    match n with
    | S n' =>
        if Nat.ltb p p'
        then orelse (again m k n' p' s' c') (k p' s' c')
        else k p' s' c'
    | O => k p' s' c'
    end).

(** [backtrack re p s c k]: match [re] at rune index [p], where [s] is the
    text from [p] on, then continue with [k]; alternatives are tried in
    priority order. *)
Fixpoint backtrack (re : Regexp) (p : nat) (s : gostring) (c : caps) (k : cont)
  : option (nat * caps) :=
  match re with
  | OpEmptyMatch => k p s c
  | OpLiteral r =>
      match s with
      | x :: s' => if N.eqb x r then k (S p) s' c else None
      | [] => None
      end
  | OpCharClass cl =>
      match s with
      | x :: s' => if in_class cl x then k (S p) s' c else None
      | [] => None
      end
  | OpBeginText => if Nat.eqb p 0 then k p s c else None
  | OpEndText => match s with [] => k p s c | _ :: _ => None end
  | OpCapture i sub =>
      backtrack sub p s c (fun p' s' c' => k p' s' (set_cap i (p, p') c'))
  | OpConcat a b =>
      backtrack a p s c (fun p' s' c' => backtrack b p' s' c' k)
  | OpAlternate a b => orelse (backtrack a p s c k) (backtrack b p s c k)
  | OpQuest sub => orelse (backtrack sub p s c k) (k p s c)
  | OpPlus sub => again (backtrack sub) k (length s) p s c
  end.

(** One execution from [pos]: the leftmost start at or after [pos] that
    has a match, with that start's preferred match. *)
Fixpoint search (re : Compiled) (p : nat) (s : gostring) : option caps :=
  match backtrack (expr re) p s (repeat None (S (numSubexp re))) accept with
  | Some (e, c) => Some (set_cap 0 (p, e) c)
  | None =>
      match s with
      | _ :: s' => search re (S p) s'
      | [] => None
      end
  end.

Definition doExecute (re : Compiled) (text : gostring) (pos : nat) : option caps :=
  search re pos (skipn pos text).

Definition whole (m : caps) : span :=
  match m with Some v :: _ => v | _ => (0, 0) end.

(** The loop of [allMatches]; [budget] is [n - i]. *)
Fixpoint allMatches (re : Compiled) (text : gostring) (budget pos : nat)
  (prevMatchEnd : option nat) : list caps :=
  match budget with
  | O => []
  | S budget' =>
      if Nat.leb pos (length text) then
        match doExecute re text pos with
        | None => []
        | Some m =>
            let (b, e) := whole m in
            if Nat.eqb e pos then
              let accepted :=
                match prevMatchEnd with
                | Some q => negb (Nat.eqb b q)
                | None => true
                end in
              let pos' :=
                if Nat.ltb pos (length text) then S pos else S (length text) in
              (if accepted then [m] else [])
                ++ allMatches re text budget' pos' (Some e)
            else m :: allMatches re text budget' e (Some e)
        end
      else []
  end.

Definition substr (text : gostring) (v : option span) : gostring :=
  match v with
  | Some (b, e) => firstn (e - b) (skipn b text)
  | None => []
  end.

(** [FindAllStringSubmatchIndex(text, -1)]: [n] becomes [len(text) + 1]. *)
Definition FindAllStringSubmatchIndex (re : Compiled) (text : gostring) : list caps :=
  allMatches re text (S (length text)) 0 None.

Definition FindAllStringSubmatch (re : Compiled) (text : gostring)
  : list (list gostring) :=
  map (map (substr text)) (FindAllStringSubmatchIndex re text).

(** ** Constants and types of [main.go] *)

Definition jiraIcon : gostring := runes "https://globus.atlassian.net/images/64jira.png".
Definition issueURL : gostring := runes "/rest/api/2/issue/".
Definition projectsURL : gostring := runes "/rest/api/2/project".
Definition yellow : gostring := runes "#FFD442".
Definition green : gostring := runes "#048A25".
Definition blue : gostring := runes "#496686".
Definition StatusOK : Z := 200%Z.

Record Project := { ID : gostring; KEY : gostring }.

(** Several Go structs share field names; here each carries its
    struct's name.  A pointer field is an [option], [None] being nil. *)
Record IssueType := { IssueType_IconURL : gostring; IssueType_Name : gostring }.
Record Creator := { Creator_DisplayName : gostring }.
Record Assignee := { DisplayName : gostring }.
Record Priority := { Priority_Name : gostring; Priority_IconURL : gostring }.
Record Status := { Status_Name : gostring; Status_IconURL : gostring }.

Record IssueFields := {
  IssueType_ : option IssueType;
  Summary : gostring;
  Creator_ : option Creator;
  Assignee_ : option Assignee;
  Priority_ : option Priority;
  Status_ : option Status
}.

Record Issue := { Key : gostring; Fields : option IssueFields }.

(** [var issue Issue]. *)
Definition zero_Issue : Issue := {| Key := []; Fields := None |}.

Record JiraClient := { username : gostring; password : gostring; baseURL : gostring }.

(** Go's [error] values: the ones the libraries hand back, and the two
    that [main.go] makes. *)
Inductive error :=
| LibraryError (msg : gostring)
| StatusCodeError (responseCode : Z)
| NoIssueError.

(** ** The outside world *)

Definition bytes := list N.

Record Request := {
  Method : gostring;
  URL : gostring;
  Header : list (gostring * gostring);
  BasicAuth : option (gostring * gostring)
}.

(** A response and what [ioutil.ReadAll] makes of its body. *)
Record Response := { StatusCode : Z; Body : bytes + error }.

(** [httpClient.Do] returns a response and a nil error, or an error
    with a response that is nil unless the redirect policy stopped the
    request. *)
Inductive DoResult :=
| DoResponse (response : Response)
| DoError (response : option Response) (err : error).

Record Attachment := {
  Title : gostring;
  TitleLink : gostring;
  Text : gostring;
  Color : gostring;
  MarkdownIn : list gostring
}.

Record PostMessageParameters := {
  Attachments : list Attachment;
  IconURL : gostring;
  Username : gostring
}.

(** What the program calls and does not define: [url_error] is the
    error of [http.NewRequest] on a URL, [url_Parse] the text that [%s]
    prints for the result of [url.Parse]. *)
Class Runtime := {
  World : Type;
  url_error : gostring -> option error;
  url_Parse : gostring -> gostring;
  httpClient_Do : Request -> World -> DoResult * World;
  json_Unmarshal_Projects : bytes -> list Project -> list Project * option error;
  json_Unmarshal_Issue : bytes -> Issue -> Issue * option error;
  Slack_PostMessage : gostring -> gostring -> PostMessageParameters -> World -> option error * World
}.

(** What the program has been seen to do. *)
Inductive Event :=
| CalledGetProjects
| CalledGetIssue (issuekey : gostring)
| CalledPostMessage (channel : gostring) (params : PostMessageParameters).

(** ** State and control *)

(** A call returns, or panics, or leaves what is modelled (a pattern
    outside the fragment of the parser). *)
Inductive outcome (A : Type) :=
| Ret (a : A)
| Panic
| Unmodelled.
Arguments Ret {A} a.
Arguments Panic {A}.
Arguments Unmodelled {A}.

Section Program.

Context {RT : Runtime}.

(** The package-level variables, the world and the trace. *)
Record State := {
  Pattern : option Compiled;
  Projects : list Project;
  Client : JiraClient;
  jiraHostURL : gostring;
  world : World;
  trace : list Event
}.

Definition M (A : Type) : Type := State -> outcome (A * State).

Definition ret {A} (a : A) : M A := fun st => Ret (a, st).

Definition bind {A B} (m : M A) (f : A -> M B) : M B :=
  fun st =>
    match m st with
    | Ret (a, st') => f a st'
    | Panic => Panic
    | Unmodelled => Unmodelled
    end.

Definition panic {A} : M A := fun _ => Panic.

Definition get : M State := fun st => Ret (st, st).

Definition emit (e : Event) : M unit :=
  fun st =>
    Ret (tt, {| Pattern := Pattern st; Projects := Projects st; Client := Client st;
                jiraHostURL := jiraHostURL st; world := world st;
                trace := trace st ++ [e] |}).

Definition on_world {A} (f : World -> A * World) : M A :=
  fun st =>
    let (a, w) := f (world st) in
    Ret (a, {| Pattern := Pattern st; Projects := Projects st; Client := Client st;
               jiraHostURL := jiraHostURL st; world := w; trace := trace st |}).

Definition set_Projects (ps : list Project) : M unit :=
  fun st =>
    Ret (tt, {| Pattern := Pattern st; Projects := ps; Client := Client st;
                jiraHostURL := jiraHostURL st; world := world st; trace := trace st |}).

Definition set_Pattern (re : Compiled) : M unit :=
  fun st =>
    Ret (tt, {| Pattern := Some re; Projects := Projects st; Client := Client st;
                jiraHostURL := jiraHostURL st; world := world st; trace := trace st |}).

Notation "x <- m ;; f" := (bind m (fun x => f))
  (at level 61, m at next level, right associativity).
Notation "m ;;; f" := (bind m (fun _ => f))
  (at level 61, right associativity).

(** A nil pointer dereference panics. *)
Definition deref {A} (ptr : option A) : M A :=
  match ptr with
  | Some a => ret a
  | None => panic
  end.

(** ** The Jira client *)

Definition http_NewRequest (method url : gostring) : Request + error :=
  match url_error url with
  | Some err => inr err
  | None => inl {| Method := method; URL := url; Header := []; BasicAuth := None |}
  end.

Definition Header_Set (key value : gostring) (req : Request) : Request :=
  {| Method := Method req; URL := URL req;
     Header := (key, value) :: Header req; BasicAuth := BasicAuth req |}.

Definition SetBasicAuth (user pass : gostring) (req : Request) : Request :=
  {| Method := Method req; URL := URL req;
     Header := Header req; BasicAuth := Some (user, pass) |}.

(** The bytes [consumeResponse] hands on of a response: those of its
    body, none if [ioutil.ReadAll] failed. *)
Definition received (response : Response) : bytes :=
  match Body response with
  | inl data => data
  | inr _ => []
  end.

(** On an error of [Do] the status is read through the response, which
    is then nil as a rule.  The error of [ioutil.ReadAll] is declared
    in the [if] and lost after it: the last [return] hands back the
    error of [Do], which is nil there. *)
Definition consumeResponse (req : Request) : M (Z * bytes * option error) :=
  res <- on_world (httpClient_Do req) ;;
  match res with
  | DoError response err =>
      r <- deref response ;;
      ret (StatusCode r, [], Some err)
  | DoResponse response =>
      match Body response with
      | inl data => ret (StatusCode response, data, None)
      | inr _ => ret (StatusCode response, [], None)
      end
  end.

Definition GetProjects (client : JiraClient) : M (option error) :=
  emit CalledGetProjects ;;;
  match http_NewRequest (runes "GET") (baseURL client ++ projectsURL) with
  | inr err => ret (Some err)
  | inl req =>
      let req := Header_Set (runes "Accept") (runes "application/json") req in
      let req := SetBasicAuth (username client) (password client) req in
      r <- consumeResponse req ;;
      match r with
      | (_, _, Some err) => ret (Some err)
      | (responseCode, data, None) =>
          if negb (Z.eqb responseCode StatusOK)
          then ret (Some (StatusCodeError responseCode))
          else
            st <- get ;;
            let (ps, e) := json_Unmarshal_Projects data (Projects st) in
            set_Projects ps ;;;
            ret e
      end
  end.

Definition set_Assignee (a : Assignee) (f : IssueFields) : IssueFields :=
  {| IssueType_ := IssueType_ f; Summary := Summary f; Creator_ := Creator_ f;
     Assignee_ := Some a; Priority_ := Priority_ f; Status_ := Status_ f |}.

Definition is_empty (s : gostring) : bool :=
  match s with [] => true | _ :: _ => false end.

Definition GetIssue (client : JiraClient) (issuekey : gostring) : M (Issue * option error) :=
  emit (CalledGetIssue issuekey) ;;;
  let issue := zero_Issue in
  match http_NewRequest (runes "GET") (baseURL client ++ issueURL ++ issuekey) with
  | inr err => ret (issue, Some err)
  | inl req =>
      let req := Header_Set (runes "Accept") (runes "application/json") req in
      let req := SetBasicAuth (username client) (password client) req in
      r <- consumeResponse req ;;
      match r with
      | (_, _, Some err) => ret (issue, Some err)
      | (responseCode, data, None) =>
          if negb (Z.eqb responseCode StatusOK)
          then ret (issue, Some (StatusCodeError responseCode))
          else
            match json_Unmarshal_Issue data issue with
            | (issue, Some err) => ret (issue, Some err)
            | (issue, None) =>
                if is_empty (Key issue) then ret (issue, Some NoIssueError)
                else
                  fields <- deref (Fields issue) ;;
                  match Assignee_ fields with
                  | None =>
                      ret ({| Key := Key issue;
                              Fields := Some (set_Assignee
                                            {| DisplayName := runes "Unassigned" |} fields) |},
                           None)
                  | Some _ => ret (issue, None)
                  end
            end
      end
  end.

(** ** [buildPattern] *)

Definition pattern_prefix : gostring := runes "(?:\W|^)((".
Definition pattern_suffix : gostring := runes ")-\d+)(\+)?|$".

(** The text of the pattern: each key followed by a bar. *)
Definition pattern_text (ps : list Project) : gostring :=
  fold_left (fun pattern p => (pattern ++ KEY p) ++ runes "|") ps pattern_prefix
    ++ pattern_suffix.

(** [regexp.MustCompile] panics when the pattern does not compile. *)
Definition buildPattern : M unit :=
  st <- get ;;
  match Compile (pattern_text (Projects st)) with
  | Parser.Parsed re => set_Pattern re
  | Parser.SyntaxError => panic
  | Parser.Unsupported => fun _ => Unmodelled
  end.

(** ** Rendering and dispatch *)

Definition getColor (status : gostring) : gostring :=
  if eqb_string status (runes "Open") then blue
  else if eqb_string status (runes "Reopened") then blue
  else if eqb_string status (runes "To Do") then blue
  else if eqb_string status (runes "Resolved") then green
  else if eqb_string status (runes "Closed") then green
  else if eqb_string status (runes "Done") then green
  else yellow.

Definition newline : rune := 10%N.

Definition sendMessage (issue : Issue) (channel : gostring) : M (option error) :=
  f1 <- deref (Fields issue) ;;
  a <- deref (Assignee_ f1) ;;
  p <- deref (Priority_ f1) ;;
  let text := runes "*" ++ Summary f1 ++ runes "*" ++ [newline; newline]
              ++ runes " *Assignee* " ++ DisplayName a
              ++ runes " *Priority* " ++ Priority_Name p ++ runes " " in
  st <- get ;;
  s <- deref (Status_ f1) ;;
  let attachment :=
    {| Title := Key issue;
       TitleLink := jiraHostURL st ++ runes "/browse/" ++ Key issue;
       Text := text;
       Color := getColor (Status_Name s);
       MarkdownIn := [runes "text"; runes "pretext"] |} in
  let params :=
    {| Attachments := [attachment]; IconURL := jiraIcon; Username := runes "Jira" |} in
  emit (CalledPostMessage channel params) ;;;
  err <- on_world (Slack_PostMessage channel [] params) ;;
  ret err.

(** The body of the loop of [processEvents], for one match [v]. *)
Definition handle_match (channel : gostring) (v : list gostring) : M unit :=
  st <- get ;;
  r <- GetIssue (Client st) (TrimSpace (nth 1 v [])) ;;
  match r with
  | (issue, None) => sendMessage issue channel ;;; ret tt
  | (_, Some _) => ret tt
  end.

Fixpoint for_matches (channel : gostring) (matches : list (list gostring)) : M unit :=
  match matches with
  | [] => ret tt
  | v :: rest => handle_match channel v ;;; for_matches channel rest
  end.

(** [sync.WaitGroup], as its counter. *)
Record WaitGroup := { counter : Z }.

Definition wg_Add (delta : Z) (wg : WaitGroup) : option WaitGroup :=
  let c := (counter wg + delta)%Z in
  if (c <? 0)%Z then None else Some {| counter := c |}.

Definition wg_Done (wg : WaitGroup) : option WaitGroup := wg_Add (-1) wg.

(** [processEvents] receives its wait group by value: the deferred
    [Done] acts on the copy, which is returned here. *)
Definition processEvents (text channel : gostring) (wg : WaitGroup) : M WaitGroup :=
  st <- get ;;
  re <- deref (Pattern st) ;;
  for_matches channel (FindAllStringSubmatch re text) ;;;
  match wg_Done wg with
  | Some wg' => ret wg'
  | None => panic
  end.

(** ** [main] *)

(** The four environment variables. *)
Record Config := {
  JIRA_URL : gostring;
  JIRA_USER : gostring;
  JIRA_PASSWORD : gostring;
  SLACK_TOKEN : gostring
}.

Definition NewClient (user pass url : gostring) : JiraClient :=
  {| username := user; password := pass; baseURL := url |}.

(** The package-level variables before [main] runs. *)
Definition initial (w : World) : State :=
  {| Pattern := None; Projects := []; Client := NewClient [] [] [];
     jiraHostURL := []; world := w; trace := [] |}.

Definition configure (env : Config) : M unit :=
  fun st =>
    Ret (tt, {| Pattern := Pattern st; Projects := Projects st;
                Client := NewClient (JIRA_USER env) (JIRA_PASSWORD env)
                            (url_Parse (JIRA_URL env));
                jiraHostURL := JIRA_URL env; world := world st; trace := trace st |}).

(** [main] up to its loop; what [GetProjects] returns is dropped. *)
Definition startup (env : Config) : M unit :=
  configure env ;;;
  st <- get ;;
  _ <- GetProjects (Client st) ;;
  buildPattern.

Inductive RTMEvent :=
| MessageEvent (SubType Text Channel : gostring)
| InvalidAuthEvent
| OtherEvent.

(** A started [go processEvents(text, channel, wg)], with its copy of
    the wait group. *)
Record Goroutine := { g_text : gostring; g_channel : gostring; g_wg : WaitGroup }.

Inductive Phase := Looping | Waiting | Exited | Crashed.

(** [main] and its goroutines: where [main] is, its own wait group, the
    events not yet taken, the goroutines started and not yet run, the
    wait group copies of those that have finished, and the package
    variables with the world. *)
Record Process := {
  phase : Phase;
  wg : WaitGroup;
  incoming : list RTMEvent;
  running : list Goroutine;
  finished : list WaitGroup;
  globals : State
}.

Definition is_bot (SubType : gostring) : bool :=
  eqb_string SubType (runes "bot_message").

Definition with_phase (ph : Phase) (p : Process) : Process :=
  {| phase := ph; wg := wg p; incoming := incoming p; running := running p;
     finished := finished p; globals := globals p |}.

Definition read_event (p : Process) : Process :=
  {| phase := phase p; wg := wg p; incoming := tl (incoming p);
     running := running p; finished := finished p; globals := globals p |}.

(** One step of the process: [main] takes an event, or a goroutine
    runs [processEvents] to its end, or [wg.Wait] returns. *)
Inductive step : Process -> Process -> Prop :=
| step_message p sub text channel rest wg' :
    phase p = Looping ->
    incoming p = MessageEvent sub text channel :: rest ->
    is_bot sub = false ->
    wg_Add 1 (wg p) = Some wg' ->
    step p {| phase := Looping; wg := wg'; incoming := rest;
              running := running p ++ [{| g_text := text; g_channel := channel;
                                          g_wg := wg' |}];
              finished := finished p; globals := globals p |}
| step_bot_message p sub text channel rest :
    phase p = Looping ->
    incoming p = MessageEvent sub text channel :: rest ->
    is_bot sub = true ->
    step p (read_event p)
| step_invalid_auth p rest :
    phase p = Looping ->
    incoming p = InvalidAuthEvent :: rest ->
    step p (with_phase Waiting (read_event p))
| step_other p rest :
    phase p = Looping ->
    incoming p = OtherEvent :: rest ->
    step p (read_event p)
| step_goroutine p before g after copy st' :
    phase p = Looping \/ phase p = Waiting ->
    running p = before ++ g :: after ->
    processEvents (g_text g) (g_channel g) (g_wg g) (globals p) = Ret (copy, st') ->
    step p {| phase := phase p; wg := wg p; incoming := incoming p;
              running := before ++ after; finished := copy :: finished p;
              globals := st' |}
| step_panic p before g after :
    phase p = Looping \/ phase p = Waiting ->
    running p = before ++ g :: after ->
    processEvents (g_text g) (g_channel g) (g_wg g) (globals p) = Panic ->
    step p (with_phase Crashed p)
| step_wait_returns p :
    phase p = Waiting ->
    counter (wg p) = 0%Z ->
    step p (with_phase Exited p).

Inductive steps : Process -> Process -> Prop :=
| steps_refl p : steps p p
| steps_step p q r : steps p q -> step q r -> steps p r.

(** [main] at the head of its loop, after a startup that left [st]. *)
Definition serving (st : State) (events : list RTMEvent) : Process :=
  {| phase := Looping; wg := {| counter := 0 |}; incoming := events;
     running := []; finished := []; globals := st |}.

End Program.

(** ** The expression that [buildPattern] compiles *)

Definition literal (k : gostring) : Regexp := Parser.mk_concat (map OpLiteral k).

(** [K1|K2|...|Kn|]: every key is followed by a bar, so the last
    alternative is empty. *)
Definition key_alternation (ps : list Project) : Regexp :=
  fold_right (fun p acc => OpAlternate (literal (KEY p)) acc) OpEmptyMatch ps.

Definition issue_group (ps : list Project) : Regexp :=
  OpCapture 1
    (OpConcat (OpCapture 2 (key_alternation ps))
       (OpConcat (OpLiteral hyphen) (OpPlus (OpCharClass ClassDigit)))).

Definition issue_pattern (ps : list Project) : Compiled :=
  {| expr :=
       OpAlternate
         (OpConcat (OpAlternate (OpCharClass ClassNotWord) OpBeginText)
            (OpConcat (issue_group ps)
               (OpQuest (OpCapture 3 (OpLiteral plus_sign)))))
         OpEndText;
     numSubexp := 3 |}.

(** A project key as Jira issues them: word characters only. *)
Definition word_key (k : gostring) : Prop := Forall (fun r => is_word r = true) k.

(** ** Runtimes to run the program in *)

(** [json s] is [s] with ['] standing for the double quote. *)
Definition json (s : string) : bytes :=
  map (fun r => if N.eqb r 39 then 34%N else r) (runes s).

Fixpoint lookup {A} (data : bytes) (table : list (bytes * A)) : option A :=
  match table with
  | (d, a) :: rest => if eqb_string data d then Some a else lookup data rest
  | [] => None
  end.

(** A world without memory: each URL has its answer, and the decoders
    know the listed bodies only. *)
Record Script := {
  answer : gostring -> DoResult;
  issues : list (bytes * Issue);
  projects : list (bytes * list Project)
}.

Definition scripted (s : Script) : Runtime :=
  {| World := unit;
     url_error := fun _ => None;
     url_Parse := fun u => u;
     httpClient_Do := fun req w => (answer s (URL req), w);
     json_Unmarshal_Projects := fun data ps =>
       match lookup data (projects s) with
       | Some v => (v, None)
       | None => (ps, Some (LibraryError (runes "invalid character")))
       end;
     json_Unmarshal_Issue := fun data i =>
       match lookup data (issues s) with
       | Some v => (v, None)
       | None => (i, Some (LibraryError (runes "invalid character")))
       end;
     Slack_PostMessage := fun _ _ _ w => (None, w) |}.

(** ** What a match is *)

(** [derives re p w s c c']: [re] matches the runes [w] at index [p] with
    [s] left after them, and turns the submatches [c] into [c']. *)
Inductive derives : Regexp -> nat -> gostring -> gostring -> caps -> caps -> Prop :=
| d_empty p s c : derives OpEmptyMatch p [] s c c
| d_literal r p s c : derives (OpLiteral r) p [r] s c c
| d_class cl x p s c :
    in_class cl x = true -> derives (OpCharClass cl) p [x] s c c
| d_begin s c : derives OpBeginText 0 [] s c c
| d_end p c : derives OpEndText p [] [] c c
| d_capture i sub p w s c c' :
    derives sub p w s c c' ->
    derives (OpCapture i sub) p w s c (set_cap i (p, p + length w) c')
| d_concat a b p w1 w2 s c c1 c2 :
    derives a p w1 (w2 ++ s) c c1 ->
    derives b (p + length w1) w2 s c1 c2 ->
    derives (OpConcat a b) p (w1 ++ w2) s c c2
| d_alt_left a b p w s c c' :
    derives a p w s c c' -> derives (OpAlternate a b) p w s c c'
| d_alt_right a b p w s c c' :
    derives b p w s c c' -> derives (OpAlternate a b) p w s c c'
| d_quest_one sub p w s c c' :
    derives sub p w s c c' -> derives (OpQuest sub) p w s c c'
| d_quest_none sub p s c : derives (OpQuest sub) p [] s c c
| d_plus_one sub p w s c c' :
    derives sub p w s c c' -> derives (OpPlus sub) p w s c c'
| d_plus_more sub p w1 w2 s c c1 c2 :
    derives sub p w1 (w2 ++ s) c c1 ->
    derives (OpPlus sub) (p + length w1) w2 s c1 c2 ->
    derives (OpPlus sub) p (w1 ++ w2) s c c2.

Definition sound_matcher (re : Regexp)
  (m : nat -> gostring -> caps -> cont -> option (nat * caps)) : Prop :=
  forall p s c k r,
    m p s c k = Some r ->
    exists w s' c',
      s = w ++ s' /\ derives re p w s' c c' /\ k (p + length w) s' c' = Some r.

(** ** Shapes of the matches of the issue pattern *)

Definition reference_at (ps : list Project) (p : nat) (s : gostring) (e : nat) (c : caps) : Prop :=
  exists lead K ds pl rest,
    s = lead ++ K ++ hyphen :: ds ++ pl ++ rest /\
    ((exists x, lead = [x] /\ is_word x = false) \/ (lead = [] /\ p = 0)) /\
    (K = [] \/ In K (map KEY ps)) /\
    ds <> [] /\ Forall (fun r => is_digit r = true) ds /\
    (pl = [] \/ pl = [plus_sign]) /\
    e = p + length lead + length K + 1 + length ds + length pl /\
    c = [None;
         Some (p + length lead, p + length lead + length K + 1 + length ds);
         Some (p + length lead, p + length lead + length K);
         match pl with
         | [] => None
         | _ :: _ => Some (p + length lead + length K + 1 + length ds, e)
         end].

Definition no_caps : caps := repeat None 4.

Definition empty_match (n : nat) : caps := [Some (n, n); None; None; None].

Definition reference_match (ps : list Project) (text : gostring) (m : caps) : Prop :=
  exists b e c,
    b <= length text /\ reference_at ps b (skipn b text) e c /\ m = set_cap 0 (b, e) c.

(** The matches of a text: references that end before the end of the
    text, then either a reference that ends the text or the empty match
    at the end of the text. *)
Definition ends_with_one (ps : list Project) (text : gostring) (l : list caps) : Prop :=
  exists front lastm,
    l = front ++ [lastm] /\
    Forall (fun m => reference_match ps text m /\ snd (whole m) < length text) front /\
    (lastm = empty_match (length text) \/
     (reference_match ps text lastm /\ snd (whole lastm) = length text)).

Definition needs_hyphen (k : cont) : Prop :=
  forall p s c, (forall s', s <> hyphen :: s') -> k p s c = None.

Definition no_digit_ahead (t : gostring) : Prop :=
  match t with
  | [] => True
  | x :: _ => is_digit x = false
  end.

Definition plus_len (post : gostring) : nat :=
  match post with
  | x :: _ => if N.eqb x plus_sign then 1 else 0
  | [] => 0
  end.

(** The submatches of a reference [K-ds] that starts at [q] and is
    followed by [post]. *)
Definition reference_caps (q : nat) (K ds post : gostring) : caps :=
  let e1 := q + length K + 1 + length ds in
  [None; Some (q, e1); Some (q, q + length K);
   if Nat.eqb (plus_len post) 1 then Some (e1, S e1) else None].

Definition after_group : Regexp := OpQuest (OpCapture 3 (OpLiteral plus_sign)).

(** A key that is not empty and does not start with a digit. *)
Definition starts_without_digit (k : gostring) : Prop :=
  match k with x :: _ => is_digit x = false | [] => False end.

(** [w], the rune before a reference, is not a [+] that a preceding
    match took with it: a [+] right after a digit. *)
Definition free_boundary (pre : gostring) (w : rune) : Prop :=
  is_word w = false /\
  (w = plus_sign -> forall pre' d, pre = pre' ++ [d] -> is_digit d = false).

(** The match of the reference [K-ds] that starts at index [q], with
    the rune before it when [lead] is 1. *)
Definition reference_found (K ds post : gostring) (lead q : nat) : caps :=
  set_cap 0 (q - lead, q + length K + 1 + length ds + plus_len post)
    (reference_caps q K ds post).

(** ** What a run leaves behind *)

Section Observations.

Context {RT : Runtime}.

(** The keys [GetIssue] was called with, and the posts, in order. *)
Definition lookups (tr : list Event) : list gostring :=
  flat_map (fun e => match e with CalledGetIssue k => [k] | _ => [] end) tr.

Definition posts (tr : list Event) : list (gostring * PostMessageParameters) :=
  flat_map (fun e => match e with CalledPostMessage ch p => [(ch, p)] | _ => [] end) tr.

Definition same_globals (st st' : State) : Prop :=
  Pattern st' = Pattern st /\ Projects st' = Projects st /\
  Client st' = Client st /\ jiraHostURL st' = jiraHostURL st.

(** [post m st Q]: if [m] returns from [st], then [Q] holds of what it
    returns. *)
Definition post {A} (m : M A) (st : State) (Q : A -> State -> Prop) : Prop :=
  forall a st', m st = Ret (a, st') -> Q a st'.

(** A computation that writes [evs] on the trace and leaves the
    package variables alone. *)
Definition writes (st : State) (evs : list Event) (st' : State) : Prop :=
  trace st' = trace st ++ evs /\ same_globals st st'.

(** The key a match is resolved under. *)
Definition reference_of (v : list gostring) : gostring := TrimSpace (nth 1 v []).

(** The request [GetIssue] sends for a key. *)
Definition issue_request (client : JiraClient) (issuekey : gostring) : Request :=
  SetBasicAuth (username client) (password client)
    (Header_Set (runes "Accept") (runes "application/json")
       {| Method := runes "GET"; URL := baseURL client ++ issueURL ++ issuekey;
          Header := []; BasicAuth := None |}).

(** The tracker answers the lookup of [issuekey] with a status other
    than 200, or with a payload whose key is empty. *)
Definition lookup_fails (client : JiraClient) (issuekey : gostring) (st : State) : Prop :=
  url_error (baseURL client ++ issueURL ++ issuekey) = None /\
  exists response w,
    httpClient_Do (issue_request client issuekey) (world st) = (DoResponse response, w) /\
    (StatusCode response <> StatusOK \/
     exists data issue,
       StatusCode response = StatusOK /\ Body response = inl data /\
       json_Unmarshal_Issue data zero_Issue = (issue, None) /\ Key issue = []).

(** One turn of the loop of [processEvents]: the resolution of [v]
    fails and nothing is sent, or it gives an issue and that is sent. *)
Inductive resolves (ch : gostring) (v : list gostring) (st : State)
  : option Issue -> State -> Prop :=
| resolves_not iss err st' :
    GetIssue (Client st) (reference_of v) st = Ret ((iss, Some err), st') ->
    resolves ch v st None st'
| resolves_sent iss st1 e st' :
    GetIssue (Client st) (reference_of v) st = Ret ((iss, None), st1) ->
    sendMessage iss ch st1 = Ret (e, st') ->
    resolves ch v st (Some iss) st'.

Inductive resolves_all (ch : gostring)
  : list (list gostring) -> State -> list (option Issue) -> State -> Prop :=
| resolves_nil st : resolves_all ch [] st [] st
| resolves_cons v ms st o st1 outs st' :
    resolves ch v st o st1 ->
    resolves_all ch ms st1 outs st' ->
    resolves_all ch (v :: ms) st (o :: outs) st'.

Definition sent (outs : list (option Issue)) : nat :=
  length (filter (fun o => match o with Some _ => true | None => false end) outs).

(** The number of [processEvents] that [main] starts before it leaves
    its loop. *)
Fixpoint dispatched (events : list RTMEvent) : nat :=
  match events with
  | MessageEvent sub _ _ :: rest =>
      if is_bot sub then dispatched rest else S (dispatched rest)
  | OtherEvent :: rest => dispatched rest
  | InvalidAuthEvent :: _ => 0
  | [] => 0
  end.

(** What [main]'s own counter holds: the goroutines never reach it. *)
Definition counts (events : list RTMEvent) (p : Process) : Prop :=
  match phase p with
  | Looping =>
      (counter (wg p) + Z.of_nat (dispatched (incoming p)))%Z
      = Z.of_nat (dispatched events)
  | Waiting => counter (wg p) = Z.of_nat (dispatched events)
  | Exited => counter (wg p) = Z.of_nat (dispatched events) /\ counter (wg p) = 0%Z
  | Crashed => True
  end.

End Observations.

(** ** A Jira to run against *)

Definition base : gostring := runes "https://jira.example.com".

Definition PROJ : Project := {| ID := runes "10000"; KEY := runes "PROJ" |}.

Definition config : Config :=
  {| JIRA_URL := base; JIRA_USER := runes "bot"; JIRA_PASSWORD := runes "secret";
     SLACK_TOKEN := runes "xoxb-1" |}.

Definition listing_body : bytes := json "[{'id':'10000','key':'PROJ'}]".

Definition answers (code : Z) (body : bytes) : DoResult :=
  DoResponse {| StatusCode := code; Body := inl body |}.

Definition high : Priority := {| Priority_Name := runes "High"; Priority_IconURL := [] |}.
Definition open : Status := {| Status_Name := runes "Open"; Status_IconURL := [] |}.
Definition ada : Assignee := {| DisplayName := runes "Ada" |}.

Definition fields_of (a : option Assignee) (p : option Priority) : IssueFields :=
  {| IssueType_ := None; Summary := runes "Fix login"; Creator_ := None;
     Assignee_ := a; Priority_ := p; Status_ := Some open |}.

Definition body_assigned : bytes :=
  json "{'key':'PROJ-1','fields':{'summary':'Fix login','assignee':{'displayName':'Ada'},'priority':{'name':'High'},'status':{'name':'Open'}}}".
Definition issue_assigned : Issue :=
  {| Key := runes "PROJ-1"; Fields := Some (fields_of (Some ada) (Some high)) |}.

Definition body_unassigned : bytes :=
  json "{'key':'PROJ-1','fields':{'summary':'Fix login','assignee':null,'priority':{'name':'High'},'status':{'name':'Open'}}}".
Definition issue_unassigned : Issue :=
  {| Key := runes "PROJ-1"; Fields := Some (fields_of None (Some high)) |}.

Definition body_no_priority : bytes :=
  json "{'key':'PROJ-1','fields':{'summary':'Fix login','assignee':{'displayName':'Ada'},'status':{'name':'Open'}}}".
Definition issue_no_priority : Issue :=
  {| Key := runes "PROJ-1"; Fields := Some (fields_of (Some ada) None) |}.

Definition body_no_fields : bytes := json "{'key':'PROJ-1'}".
Definition issue_no_fields : Issue := {| Key := runes "PROJ-1"; Fields := None |}.

Definition body_no_key : bytes := json "{'errorMessages':['Issue Does Not Exist']}".
Definition issue_no_key : Issue := {| Key := []; Fields := None |}.

(** What [encoding/json] makes of the bodies above. *)
Definition decoded : list (bytes * Issue) :=
  [(body_assigned, issue_assigned); (body_unassigned, issue_unassigned);
   (body_no_priority, issue_no_priority); (body_no_fields, issue_no_fields);
   (body_no_key, issue_no_key)].

(** A Jira that answers the project listing with [listing] and the
    issue [PROJ-1] with [ticket]; every other URL is not found. *)
Definition jira (listing ticket : DoResult) : Script :=
  {| answer := fun url =>
       if eqb_string url (base ++ projectsURL) then listing
       else if eqb_string url (base ++ issueURL ++ runes "PROJ-1") then ticket
       else answers 404 [];
     issues := decoded;
     projects := [(listing_body, [PROJ]); (json "[]", [])] |}.

Definition refused : DoResult :=
  DoError None (LibraryError (runes "dial tcp: connection refused")).

(** The state [main] reaches its loop in, if it does. *)
Definition started_in (RT : Runtime) (w : World) : option State :=
  match startup config (initial w) with
  | Ret (_, st) => Some st
  | _ => None
  end.

Definition listing_ok : DoResult := answers 200 listing_body.

(** Jira as it should be: PROJ is listed and PROJ-1 is assigned to Ada. *)
Definition jira_up : Runtime := scripted (jira listing_ok (answers 200 body_assigned)).
(** The listing is empty. *)
Definition jira_empty : Runtime := scripted (jira (answers 200 (json "[]")) (answers 404 [])).
(** The listing fails with status 500. *)
Definition jira_listing_500 : Runtime := scripted (jira (answers 500 []) (answers 404 [])).
(** The connection for the listing is refused. *)
Definition jira_listing_refused : Runtime := scripted (jira refused (answers 404 [])).
(** The connection for PROJ-1 is refused. *)
Definition jira_refusing : Runtime := scripted (jira listing_ok refused).
(** PROJ-1 comes back with no assignee. *)
Definition jira_unassigned : Runtime := scripted (jira listing_ok (answers 200 body_unassigned)).
(** PROJ-1 comes back with a key and nothing else. *)
Definition jira_no_fields : Runtime := scripted (jira listing_ok (answers 200 body_no_fields)).
(** PROJ-1 comes back without a priority. *)
Definition jira_no_priority : Runtime := scripted (jira listing_ok (answers 200 body_no_priority)).

(** A tracker that answers every issue URL, the one of the empty key
    too, with the payload of PROJ-1. *)
Definition jira_catch_all : Runtime :=
  scripted {| answer := fun url =>
                if eqb_string url (base ++ projectsURL) then listing_ok
                else answers 200 body_assigned;
              issues := decoded;
              projects := [(listing_body, [PROJ])] |}.

(** A reference may start the text or follow a free boundary. *)
Definition at_boundary (pre : gostring) : Prop :=
  pre = [] \/ exists pre' w, pre = pre' ++ [w] /\ free_boundary pre' w.

(** The state [main] reaches its loop in, the initial one if it does not. *)
Definition state_in (RT : Runtime) (w : World) : State :=
  match started_in RT w with
  | Some st => st
  | None => initial w
  end.

(** A channel. *)
Definition general : gostring := runes "general".

Definition a_message : RTMEvent := MessageEvent [] (runes "hello") general.

(** The state [processEvents] leaves, the one it started in if it does
    not return. *)
Definition state_after (RT : Runtime) (text ch : gostring) (w : WaitGroup) (st : State)
  : State :=
  match processEvents text ch w st with
  | Ret (_, st') => st'
  | _ => st
  end.

Definition one : WaitGroup := {| counter := 1 |}.
Definition none : WaitGroup := {| counter := 0 |}.

Definition P1A : Project := {| ID := runes "10001"; KEY := runes "1A" |}.

(** The state Jira as it should be leaves [main] in. *)
Definition up_state : @State jira_up := @state_in jira_up tt.

Definition message_then_auth_failure : list RTMEvent := [a_message; InvalidAuthEvent].

(** ** What the matches and the lookups look like *)

(** The strings of the match of a reference: the match, the reference,
    its key and the [+]. *)
Definition reference_strings (ps : list Project) (v : list gostring) : Prop :=
  exists lead K ds pl,
    v = [lead ++ K ++ hyphen :: ds ++ pl; K ++ hyphen :: ds; K; pl] /\
    (lead = [] \/ exists x, lead = [x] /\ is_word x = false) /\
    (K = [] \/ In K (map KEY ps)) /\
    ds <> [] /\ Forall (fun r => is_digit r = true) ds /\
    (pl = [] \/ pl = [plus_sign]).

(** The strings of the empty match. *)
Definition empty_strings : list gostring := [[]; []; []; []].

(** A key that [processEvents] may look up: empty, or a number after a
    hyphen after a listed key or no key. *)
Definition reference_key (ps : list Project) (k : gostring) : Prop :=
  k = [] \/
  exists K ds, k = K ++ hyphen :: ds /\ (K = [] \/ In K (map KEY ps)) /\
               ds <> [] /\ Forall (fun r => is_digit r = true) ds.

(** A match ends before the next one starts. *)
Definition precedes (m1 m2 : caps) : Prop := snd (whole m1) <= fst (whole m2).

(** A match lies in the text, at or after [pos]. *)
Definition within (text : gostring) (pos : nat) (m : caps) : Prop :=
  pos <= fst (whole m) /\ fst (whole m) <= snd (whole m) /\
  snd (whole m) <= length text.

(** [)], which closes a group. *)
Definition rparen : rune := 41%N.

(** ** What the client and the loop of [main] keep *)

(** The request [GetProjects] sends. *)
Definition projects_request (client : JiraClient) : Request :=
  SetBasicAuth (username client) (password client)
    (Header_Set (runes "Accept") (runes "application/json")
       {| Method := runes "GET"; URL := baseURL client ++ projectsURL;
          Header := []; BasicAuth := None |}).

(** The pointers [sendMessage] reads through are set. *)
Definition renderable (issue : Issue) : Prop :=
  exists f a p s,
    Fields issue = Some f /\ Assignee_ f = Some a /\
    Priority_ f = Some p /\ Status_ f = Some s.


(** Every message of the stream is a bot's. *)
Definition only_bots (events : list RTMEvent) : Prop :=
  Forall (fun ev => match ev with
                    | MessageEvent sub _ _ => is_bot sub = true
                    | _ => True
                    end) events.

Section Serving.

Context {RT : Runtime}.

(** The state a computation leaves, the one it started in if it does
    not return. *)
Definition final {A} (m : M A) (st : State) : State :=
  match m st with
  | Ret (_, st') => st'
  | _ => st
  end.

(** The client [main] builds from the environment. *)
Definition client_of (env : Config) : JiraClient :=
  NewClient (JIRA_USER env) (JIRA_PASSWORD env) (url_Parse (JIRA_URL env)).

(** The package variables when [main] calls [GetProjects]. *)
Definition configured (env : Config) (st : State) : State :=
  {| Pattern := Pattern st; Projects := Projects st; Client := client_of env;
     jiraHostURL := JIRA_URL env; world := world st; trace := trace st |}.

(** The goroutines [main] has started. *)
Definition started (p : Process) : nat := length (running p) + length (finished p).

(** [main]'s counter is the number of goroutines it started, one for
    each message it dispatched. *)
Definition one_each (events : list RTMEvent) (p : Process) : Prop :=
  counter (wg p) = Z.of_nat (started p) /\
  match phase p with
  | Looping => started p + dispatched (incoming p) = dispatched events
  | Waiting | Exited => started p = dispatched events
  | Crashed => started p <= dispatched events
  end.

(** The copies of the wait group can take their [Done]. *)
Definition copies_positive (p : Process) : Prop :=
  Forall (fun g => (1 <= counter (g_wg g))%Z) (running p) /\
  Forall (fun c => (0 <= counter c)%Z) (finished p) /\
  (0 <= counter (wg p))%Z.

(** What has been taken from the events, and that the loop is left on
    an authentication failure only. *)
Definition reads (events : list RTMEvent) (p : Process) : Prop :=
  (exists taken, events = taken ++ incoming p) /\
  (phase p = Waiting \/ phase p = Exited -> In InvalidAuthEvent events).



End Serving.

(** ** More of Jira and Slack to run against *)

(** The body of PROJ-1 breaks off while it is read. *)
Definition jira_truncated : Runtime :=
  scripted (jira listing_ok
              (DoResponse {| StatusCode := 200;
                             Body := inr (LibraryError (runes "unexpected EOF")) |})).



(** PROJ-1 comes back as an error message, without a key. *)
Definition jira_no_key : Runtime := scripted (jira listing_ok (answers 200 body_no_key)).

(** [RT] with a Slack that refuses every post. *)
Definition refusing_posts (RT : Runtime) : Runtime :=
  {| World := @World RT;
     url_error := @url_error RT;
     url_Parse := @url_Parse RT;
     httpClient_Do := @httpClient_Do RT;
     json_Unmarshal_Projects := @json_Unmarshal_Projects RT;
     json_Unmarshal_Issue := @json_Unmarshal_Issue RT;
     Slack_PostMessage := fun _ _ _ w =>
       (Some (LibraryError (runes "channel_not_found")), w) |}.

Definition slack_down : Runtime := refusing_posts jira_up.

Definition unassigned : Assignee := {| DisplayName := runes "Unassigned" |}.

(** The match of PROJ-42 in "see PROJ-42 now", and that of PROJ-1 at
    the start of a text. *)
Definition match_42 : list gostring :=
  [runes " PROJ-42"; runes "PROJ-42"; runes "PROJ"; []].

Definition match_1 : list gostring :=
  [runes "PROJ-1"; runes "PROJ-1"; runes "PROJ"; []].

(** A project whose key closes a group. *)
Definition odd_key : Project := {| ID := runes "10002"; KEY := runes "A)" |}.

(** Jira as it should be, before [buildPattern], with the projects [ps]. *)
Definition listed (ps : list Project) : @State jira_up :=
  {| Pattern := None; Projects := ps; Client := Client up_state;
     jiraHostURL := jiraHostURL up_state; world := world up_state; trace := [] |}.

(** The package variables when [main] calls [GetProjects], with the
    environment [config]. *)
Definition configured_in (RT : Runtime) (w : World) : State :=
  configured config (initial w).


(** After "hello" was dispatched: its goroutine has not run. *)
Definition hello_dispatched : @Process jira_up :=
  {| phase := Looping; wg := one; incoming := [InvalidAuthEvent];
     running := [{| g_text := runes "hello"; g_channel := general; g_wg := one |}];
     finished := []; globals := up_state |}.




Definition bot_then_auth_failure : list RTMEvent :=
  [MessageEvent (runes "bot_message") (runes "PROJ-1") general; InvalidAuthEvent].

(** [main] has left, and nothing was started. *)
Definition left_idle : @Process jira_up :=
  {| phase := Exited; wg := none; incoming := [];
     running := []; finished := []; globals := up_state |}.

(** ** Keys, tokens and boundaries *)

(** A key that the parser reads as itself: none of its runes is an
    operator of the pattern language. *)
Definition plain_key (k : gostring) : Prop :=
  Forall (fun c => Parser.kind c = Parser.KLiteral) k.

(** [s] without the key [k] that it starts with. *)
Fixpoint after_key (k s : gostring) : option gostring :=
  match k, s with
  | [], _ => Some s
  | x :: k', y :: s' => if N.eqb x y then after_key k' s' else None
  | _ :: _, [] => None
  end.

(** [s] starts with a reference of the key [k]: the key, a hyphen and
    a digit. *)
Definition reads_key (k s : gostring) : bool :=
  match after_key k s with
  | Some (h :: d :: _) => N.eqb h hyphen && is_digit d
  | _ => false
  end.

(** The first key of the list that [s] starts with a reference of. *)
Definition first_reading (ps : list Project) (s : gostring) : option gostring :=
  find (fun k => reads_key k s) (map KEY ps).

(** The token [K-ds], followed by [post]: [ds] is the whole number and
    [K] is the first key of the list that the text starts with a
    reference of. *)
Definition token (ps : list Project) (K ds post : gostring) : Prop :=
  ds <> [] /\ Forall (fun x => is_digit x = true) ds /\ no_digit_ahead post /\
  first_reading ps (K ++ hyphen :: ds ++ post) = Some K.

(** A text whose first rune is a word character or is not followed by
    a reference, of a listed key or of none. *)
Definition clean_start (ps : list Project) (s : gostring) : Prop :=
  match s with
  | x :: s' => is_word x = true \/ (reads_key [] s' = false /\ first_reading ps s' = None)
  | [] => True
  end.

(** A match that starts before the index [i] extends over it. *)
Definition taken (idx : list caps) (i : nat) : Prop :=
  exists m, In m idx /\ fst (whole m) < i /\ i < snd (whole m).

(** [w], the rune before a reference of the key [K], is in no match
    that starts before it: it is in no listed key, it is not a [+]
    right after a digit, and if it is a hyphen then [K] does not start
    with a digit. *)
Definition open_boundary (ps : list Project) (pre : gostring) (w : rune) (K : gostring)
  : Prop :=
  free_boundary pre w /\
  (w = hyphen -> no_digit_ahead K) /\
  forall K', In K' (map KEY ps) -> ~ In w K'.

(** The reference [K-ds] after [pre] is captured: capture 1 of a match
    is the token, by its indices and as a string. *)
Definition captured (re : Compiled) (pre K ds post : gostring) : Prop :=
  In (Some (length pre, length pre + length K + 1 + length ds))
     (map (fun m => nth 1 m None)
        (FindAllStringSubmatchIndex re (pre ++ K ++ hyphen :: ds ++ post))) /\
  In (K ++ hyphen :: ds)
     (map (fun v => nth 1 v [])
        (FindAllStringSubmatch re (pre ++ K ++ hyphen :: ds ++ post))).

(** Keys to try the pattern on: one with an operator, one that is the
    start of another, one that starts with a rune that is not a word
    character, and one with a space. *)
Definition A_plus : Project := {| ID := runes "10003"; KEY := runes "A+" |}.
Definition A_only : Project := {| ID := runes "10004"; KEY := runes "A" |}.
Definition A_1 : Project := {| ID := runes "10005"; KEY := runes "A-1" |}.
Definition hash_A : Project := {| ID := runes "10006"; KEY := runes "#A" |}.
Definition A_B : Project := {| ID := runes "10007"; KEY := runes "A B" |}.

(** U+00E9, a letter that is not an ASCII word character. *)
Definition e_acute : rune := 233%N.

(** The matches of "PROJ-7 PROJ-1 PROJ-2". *)
Definition match_7 : list gostring :=
  [runes "PROJ-7"; runes "PROJ-7"; runes "PROJ"; []].
Definition match_then_1 : list gostring :=
  [runes " PROJ-1"; runes "PROJ-1"; runes "PROJ"; []].
Definition match_then_2 : list gostring :=
  [runes " PROJ-2"; runes "PROJ-2"; runes "PROJ"; []].

(** ** The matcher finds matches only *)

Lemma orelse_Some {A} (x y : option A) (r : A) :
  orelse x y = Some r -> x = Some r \/ (x = None /\ y = Some r).
Proof. destruct x; simpl; intros H; [left | right]; auto. Qed.

Lemma again_sound sub k :
  sound_matcher sub (backtrack sub) ->
  forall n p s c r,
    again (backtrack sub) k n p s c = Some r ->
    exists w s' c',
      s = w ++ s' /\ derives (OpPlus sub) p w s' c c' /\
      k (p + length w) s' c' = Some r.
Proof.
  intros Hsub n. induction n as [|n IH]; intros p s c r H; simpl in H;
    apply Hsub in H; destruct H as (w & s' & c' & -> & Hd & Hk).
  - exists w, s', c'. auto using d_plus_one.
  - destruct (Nat.ltb p (p + length w)).
    + apply orelse_Some in Hk. destruct Hk as [Hk | [_ Hk]].
      * apply IH in Hk. destruct Hk as (w2 & s2 & c2 & -> & Hd2 & Hk2).
        exists (w ++ w2), s2, c2. rewrite length_app, Nat.add_assoc, app_assoc.
        eauto using d_plus_more.
      * exists w, s', c'. auto using d_plus_one.
    + exists w, s', c'. auto using d_plus_one.
Qed.

Lemma backtrack_sound re : sound_matcher re (backtrack re).
Proof.
  induction re as [|lit|cl| | |i sub IH|a IHa b IHb|a IHa b IHb|sub IH|sub IH];
    intros p s c k res H; simpl in H.
  - exists [], s, c. rewrite Nat.add_0_r. auto using d_empty.
  - destruct s as [|x s']; [discriminate|].
    destruct (N.eqb_spec x lit); [subst|discriminate].
    exists [lit], s', c. rewrite Nat.add_1_r. auto using d_literal.
  - destruct s as [|x s']; [discriminate|].
    destruct (in_class cl x) eqn:E; [|discriminate].
    exists [x], s', c. rewrite Nat.add_1_r. auto using d_class.
  - destruct (Nat.eqb_spec p 0); [subst|discriminate].
    exists [], s, c. auto using d_begin.
  - destruct s; [|discriminate].
    exists [], [], c. rewrite Nat.add_0_r. auto using d_end.
  - apply IH in H. destruct H as (w & s' & c' & -> & Hd & Hk).
    exists w, s', (set_cap i (p, p + length w) c'). auto using d_capture.
  - apply IHa in H. destruct H as (w1 & s1 & c1 & -> & Hd1 & Hk1).
    apply IHb in Hk1. destruct Hk1 as (w2 & s2 & c2 & -> & Hd2 & Hk2).
    exists (w1 ++ w2), s2, c2. rewrite length_app, Nat.add_assoc, app_assoc.
    eauto using d_concat.
  - apply orelse_Some in H. destruct H as [H | [_ H]].
    + apply IHa in H. destruct H as (w & s' & c' & -> & Hd & Hk).
      exists w, s', c'. auto using d_alt_left.
    + apply IHb in H. destruct H as (w & s' & c' & -> & Hd & Hk).
      exists w, s', c'. auto using d_alt_right.
  - eapply again_sound in H; eauto.
  - apply orelse_Some in H. destruct H as [H | [_ H]].
    + apply IH in H. destruct H as (w & s' & c' & -> & Hd & Hk).
      exists w, s', c'. auto using d_quest_one.
    + exists [], s, c. rewrite Nat.add_0_r. auto using d_quest_none.
Qed.

(** ** The matches of the issue pattern *)

Lemma derives_literal K : forall p w s c c',
  derives (literal K) p w s c c' -> w = K /\ c' = c.
Proof.
  unfold literal. induction K as [|r K IH]; intros p w s c c' H.
  - inversion H; auto.
  - destruct K as [|r2 K].
    + inversion H; auto.
    + change (Parser.mk_concat (map OpLiteral (r :: r2 :: K)))
        with (OpConcat (OpLiteral r) (Parser.mk_concat (map OpLiteral (r2 :: K)))) in H.
      inversion H; subst.
      match goal with Ha : derives (OpLiteral _) _ _ _ _ _ |- _ => inversion Ha; subst end.
      match goal with Hb : derives _ (_ + _) _ _ _ _ |- _ =>
        apply IH in Hb; destruct Hb as [-> ->] end.
      auto.
Qed.

Lemma derives_keys ps : forall p w s c c',
  derives (key_alternation ps) p w s c c' ->
  c' = c /\ (w = [] \/ In w (map KEY ps)).
Proof.
  induction ps as [|pr ps IH]; intros p w s c c' H; simpl in H.
  - inversion H; auto.
  - inversion H; subst.
    + match goal with Ha : derives (literal _) _ _ _ _ _ |- _ =>
        apply derives_literal in Ha; destruct Ha as [-> ->] end.
      simpl; auto.
    + match goal with Ha : derives (key_alternation _) _ _ _ _ _ |- _ =>
        apply IH in Ha; destruct Ha as [-> [-> | Hin]] end; simpl; auto.
Qed.

Lemma derives_digits p w s c c' :
  derives (OpPlus (OpCharClass ClassDigit)) p w s c c' ->
  c' = c /\ w <> [] /\ Forall (fun r => is_digit r = true) w.
Proof.
  intros H. remember (OpPlus (OpCharClass ClassDigit)) as re eqn:E.
  induction H; try discriminate; injection E as ->.
  - inversion H; subst. repeat split; [discriminate | auto].
  - inversion H; subst. destruct (IHderives2 eq_refl) as (-> & _ & HF).
    repeat split; [discriminate | simpl; auto].
Qed.

Lemma derives_group ps q w s c c' :
  derives (issue_group ps) q w s c c' ->
  exists K ds,
    w = K ++ hyphen :: ds /\
    (K = [] \/ In K (map KEY ps)) /\
    ds <> [] /\ Forall (fun r => is_digit r = true) ds /\
    c' = set_cap 1 (q, q + length w) (set_cap 2 (q, q + length K) c).
Proof.
  intros H. unfold issue_group in H.
  inversion H as [| | | | |i sub p0 w0 s0 c0 c1 H1| | | | | | |]; subst.
  inversion H1 as [| | | | | |a b p0 w1 w2 s0 c0 c2 c3 Ha Hb| | | | | |]; subst.
  inversion Ha as [| | | | |i sub p0 w0 s0 c0 c4 Hk| | | | | | |]; subst.
  apply derives_keys in Hk. destruct Hk as [-> HK].
  inversion Hb as [| | | | | |a b p0 w3 w4 s0 c0 c5 c6 Hh Hd| | | | | |]; subst.
  inversion Hh; subst.
  apply derives_digits in Hd. destruct Hd as (-> & Hne & HF).
  exists w1, w4. repeat split; auto.
Qed.

Lemma pattern_shape ps p s e c :
  backtrack (expr (issue_pattern ps)) p s no_caps accept = Some (e, c) ->
  (s = [] /\ e = p /\ c = no_caps) \/ reference_at ps p s e c.
Proof.
  intros H. apply backtrack_sound in H.
  destruct H as (w & s' & c' & -> & Hd & Hk).
  unfold accept in Hk. injection Hk as <- <-.
  simpl in Hd.
  inversion Hd as [| | | | | | |a b p0 w0 s0 c0 c1 H1 |a b p0 w0 s0 c0 c1 H1| | | |]; subst.
  - right.
    inversion H1 as [| | | | | |a b p0 w1 w2 s0 c0 c2 c3 Ha Hb| | | | | |]; subst.
    inversion Hb as [| | | | | |a b p0 w3 w4 s0 c0 c5 c6 Hg Hq| | | | | |]; subst.
    apply derives_group in Hg. destruct Hg as (K & ds & -> & HK & Hne & HF & ->).
    assert (Hlead : ((exists x, w1 = [x] /\ is_word x = false) \/ (w1 = [] /\ p = 0)) /\ c2 = no_caps).
    { inversion Ha as [| | | | | | |a b p0 w0 s0 c0 c1 Hx |a b p0 w0 s0 c0 c1 Hx| | | |]; subst;
        inversion Hx; subst; split; auto.
      left. eexists; split; eauto. simpl in *.
      match goal with Hc : negb _ = true |- _ => apply negb_true_iff in Hc; auto end. }
    destruct Hlead as [Hlead ->].
    inversion Hq as [| | | | | | | | |sub p0 w0 s0 c0 c1 Hp|sub p0 s0 c0| |]; subst.
    + inversion Hp as [| | | | |i sub p0 w0 s0 c0 c1 Hl| | | | | | |]; subst.
      inversion Hl; subst.
      exists w1, K, ds, [plus_sign], s'.
      repeat split; auto.
      * rewrite <- ?app_assoc; simpl; rewrite <- ?app_assoc; reflexivity.
      * rewrite !length_app. simpl. lia.
      * simpl. rewrite !length_app. simpl. repeat (f_equal; try lia).
    + exists w1, K, ds, [], s'.
      repeat split; auto.
      * rewrite <- ?app_assoc; simpl; rewrite <- ?app_assoc; reflexivity.
      * rewrite !length_app. simpl. lia.
      * simpl. rewrite !length_app. simpl. repeat (f_equal; try lia).
  - left. inversion H1; subst. simpl. rewrite Nat.add_0_r. auto.
Qed.

(** ** One execution *)

Lemma search_spec re : forall s p m,
  search re p s = Some m ->
  exists a s2 e c,
    s = a ++ s2 /\
    backtrack (expr re) (p + length a) s2 (repeat None (S (numSubexp re))) accept
      = Some (e, c) /\
    m = set_cap 0 (p + length a, e) c /\
    forall a1 x a2, a = a1 ++ x :: a2 ->
      backtrack (expr re) (p + length a1) (x :: a2 ++ s2)
        (repeat None (S (numSubexp re))) accept = None.
Proof.
  induction s as [|x s IH]; intros p m H; simpl in H.
  - destruct (backtrack (expr re) p [] _ accept) as [[e c]|] eqn:E; [|discriminate].
    injection H as <-. exists [], [], e, c. simpl. rewrite Nat.add_0_r.
    repeat split; auto. intros [|? ?] ? ? ?; discriminate.
  - destruct (backtrack (expr re) p (x :: s) _ accept) as [[e c]|] eqn:E.
    + injection H as <-. exists [], (x :: s), e, c. simpl. rewrite Nat.add_0_r.
      repeat split; auto. intros [|? ?] ? ? ?; discriminate.
    + apply IH in H. destruct H as (a & s2 & e & c & -> & Hb & -> & Hmin).
      exists (x :: a), s2, e, c. simpl. rewrite <- plus_n_Sm.
      repeat split; auto.
      intros [|y a1] z a2 Ha; simpl in Ha; injection Ha as -> ->.
      * simpl. rewrite Nat.add_0_r. exact E.
      * simpl. rewrite <- plus_n_Sm. apply (Hmin a1 z a2). reflexivity.
Qed.

Lemma search_total re : forall s p,
  (forall q, backtrack (expr re) q [] (repeat None (S (numSubexp re))) accept <> None) ->
  search re p s <> None.
Proof.
  induction s as [|x s IH]; intros p Hend; simpl.
  - specialize (Hend p). destruct (backtrack (expr re) p [] _ accept) as [[e c]|]; congruence.
  - destruct (backtrack (expr re) p (x :: s) _ accept) as [[e c]|]; [discriminate|].
    apply IH. exact Hend.
Qed.

Lemma pattern_at_end ps q :
  backtrack (expr (issue_pattern ps)) q [] no_caps accept = Some (q, no_caps).
Proof.
  destruct (backtrack (expr (issue_pattern ps)) q [] no_caps accept) as [[e c]|] eqn:E.
  - apply pattern_shape in E. destruct E as [(_ & -> & ->) | E]; [reflexivity|].
    destruct E as (lead & K & ds & pl & rest & Hs & _).
    destruct lead, K; discriminate.
  - simpl in E. unfold orelse in E.
    repeat match type of E with
           | match ?x with _ => _ end = None => destruct x; try discriminate
           end.
Qed.

Lemma skipn_split (t : gostring) p a s2 :
  p <= length t -> skipn p t = a ++ s2 ->
  skipn (p + length a) t = s2 /\ p + length a + length s2 = length t.
Proof.
  intros Hp H. split.
  - rewrite Nat.add_comm, <- skipn_skipn, H.
    rewrite skipn_app, skipn_all, Nat.sub_diag. reflexivity.
  - assert (L : length (skipn p t) = length (a ++ s2)) by (rewrite H; reflexivity).
    rewrite length_skipn, length_app in L. lia.
Qed.

Lemma reference_bounds ps p s e c :
  reference_at ps p s e c ->
  p < e /\ e <= p + length s /\ whole (set_cap 0 (p, e) c) = (p, e).
Proof.
  intros (lead & K & ds & pl & rest & -> & _ & _ & Hne & _ & _ & -> & ->).
  rewrite !length_app. simpl. rewrite !length_app.
  repeat split; lia.
Qed.

Lemma doExecute_pattern ps text pos :
  pos <= length text ->
  exists m,
    doExecute (issue_pattern ps) text pos = Some m /\
    (m = empty_match (length text) \/
     exists b e c, pos <= b /\ b <= length text /\
       reference_at ps b (skipn b text) e c /\ m = set_cap 0 (b, e) c).
Proof.
  intros Hpos. unfold doExecute.
  destruct (search (issue_pattern ps) pos (skipn pos text)) as [m|] eqn:E.
  - exists m. split; [reflexivity|].
    apply search_spec in E. destruct E as (a & s2 & e & c & Hs & Hb & -> & _).
    apply skipn_split in Hs; [|exact Hpos]. destruct Hs as [Hs2 Hlen].
    apply pattern_shape in Hb. destruct Hb as [(-> & -> & ->) | Href].
    + left. simpl in Hlen. rewrite Nat.add_0_r in Hlen. rewrite Hlen. reflexivity.
    + right. exists (pos + length a), e, c. rewrite Hs2.
      repeat split; auto; lia.
  - exfalso. revert E. apply search_total. intros q.
    change (repeat None (S (numSubexp (issue_pattern ps)))) with no_caps.
    rewrite pattern_at_end. discriminate.
Qed.

Lemma allMatches_step re text budget pos prev :
  allMatches re text (S budget) pos prev =
  if Nat.leb pos (length text) then
    match doExecute re text pos with
    | None => []
    | Some m =>
        let (b, e) := whole m in
        if Nat.eqb e pos then
          (if match prev with
              | Some q => negb (Nat.eqb b q)
              | None => true
              end
           then [m] else [])
            ++ allMatches re text budget
                 (if Nat.ltb pos (length text) then S pos else S (length text)) (Some e)
        else m :: allMatches re text budget e (Some e)
    end
  else [].
Proof. reflexivity. Qed.

Lemma allMatches_past re text budget pos prev :
  length text < pos -> allMatches re text budget pos prev = [].
Proof.
  intros H. destruct budget; [reflexivity|].
  rewrite allMatches_step.
  destruct (Nat.leb_spec pos (length text)); [lia | reflexivity].
Qed.

Lemma allMatches_structure ps text : forall budget pos prev,
  pos <= length text -> length text < budget + pos ->
  (pos = length text /\ prev = Some (length text) /\
   allMatches (issue_pattern ps) text budget pos prev = []) \/
  (~ (pos = length text /\ prev = Some (length text)) /\
   ends_with_one ps text (allMatches (issue_pattern ps) text budget pos prev)).
Proof.
  induction budget as [|budget IH]; intros pos prev Hpos Hb; [lia|].
  rewrite allMatches_step.
  destruct (Nat.leb_spec pos (length text)) as [_|]; [|lia].
  destruct (doExecute_pattern ps text Hpos) as (m & -> & Hm).
  destruct Hm as [-> | (b & e & c & Hpb & Hbn & Href & ->)].
  - (* the empty match at the end of the text *)
    simpl whole. cbv iota.
    destruct (Nat.eqb_spec (length text) pos) as [<-|Hne].
    + rewrite Nat.ltb_irrefl, allMatches_past by lia. rewrite app_nil_r.
      destruct prev as [q|].
      * destruct (Nat.eqb_spec (length text) q) as [<-|Hq]; simpl.
        -- left. auto.
        -- right. split; [intros (_ & E); congruence|].
           exists [], (empty_match (length text)). auto.
      * right. split; [intros (_ & E); congruence|].
        exists [], (empty_match (length text)). auto.
    + right. split; [intros (E & _); congruence|].
      destruct (IH (length text) (Some (length text))) as [(_ & _ & ->)|(Hn & _)];
        [lia | lia | | exfalso; apply Hn; auto].
      exists [], (empty_match (length text)). auto.
  - (* a reference *)
    destruct (reference_bounds Href) as (Hlt & Hle & ->).
    rewrite length_skipn in Hle.
    destruct (Nat.eqb_spec e pos) as [|_]; [lia|].
    right. split; [intros (E & _); lia|].
    assert (Hrm : reference_match ps text (set_cap 0 (b, e) c))
      by (exists b, e, c; auto).
    assert (Hwhole : snd (whole (set_cap 0 (b, e) c)) = e)
      by (destruct (reference_bounds Href) as (_ & _ & ->); reflexivity).
    assert (e = length text \/ e < length text) as [He|He] by lia.
    + destruct (IH e (Some e)) as [(_ & _ & ->)|(Hn & _)];
        [lia | lia | | exfalso; apply Hn; subst; auto].
      exists [], (set_cap 0 (b, e) c). repeat split; auto.
      right. split; auto. congruence.
    + destruct (IH e (Some e)) as [(He' & _)|(_ & front & lastm & -> & HF & Hl)];
        [lia | lia | lia |].
      exists (set_cap 0 (b, e) c :: front), lastm. repeat split; auto.
      constructor; auto. split; auto. lia.
Qed.

Module ParserFacts.
Import Parser.

Lemma fold_left_keys (ps : list Project) : forall acc : gostring,
  fold_left (fun pattern p => (pattern ++ KEY p) ++ runes "|") ps acc
  = acc ++ flat_map (fun p => KEY p ++ runes "|") ps.
Proof.
  induction ps as [|p ps IH]; intros acc; simpl.
  - rewrite app_nil_r. reflexivity.
  - rewrite IH. rewrite <- !app_assoc. reflexivity.
Qed.

Lemma word_kind c : is_word c = true -> kind c = KLiteral.
Proof.
  unfold is_word, rune_in, kind. intros H.
  repeat match goal with
         | |- context [N.eqb c ?k] => destruct (N.eqb_spec c k); [subst; discriminate H|]
         end.
  reflexivity.
Qed.

Lemma word_not_quest c : is_word c = true -> N.eqb c 63 = false.
Proof.
  intros H. destruct (N.eqb_spec c 63); [subst; discriminate H | reflexivity].
Qed.

Lemma parse_key k : word_key k -> forall t n st f,
  parse (k ++ t) n st f = parse t n st (push_all k f).
Proof.
  induction 1 as [|c k Hc Hk IH]; intros t n st f.
  - destruct f; reflexivity.
  - simpl app. simpl parse. rewrite (word_kind c Hc). rewrite IH.
    unfold push_all, push. simpl. rewrite <- app_assoc. reflexivity.
Qed.

Lemma parse_keys ps : Forall (fun p => word_key (KEY p)) ps ->
  forall t n st cap alts,
    parse (flat_map (fun p => KEY p ++ runes "|") ps ++ t) n st
          {| fcap := cap; falts := alts; fcur := [] |}
    = parse t n st
        {| fcap := cap; falts := rev (map (fun p => literal (KEY p)) ps) ++ alts;
           fcur := [] |}.
Proof.
  induction 1 as [|p ps Hp Hps IH]; intros t n st cap alts.
  - reflexivity.
  - simpl flat_map. rewrite <- !app_assoc. rewrite (parse_key Hp).
    simpl app. simpl parse. unfold bar, push_all. simpl.
    rewrite app_nil_r, rev_involutive. rewrite IH.
    rewrite <- app_assoc. reflexivity.
Qed.

Lemma mk_alt_snoc l :
  mk_alt (l ++ [OpEmptyMatch]) = fold_right OpAlternate OpEmptyMatch l.
Proof.
  induction l as [|a l IH]; [reflexivity|].
  simpl. rewrite <- IH. destruct (l ++ [OpEmptyMatch]) eqn:E; [|reflexivity].
  destruct l; discriminate.
Qed.

Lemma key_alternation_alt ps :
  key_alternation ps = fold_right OpAlternate OpEmptyMatch (map (fun p => literal (KEY p)) ps).
Proof. induction ps; simpl; congruence. Qed.

Lemma keys_then_suffix ps t :
  Forall (fun p => word_key (KEY p)) ps ->
  exists q t', flat_map (fun p => KEY p ++ runes "|") ps ++ pattern_suffix ++ t = q :: t'
               /\ N.eqb q 63 = false.
Proof.
  intros H. destruct H as [|p ps Hp Hps].
  - simpl. eexists _, _. split; reflexivity.
  - simpl. destruct Hp as [|c k Hc Hk].
    + simpl. eexists _, _. split; reflexivity.
    + simpl. eexists _, _. split; [reflexivity|]. apply word_not_quest; auto.
Qed.

Lemma pattern_text_eq ps :
  pattern_text ps = pattern_prefix ++ flat_map (fun p => KEY p ++ runes "|") ps ++ pattern_suffix.
Proof. unfold pattern_text. rewrite fold_left_keys, <- app_assoc. reflexivity. Qed.

Theorem Compile_pattern_text ps :
  Forall (fun p => word_key (KEY p)) ps ->
  Compile (pattern_text ps) = Parsed (issue_pattern ps).
Proof.
  intros H. unfold Compile. rewrite pattern_text_eq.
  destruct (keys_then_suffix [] H) as (q & t' & E & Hq).
  rewrite app_nil_r in E.
  change pattern_prefix with ([40; 63; 58; 92; 87; 124; 94; 41; 40; 40]%N : gostring).
  simpl app. rewrite E. remember (q :: t') as rest eqn:R.
  simpl parse. subst rest. cbv beta match. rewrite Hq. rewrite <- E. unfold new_frame.
  rewrite (parse_keys H).
  simpl. unfold issue_pattern, issue_group. rewrite key_alternation_alt.
  rewrite <- mk_alt_snoc. unfold close, push, bar, new_frame. simpl.
  rewrite app_nil_r, rev_involutive. reflexivity.
Qed.

End ParserFacts.

(** The same for keys that hold no operator of the pattern language,
    word characters or not. *)
Module PlainKeys.
Import Parser.

Lemma literal_not_quest c : kind c = KLiteral -> N.eqb c 63 = false.
Proof.
  intros H. destruct (N.eqb_spec c 63); [subst; discriminate H | reflexivity].
Qed.

Lemma parse_plain_key k : plain_key k -> forall t n st f,
  parse (k ++ t) n st f = parse t n st (push_all k f).
Proof.
  induction 1 as [|c k Hc Hk IH]; intros t n st f.
  - destruct f; reflexivity.
  - simpl app. simpl parse. rewrite Hc. rewrite IH.
    unfold push_all, push. simpl. rewrite <- app_assoc. reflexivity.
Qed.

Lemma parse_plain_keys ps : Forall (fun p => plain_key (KEY p)) ps ->
  forall t n st cap alts,
    parse (flat_map (fun p => KEY p ++ runes "|") ps ++ t) n st
          {| fcap := cap; falts := alts; fcur := [] |}
    = parse t n st
        {| fcap := cap; falts := rev (map (fun p => literal (KEY p)) ps) ++ alts;
           fcur := [] |}.
Proof.
  induction 1 as [|p ps Hp Hps IH]; intros t n st cap alts.
  - reflexivity.
  - simpl flat_map. rewrite <- !app_assoc. rewrite (parse_plain_key Hp).
    simpl app. simpl parse. unfold bar, push_all. simpl.
    rewrite app_nil_r, rev_involutive. rewrite IH.
    rewrite <- app_assoc. reflexivity.
Qed.

Lemma plain_keys_then_suffix ps t :
  Forall (fun p => plain_key (KEY p)) ps ->
  exists q t', flat_map (fun p => KEY p ++ runes "|") ps ++ pattern_suffix ++ t = q :: t'
               /\ N.eqb q 63 = false.
Proof.
  intros H. destruct H as [|p ps Hp Hps].
  - simpl. eexists _, _. split; reflexivity.
  - simpl. destruct Hp as [|c k Hc Hk].
    + simpl. eexists _, _. split; reflexivity.
    + simpl. eexists _, _. split; [reflexivity|]. apply literal_not_quest; auto.
Qed.

Lemma Compile_plain_keys ps :
  Forall (fun p => plain_key (KEY p)) ps ->
  Compile (pattern_text ps) = Parsed (issue_pattern ps).
Proof.
  intros H. unfold Compile. rewrite ParserFacts.pattern_text_eq.
  destruct (plain_keys_then_suffix [] H) as (q & t' & E & Hq).
  rewrite app_nil_r in E.
  change pattern_prefix with ([40; 63; 58; 92; 87; 124; 94; 41; 40; 40]%N : gostring).
  simpl app. rewrite E. remember (q :: t') as rest eqn:R.
  simpl parse. subst rest. cbv beta match. rewrite Hq. rewrite <- E. unfold new_frame.
  rewrite (parse_plain_keys H).
  simpl. unfold issue_pattern, issue_group. rewrite ParserFacts.key_alternation_alt.
  rewrite <- ParserFacts.mk_alt_snoc. unfold close, push, bar, new_frame. simpl.
  rewrite app_nil_r, rev_involutive. reflexivity.
Qed.

Lemma word_key_plain k : word_key k -> plain_key k.
Proof.
  unfold word_key, plain_key. intros H. eapply Forall_impl; [|exact H].
  intros c. apply ParserFacts.word_kind.
Qed.

End PlainKeys.

Lemma backtrack_literal K : forall p s c k,
  backtrack (literal K) p (K ++ s) c k = k (p + length K) s c.
Proof.
  unfold literal. induction K as [|r K IH]; intros p s c k.
  - simpl. rewrite Nat.add_0_r. reflexivity.
  - destruct K as [|r2 K].
    + simpl. rewrite N.eqb_refl, Nat.add_1_r. reflexivity.
    + change (Parser.mk_concat (map OpLiteral (r :: r2 :: K)))
        with (OpConcat (OpLiteral r) (Parser.mk_concat (map OpLiteral (r2 :: K)))).
      change ((r :: r2 :: K) ++ s) with (r :: (r2 :: K) ++ s).
      cbn [backtrack]. rewrite N.eqb_refl. rewrite IH.
      f_equal. cbn [length]. lia.
Qed.

Lemma word_not_hyphen K : word_key K -> ~ In hyphen K.
Proof.
  intros H Hin. unfold word_key in H. rewrite Forall_forall in H.
  apply H in Hin. discriminate.
Qed.

Lemma split_at_hyphen (K K' a b : gostring) :
  ~ In hyphen K -> ~ In hyphen K' ->
  K ++ hyphen :: a = K' ++ hyphen :: b -> K = K' /\ a = b.
Proof.
  revert K'. induction K as [|x K IH]; intros [|y K'] HK HK' E; simpl in *.
  - injection E as ->. auto.
  - injection E as <- _. exfalso. apply HK'. auto.
  - injection E as -> _. exfalso. apply HK. auto.
  - injection E as -> E. apply IH in E; [|tauto|tauto].
    destruct E as [-> ->]. auto.
Qed.

Lemma keys_first_match ps K : forall p rest c k r0,
  Forall (fun p => word_key (KEY p)) ps ->
  In K (map KEY ps) ->
  needs_hyphen k ->
  k (p + length K) (hyphen :: rest) c = Some r0 ->
  backtrack (key_alternation ps) p (K ++ hyphen :: rest) c k = Some r0.
Proof.
  intros p rest c k r0 Hps HK Hk Hr.
  assert (HKw : ~ In hyphen K).
  { rewrite Forall_forall in Hps. apply in_map_iff in HK.
    destruct HK as (pr & <- & Hin). apply word_not_hyphen. auto. }
  induction ps as [|pr ps IH]; [contradiction|].
  simpl. inversion Hps as [|? ? Hpr Hps']; subst.
  destruct (backtrack (literal (KEY pr)) p (K ++ hyphen :: rest) c k) as [r|] eqn:E.
  - simpl. apply backtrack_sound in E.
    destruct E as (w & s' & c' & Hs & Hd & Hkr).
    apply derives_literal in Hd. destruct Hd as [-> ->].
    destruct s' as [|x s'].
    + rewrite Hk in Hkr; [discriminate | intros; discriminate].
    + destruct (N.eq_dec x hyphen) as [->|Hx].
      * apply split_at_hyphen in Hs; auto using word_not_hyphen.
        destruct Hs as [-> ->]. congruence.
      * rewrite Hk in Hkr; [discriminate | intros s'' E; injection E; auto].
  - simpl. destruct HK as [HK|HK].
    + rewrite HK, backtrack_literal in E. congruence.
    + apply IH; auto.
Qed.

Lemma ltb_succ p : Nat.ltb p (S p) = true.
Proof. apply Nat.ltb_lt. lia. Qed.

Section Digits.

Variable m : nat -> gostring -> caps -> cont -> option (nat * caps).
Hypothesis m_digit : forall p s c k,
  m p s c k = match s with
              | x :: s' => if is_digit x then k (S p) s' c else None
              | [] => None
              end.

Lemma again_no_digit k n p t c :
  no_digit_ahead t -> again m k n p t c = None.
Proof.
  intros Ht. destruct n; cbn [again]; rewrite m_digit;
    destruct t as [|x t]; auto; simpl in Ht; rewrite Ht; reflexivity.
Qed.

Lemma again_greedy k t c r : no_digit_ahead t ->
  forall ds d p n,
    Forall (fun x => is_digit x = true) (d :: ds) ->
    length ds <= n ->
    k (p + 1 + length ds) t c = Some r ->
    again m k n p (d :: ds ++ t) c = Some r.
Proof.
  intros Ht. induction ds as [|d' ds IH]; intros d p n HF Hn Hk;
    inversion HF as [|? ? Hd HF']; subst.
  - simpl in Hk. rewrite Nat.add_0_r, Nat.add_1_r in Hk.
    destruct n; cbn [again app]; rewrite m_digit, Hd; [exact Hk|].
    rewrite ltb_succ, again_no_digit by exact Ht. exact Hk.
  - destruct n as [|n]; [simpl in Hn; lia|].
    cbn [again app]. rewrite m_digit, Hd, ltb_succ.
    rewrite (IH d' (S p) n); auto.
    + simpl in Hn. lia.
    + rewrite <- Hk. f_equal. simpl. lia.
Qed.

End Digits.

Lemma digits_greedy k t c r ds p :
  no_digit_ahead t ->
  ds <> [] -> Forall (fun x => is_digit x = true) ds ->
  k (p + length ds) t c = Some r ->
  backtrack (OpPlus (OpCharClass ClassDigit)) p (ds ++ t) c k = Some r.
Proof.
  intros Ht Hne HF Hk. destruct ds as [|d ds]; [congruence|].
  cbn [backtrack]. apply again_greedy; auto.
  - simpl. rewrite length_app. lia.
  - rewrite <- Hk. f_equal. simpl. lia.
Qed.

Lemma after_group_accepts p post c1 c2 :
  backtrack after_group p post [None; c1; c2; None] accept
  = Some (p + plus_len post,
          [None; c1; c2; if Nat.eqb (plus_len post) 1 then Some (p, S p) else None]).
Proof.
  unfold after_group, plus_len. cbn [backtrack].
  destruct post as [|x post]; simpl.
  - rewrite Nat.add_0_r. reflexivity.
  - destruct (N.eqb x plus_sign); simpl.
    + rewrite Nat.add_1_r. reflexivity.
    + rewrite Nat.add_0_r. reflexivity.
Qed.

Section Token.

Variable ps : list Project.
Hypothesis word_keys : Forall (fun p => word_key (KEY p)) ps.

Variables K ds post : gostring.
Hypothesis K_known : In K (map KEY ps).
Hypothesis ds_digits : Forall (fun x => is_digit x = true) ds.
Hypothesis ds_nonempty : ds <> [].
Hypothesis number_ends : no_digit_ahead post.

Lemma group_on_token q :
  backtrack (OpConcat (issue_group ps) after_group) q (K ++ hyphen :: ds ++ post)
    no_caps accept
  = Some (q + length K + 1 + length ds + plus_len post, reference_caps q K ds post).
Proof.
  unfold issue_group. cbn [backtrack].
  erewrite keys_first_match; [reflexivity | exact word_keys | exact K_known | |].
  - intros p s c Hs. destruct s as [|x s]; [reflexivity|].
    destruct (N.eqb_spec x hyphen); [subst; exfalso; eapply Hs; eauto | reflexivity].
  - rewrite N.eqb_refl.
    change (backtrack (OpPlus (OpCharClass ClassDigit)) (S (q + length K)) (ds ++ post)
              (set_cap 2 (q, q + length K) no_caps)
              (fun p' s' c' =>
                 backtrack after_group p' s' (set_cap 1 (q, p') c') accept)
            = Some (q + length K + 1 + length ds + plus_len post,
                    reference_caps q K ds post)).
    apply digits_greedy; auto.
    replace (S (q + length K) + length ds) with (q + length K + 1 + length ds) by lia.
    unfold no_caps. cbn [set_cap repeat]. rewrite after_group_accepts. reflexivity.
Qed.

Lemma pattern_on_token_after p w :
  is_word w = false ->
  backtrack (expr (issue_pattern ps)) p (w :: K ++ hyphen :: ds ++ post) no_caps accept
  = Some (S p + length K + 1 + length ds + plus_len post, reference_caps (S p) K ds post).
Proof.
  intros Hw. cbn [expr issue_pattern backtrack in_class]. rewrite Hw. cbn [negb].
  fold after_group.
  change (orelse
            (orelse
               (backtrack (OpConcat (issue_group ps) after_group) (S p)
                  (K ++ hyphen :: ds ++ post) no_caps accept)
               (if Nat.eqb p 0
                then backtrack (OpConcat (issue_group ps) after_group) p
                       (w :: K ++ hyphen :: ds ++ post) no_caps accept
                else None))
            None
          = Some (S p + length K + 1 + length ds + plus_len post,
                  reference_caps (S p) K ds post)).
  rewrite group_on_token. reflexivity.
Qed.

Lemma pattern_on_token_start :
  K <> [] ->
  backtrack (expr (issue_pattern ps)) 0 (K ++ hyphen :: ds ++ post) no_caps accept
  = Some (length K + 1 + length ds + plus_len post, reference_caps 0 K ds post).
Proof.
  intros HK.
  assert (exists x K', K = x :: K' /\ is_word x = true) as (x & K' & EK & Hx).
  { pose proof word_keys as Hw. pose proof K_known as Hin.
    rewrite Forall_forall in Hw. apply in_map_iff in Hin.
    destruct Hin as (pr & E & Hin). apply Hw in Hin. rewrite E in Hin.
    revert HK Hin. clear. intros HK Hin. destruct K as [|x K']; [congruence|].
    inversion Hin. eauto. }
  replace (backtrack (expr (issue_pattern ps)) 0 (K ++ hyphen :: ds ++ post) no_caps accept)
    with (orelse (backtrack (OpConcat (issue_group ps) after_group) 0
                    (K ++ hyphen :: ds ++ post) no_caps accept)
                 (match K ++ hyphen :: ds ++ post with [] => Some (0, no_caps) | _ :: _ => None end)).
  - rewrite group_on_token. reflexivity.
  - rewrite EK. cbn [expr issue_pattern backtrack in_class app]. rewrite Hx.
    reflexivity.
Qed.

End Token.

Lemma app_eq_split {X} (A B u : list X) w M :
  A ++ B = u ++ w :: M ->
  (exists A2, A = u ++ w :: A2 /\ M = A2 ++ B) \/
  (exists u2, u = A ++ u2 /\ B = u2 ++ w :: M).
Proof.
  revert u. induction A as [|a A IH]; intros u E; simpl in E.
  - right. exists u. auto.
  - destruct u as [|x u]; simpl in E; injection E as -> E.
    + left. exists A. auto.
    + apply IH in E. destruct E as [(A2 & -> & ->)|(u2 & -> & ->)].
      * left. exists A2. auto.
      * right. exists u2. auto.
Qed.

Lemma app_prefixes {X} (a s2 a0 s0 : list X) :
  a ++ s2 = a0 ++ s0 -> length a0 < length a ->
  exists x a2, a = a0 ++ x :: a2 /\ s0 = x :: a2 ++ s2.
Proof.
  revert a0. induction a as [|y a IH]; intros a0 E L; simpl in *; [lia|].
  destruct a0 as [|z a0]; simpl in *.
  - exists y, a. subst. auto.
  - injection E as -> E. apply IH in E; [|lia].
    destruct E as (x & a2 & -> & ->). exists x, a2. auto.
Qed.

Lemma app_same_length {X} (a s2 a0 s0 : list X) :
  a ++ s2 = a0 ++ s0 -> length a = length a0 -> a = a0 /\ s2 = s0.
Proof.
  revert a0. induction a as [|y a IH]; intros [|z a0] E L; simpl in *;
    try discriminate; auto.
  injection E as -> E. apply IH in E; [|lia]. destruct E as [-> ->]. auto.
Qed.

(** The leftmost start wins. *)
Lemma search_leftmost re s p m a0 s0 e0 c0 :
  search re p s = Some m ->
  s = a0 ++ s0 ->
  backtrack (expr re) (p + length a0) s0 (repeat None (S (numSubexp re))) accept
    = Some (e0, c0) ->
  exists a s2 e c,
    s = a ++ s2 /\ length a <= length a0 /\
    backtrack (expr re) (p + length a) s2 (repeat None (S (numSubexp re))) accept
      = Some (e, c) /\
    m = set_cap 0 (p + length a, e) c /\
    (length a = length a0 -> m = set_cap 0 (p + length a0, e0) c0).
Proof.
  intros Hs E0 Hb0. apply search_spec in Hs.
  destruct Hs as (a & s2 & e & c & E & Hb & -> & Hmin).
  exists a, s2, e, c. repeat split; auto.
  - destruct (Nat.le_gt_cases (length a) (length a0)) as [|L]; [assumption|].
    exfalso. rewrite E in E0. destruct (app_prefixes _ _ _ _ E0 L) as (x & a2 & Ea & Es0).
    rewrite (Hmin _ _ _ Ea) in Hb0 || (rewrite Es0 in Hb0; rewrite (Hmin _ _ _ Ea) in Hb0).
    discriminate.
  - intros L. rewrite E in E0. destruct (app_same_length _ _ _ _ E0 L) as [-> ->].
    congruence.
Qed.

Lemma digit_is_word x : is_digit x = true -> is_word x = true.
Proof. unfold is_word, is_digit. intros ->. reflexivity. Qed.

Section Overlap.

Variable ps : list Project.
Hypothesis word_keys : Forall (fun p => word_key (KEY p)) ps.

Lemma known_key_word K x : In K (map KEY ps) -> In x K -> is_word x = true.
Proof.
  intros HK Hx. pose proof word_keys as H. rewrite Forall_forall in H.
  apply in_map_iff in HK. destruct HK as (pr & <- & Hin).
  apply H in Hin. unfold word_key in Hin. rewrite Forall_forall in Hin. auto.
Qed.

Lemma known_key_head K : In K (map KEY ps) -> starts_without_digit K ->
  exists x K', K = x :: K' /\ is_digit x = false /\ is_word x = true.
Proof.
  intros HK Hd. destruct K as [|x K']; [contradiction|].
  exists x, K'. repeat split; auto.
  eapply known_key_word; [exact HK | left; reflexivity].
Qed.

Lemma no_overlap pre w K R b e c :
  In K (map KEY ps) ->
  starts_without_digit K ->
  free_boundary pre w ->
  b < length pre ->
  reference_at ps b (skipn b (pre ++ w :: K ++ R)) e c ->
  e <= length pre.
Proof.
  intros HK HKd [Hw Hplus] Hb Href.
  destruct (Nat.le_gt_cases e (length pre)) as [|He]; [assumption|exfalso].
  destruct Href as (lead & K' & ds' & pl & rest & Hs & Hlead & HK' & Hne & HF & Hpl & -> & _).
  rewrite skipn_app in Hs.
  replace (b - length pre) with 0 in Hs by lia. simpl skipn in Hs.
  assert (Lu : length (skipn b pre) = length pre - b) by apply length_skipn.
  set (u := skipn b pre) in *.
  assert (Hpre : pre = firstn b pre ++ u) by (symmetry; apply firstn_skipn).
  destruct (known_key_head K HK HKd) as (x & Kt & -> & Hxd & Hxw).
  symmetry in Hs. apply app_eq_split in Hs.
  destruct Hs as [(A2 & -> & _)|(u2 & Eu & Hs)].
  { destruct Hlead as [(y & E & _)|[E _]];
      apply (f_equal (@length _)) in E; rewrite length_app in E; simpl in E; lia. }
  apply app_eq_split in Hs. destruct Hs as [(A2 & -> & _)|(u3 & -> & Hs)].
  { destruct HK' as [E|HK'].
    - destruct u2; discriminate.
    - assert (is_word w = true) by (eapply known_key_word; eauto using in_elt).
      congruence. }
  destruct u3 as [|h u4]; simpl in Hs.
  { injection Hs as <- Hs. destruct ds' as [|d ds']; [congruence|].
    simpl in Hs. injection Hs as <- _. inversion HF. congruence. }
  injection Hs as <- Hs.
  apply app_eq_split in Hs. destruct Hs as [(A2 & -> & _)|(u5 & -> & Hs)].
  { rewrite Forall_forall in HF.
    assert (is_digit w = true) by (apply HF; auto using in_elt).
    apply digit_is_word in H. congruence. }
  apply app_eq_split in Hs. destruct Hs as [(A2 & Epl & _)|(u6 & -> & _)].
  - destruct Hpl as [-> | ->]; [destruct u5; discriminate|].
    destruct u5 as [|? [|? ?]]; try discriminate.
    simpl in Epl. injection Epl as <- _.
    destruct (exists_last Hne) as (ds'' & d & ->).
    rewrite Forall_forall in HF.
    assert (Hd : is_digit d = true) by (apply HF; apply in_elt).
    rewrite (Hplus eq_refl (firstn b pre ++ lead ++ K' ++ hyphen :: ds'') d) in Hd;
      [discriminate|].
    rewrite Hpre at 1. rewrite Eu. rewrite app_nil_r.
    rewrite <- ?app_assoc. simpl. rewrite <- ?app_assoc. reflexivity.
  - rewrite Eu in Lu. rewrite !length_app in Lu. simpl in Lu.
    rewrite !length_app in Lu. lia.
Qed.

End Overlap.

Lemma search_here re p s e c :
  backtrack (expr re) p s (repeat None (S (numSubexp re))) accept = Some (e, c) ->
  search re p s = Some (set_cap 0 (p, e) c).
Proof. intros H. destruct s; cbn [search]; rewrite H; reflexivity. Qed.

Section Found.

Variable ps : list Project.
Hypothesis word_keys : Forall (fun p => word_key (KEY p)) ps.

Variables K ds post : gostring.
Hypothesis K_known : In K (map KEY ps).
Hypothesis K_head : starts_without_digit K.
Hypothesis ds_digits : Forall (fun x => is_digit x = true) ds.
Hypothesis ds_nonempty : ds <> [].
Hypothesis number_ends : no_digit_ahead post.

Lemma found_from pre w :
  free_boundary pre w ->
  forall budget pos prev,
    pos <= length pre ->
    length (pre ++ w :: K ++ hyphen :: ds ++ post) < budget + pos ->
    In (reference_found K ds post 1 (S (length pre)))
       (allMatches (issue_pattern ps) (pre ++ w :: K ++ hyphen :: ds ++ post)
          budget pos prev).
Proof.
  intros Hfree. set (text := pre ++ w :: K ++ hyphen :: ds ++ post).
  assert (Ltext : length pre < length text)
    by (unfold text; rewrite length_app; simpl; lia).
  induction budget as [|budget IH]; intros pos prev Hpos Hb; [lia|].
  rewrite allMatches_step.
  destruct (Nat.leb_spec pos (length text)) as [Hle|]; [|lia].
  destruct (doExecute_pattern ps text Hle) as (m & Hm & _).
  rewrite Hm. unfold doExecute in Hm.
  assert (Es : skipn pos text = skipn pos pre ++ w :: K ++ hyphen :: ds ++ post).
  { unfold text. rewrite skipn_app. replace (pos - length pre) with 0 by lia.
    reflexivity. }
  assert (La0 : length (skipn pos pre) = length pre - pos) by apply length_skipn.
  assert (Hhere : backtrack (expr (issue_pattern ps)) (pos + length (skipn pos pre))
                    (w :: K ++ hyphen :: ds ++ post)
                    (repeat None (S (numSubexp (issue_pattern ps)))) accept
                  = Some (S (length pre) + length K + 1 + length ds + plus_len post,
                          reference_caps (S (length pre)) K ds post)).
  { rewrite La0. replace (pos + (length pre - pos)) with (length pre) by lia.
    apply pattern_on_token_after; auto. apply Hfree. }
  destruct (@search_leftmost _ _ _ _ _ _ _ _ Hm Es Hhere)
    as (a & s2 & e & c & Ea & Hlen & Hback & -> & Hsame).
  destruct (Nat.eq_dec (length a) (length (skipn pos pre))) as [Heq|Hneq].
  - rewrite (Hsame Heq). rewrite La0.
    replace (pos + (length pre - pos)) with (length pre) by lia.
    cbn [whole set_cap reference_caps].
    destruct (Nat.eqb_spec (S (length pre) + length K + 1 + length ds + plus_len post) pos);
      [lia|].
    left. unfold reference_found. cbn [set_cap reference_caps].
    replace (S (length pre) - 1) with (length pre) by lia. reflexivity.
  - destruct (skipn_split _ _ _ Hle Ea) as [Hs2 Hlen2].
    change (repeat None (S (numSubexp (issue_pattern ps)))) with no_caps in Hback.
    apply pattern_shape in Hback. destruct Hback as [(-> & _ & _)|Href].
    { simpl in Hlen2. lia. }
    rewrite <- Hs2 in Href.
    assert (He : e <= length pre).
    { eapply no_overlap; eauto. lia. }
    destruct (reference_bounds Href) as (Hlt & _ & ->).
    destruct (Nat.eqb_spec e pos); [lia|].
    right. apply IH; lia.
Qed.

(** The reference [K-ds] is found after a free boundary. *)
Lemma found_after_boundary pre w :
  free_boundary pre w ->
  In (reference_found K ds post 1 (S (length pre)))
     (FindAllStringSubmatchIndex (issue_pattern ps)
        (pre ++ w :: K ++ hyphen :: ds ++ post)).
Proof.
  intros H. unfold FindAllStringSubmatchIndex. apply found_from; auto; lia.
Qed.

(** The reference [K-ds] is found at the start of the text. *)
Lemma found_at_start :
  In (reference_found K ds post 0 0)
     (FindAllStringSubmatchIndex (issue_pattern ps) (K ++ hyphen :: ds ++ post)).
Proof.
  unfold FindAllStringSubmatchIndex. rewrite allMatches_step. simpl Nat.leb.
  unfold doExecute. simpl skipn.
  destruct (known_key_head word_keys K K_known K_head) as (x & K' & EK & _ & _).
  assert (Hs : search (issue_pattern ps) 0 (K ++ hyphen :: ds ++ post)
               = Some (reference_found K ds post 0 0)).
  { erewrite search_here; [reflexivity|].
    apply pattern_on_token_start; auto.
    rewrite EK. discriminate. }
  rewrite Hs. unfold reference_found. cbn [whole set_cap reference_caps].
  rewrite EK. simpl. left. reflexivity.
Qed.

End Found.

(** ** Traces *)

Section Hoare.

Context {RT : Runtime}.

Lemma post_bind {A B} (m : M A) (f : A -> M B) st Q :
  post m st (fun a st1 => post (f a) st1 Q) -> post (bind m f) st Q.
Proof.
  unfold post, bind. intros H b st' E.
  destruct (m st) as [[a st1]| |] eqn:Em; try discriminate. eapply H; eauto.
Qed.

Lemma post_ret {A} (a : A) st (Q : A -> State -> Prop) : Q a st -> post (ret a) st Q.
Proof. unfold post, ret. intros H b st' E. injection E as <- <-. exact H. Qed.

Lemma post_get st (Q : State -> State -> Prop) : Q st st -> post get st Q.
Proof. unfold post, get. intros H b st' E. injection E as <- <-. exact H. Qed.

Lemma post_panic {A} st (Q : A -> State -> Prop) : post panic st Q.
Proof. unfold post, panic. discriminate. Qed.

Lemma post_deref {A} (ptr : option A) st (Q : A -> State -> Prop) :
  (forall a, ptr = Some a -> Q a st) -> post (deref ptr) st Q.
Proof.
  intros H. destruct ptr; simpl; [apply post_ret; auto | apply post_panic].
Qed.

Lemma post_emit e st (Q : unit -> State -> Prop) :
  Q tt {| Pattern := Pattern st; Projects := Projects st; Client := Client st;
          jiraHostURL := jiraHostURL st; world := world st;
          trace := trace st ++ [e] |} ->
  post (emit e) st Q.
Proof. unfold post, emit. intros H b st' E. injection E as <- <-. exact H. Qed.

Lemma post_on_world {A} (f : World -> A * World) st (Q : A -> State -> Prop) :
  (forall a w, f (world st) = (a, w) ->
     Q a {| Pattern := Pattern st; Projects := Projects st; Client := Client st;
            jiraHostURL := jiraHostURL st; world := w; trace := trace st |}) ->
  post (on_world f) st Q.
Proof.
  unfold post, on_world. intros H b st' E.
  destruct (f (world st)) as [a w] eqn:Ef. injection E as <- <-. auto.
Qed.

Lemma post_weaken {A} (m : M A) st (Q Q' : A -> State -> Prop) :
  post m st Q -> (forall a st', Q a st' -> Q' a st') -> post m st Q'.
Proof. unfold post. eauto. Qed.

End Hoare.

Ltac wp :=
  repeat first
    [ apply post_bind
    | apply post_ret
    | apply post_get
    | apply post_panic
    | apply post_emit
    | apply post_on_world; intros ? ? ?
    | apply post_deref; intros ? ?
    | match goal with
      | |- post (match ?x with _ => _ end) _ _ => destruct x eqn:?
      | |- post (if ?x then _ else _) _ _ => destruct x eqn:?
      | |- post (let (_, _) := ?x in _) _ _ => destruct x eqn:?
      end ].

Section Traces.

Context {RT : Runtime}.

Lemma writes_refl st : writes st [] st.
Proof. unfold writes, same_globals. rewrite app_nil_r. auto. Qed.

Lemma consumeResponse_quiet req st :
  post (consumeResponse req) st (fun _ st' => writes st [] st').
Proof.
  unfold consumeResponse. wp; unfold writes, same_globals; simpl;
    rewrite app_nil_r; auto.
Qed.

Lemma GetIssue_trace client key st :
  post (GetIssue client key) st (fun _ st' => writes st [CalledGetIssue key] st').
Proof.
  unfold GetIssue. wp; try (unfold writes, same_globals; simpl; auto; fail).
  all: eapply post_weaken; [apply consumeResponse_quiet|].
  all: intros [[code data] err] st1 (Ht & Hp & Hj & Hc & Hu); simpl in *.
  all: wp; unfold writes, same_globals; simpl; rewrite Ht, app_nil_r; auto.
Qed.

End Traces.

(** ** The loop of [processEvents] *)

Section Processing.

Context {RT : Runtime}.

Lemma writes_trans st e1 st1 e2 st2 :
  writes st e1 st1 -> writes st1 e2 st2 -> writes st (e1 ++ e2) st2.
Proof.
  unfold writes, same_globals.
  intros (T1 & P1 & J1 & K1 & U1) (T2 & P2 & J2 & K2 & U2).
  rewrite T2, T1, app_assoc. repeat split; congruence.
Qed.

Lemma lookups_app a b : lookups (a ++ b) = lookups a ++ lookups b.
Proof. apply flat_map_app. Qed.

Lemma posts_app a b : posts (a ++ b) = posts a ++ posts b.
Proof. apply flat_map_app. Qed.

Lemma sendMessage_trace issue ch st :
  post (sendMessage issue ch) st
    (fun _ st' => exists params, writes st [CalledPostMessage ch params] st').
Proof.
  unfold sendMessage. wp. eexists. unfold writes, same_globals. simpl. auto.
Qed.

Lemma handle_match_failed ch v st iss err st2 :
  GetIssue (Client st) (reference_of v) st = Ret ((iss, Some err), st2) ->
  handle_match ch v st = Ret (tt, st2).
Proof.
  intros H. unfold handle_match, bind, get. fold (reference_of v). rewrite H.
  reflexivity.
Qed.

Lemma handle_match_resolved ch v st iss st1 :
  GetIssue (Client st) (reference_of v) st = Ret ((iss, None), st1) ->
  handle_match ch v st = bind (sendMessage iss ch) (fun _ => ret tt) st1.
Proof.
  intros H. unfold handle_match at 1, bind at 1 2, get. fold (reference_of v).
  rewrite H. reflexivity.
Qed.


Lemma for_matches_app ch a b st :
  for_matches ch (a ++ b) st = bind (for_matches ch a) (fun _ => for_matches ch b) st.
Proof.
  revert st. induction a as [|v a IH]; intros st; simpl.
  - reflexivity.
  - unfold bind. destruct (handle_match ch v st) as [[[] st1]| |]; auto.
Qed.



End Processing.

Section Resolution.

Context {RT : Runtime}.

Lemma GetIssue_fails client key st :
  lookup_fails client key st ->
  exists iss err st',
    GetIssue client key st = Ret ((iss, Some err), st') /\
    trace st' = trace st ++ [CalledGetIssue key].
Proof.
  intros (Hurl & response & w & HDo & Hwhy).
  unfold GetIssue, http_NewRequest. rewrite Hurl.
  fold (issue_request client key).
  unfold bind, emit, consumeResponse, bind, on_world. simpl.
  rewrite HDo.
  destruct Hwhy as [Hcode | (data & issue & Hcode & Hbody & Hjson & Hkey)].
  - destruct (Body response) as [data|err]; unfold ret; cbv beta iota;
      destruct (Z.eqb_spec (StatusCode response) StatusOK) as [|_]; try contradiction;
      cbv [negb]; do 3 eexists; split; reflexivity.
  - rewrite Hbody. unfold ret. cbv beta iota. rewrite Hcode, Z.eqb_refl.
    cbv [negb]. rewrite Hjson, Hkey. cbv [is_empty].
    do 3 eexists; split; reflexivity.
Qed.

Lemma handle_match_resolves ch v st st' :
  handle_match ch v st = Ret (tt, st') ->
  exists o, resolves ch v st o st' /\
    exists evs, trace st' = trace st ++ CalledGetIssue (reference_of v) :: evs /\
      lookups evs = [] /\
      length (posts evs) = sent [o].
Proof.
  intros H. unfold handle_match, bind, get in H. fold (reference_of v) in H.
  destruct (GetIssue (Client st) (reference_of v) st) as [[[iss [err|]] st1]| |] eqn:EG;
    try discriminate.
  - unfold ret in H. injection H as <-.
    exists None. split; [eapply resolves_not; eauto|].
    destruct (@GetIssue_trace _ _ _ _ _ _ EG) as [Ht _]. exists []. auto.
  - destruct (sendMessage iss ch st1) as [[e st2]| |] eqn:ES; try discriminate.
    unfold ret in H. injection H as <-.
    exists (Some iss). split; [eapply resolves_sent; eauto|].
    destruct (@GetIssue_trace _ _ _ _ _ _ EG) as [Ht _].
    destruct (@sendMessage_trace _ _ _ _ _ _ ES) as (params & Ht2 & _).
    exists [CalledPostMessage ch params]. rewrite Ht2, Ht, <- app_assoc. auto.
Qed.

Lemma for_matches_resolves ch ms : forall st st',
  for_matches ch ms st = Ret (tt, st') ->
  exists outs, resolves_all ch ms st outs st' /\
    exists evs, trace st' = trace st ++ evs /\
      lookups evs = map reference_of ms /\
      length (posts evs) = sent outs.
Proof.
  induction ms as [|v ms IH]; intros st st' H; simpl in H.
  - unfold ret in H. injection H as <-. exists []. split; [constructor|].
    exists []. rewrite app_nil_r. auto.
  - unfold bind in H.
    destruct (handle_match ch v st) as [[[] st1]| |] eqn:EH; try discriminate.
    apply handle_match_resolves in EH.
    destruct EH as (o & Ho & e1 & Ht1 & Hl1 & Hp1).
    apply IH in H. destruct H as (outs & Houts & e2 & Ht2 & Hl2 & Hp2).
    exists (o :: outs). split; [econstructor; eauto|].
    exists ((CalledGetIssue (reference_of v) :: e1) ++ e2).
    rewrite Ht2, Ht1, <- app_assoc. split; [reflexivity|].
    rewrite lookups_app, posts_app, length_app. simpl lookups. simpl posts.
    rewrite Hl1, Hl2, Hp1, Hp2. split; [reflexivity|].
    unfold sent. simpl. destruct o; simpl; lia.
Qed.

End Resolution.

(** ** Extent and order of the matches *)

Lemma firstn_exact {X} (a b : list X) : firstn (length a) (a ++ b) = a.
Proof. induction a; simpl; congruence. Qed.

Lemma skipn_exact {X} (a b : list X) : skipn (length a) (a ++ b) = b.
Proof. induction a; simpl; congruence. Qed.

Lemma substr_at text b pre w post s e :
  skipn b text = pre ++ w ++ post ->
  s = b + length pre -> e = s + length w ->
  substr text (Some (s, e)) = w.
Proof.
  intros H -> ->. unfold substr.
  replace (b + length pre + length w - (b + length pre)) with (length w) by lia.
  rewrite (Nat.add_comm b), <- skipn_skipn, H, skipn_exact. apply firstn_exact.
Qed.

Lemma within_weaken text pos pos' m : pos <= pos' -> within text pos' m -> within text pos m.
Proof. unfold within. intros H (A & B & C). repeat split; auto. lia. Qed.

Lemma allMatches_sorted ps text : forall budget pos prev,
  Forall (within text pos) (allMatches (issue_pattern ps) text budget pos prev) /\
  ForallOrdPairs precedes (allMatches (issue_pattern ps) text budget pos prev).
Proof.
  induction budget as [|budget IH]; intros pos prev.
  - simpl. split; constructor.
  - rewrite allMatches_step. destruct (Nat.leb pos (length text)) eqn:Hle;
      [|split; constructor].
    apply Nat.leb_le in Hle.
    destruct (doExecute_pattern ps text Hle) as (m & -> & Hm).
    destruct Hm as [-> | (b & e & c & Hpb & Hb & Hr & ->)].
    + change (whole (empty_match (length text))) with (length text, length text).
      cbv beta iota.
      destruct (Nat.eqb (length text) pos) eqn:He.
      * apply Nat.eqb_eq in He. subst pos. rewrite Nat.ltb_irrefl.
        rewrite allMatches_past by lia. rewrite app_nil_r.
        destruct (match prev with Some q => negb (Nat.eqb (length text) q) | None => true end).
        -- split; [|repeat constructor]. constructor; [|constructor].
           unfold within, empty_match. simpl. lia.
        -- split; constructor.
      * destruct (IH (length text) (Some (length text))) as [Hw Hs]. split.
        -- constructor; [unfold within, empty_match; simpl; lia|].
           eapply Forall_impl; [|exact Hw]. intros m. apply within_weaken. exact Hle.
        -- constructor; [|exact Hs].
           eapply Forall_impl; [|exact Hw]. intros m (A & _). unfold precedes.
           unfold empty_match. simpl. exact A.
    + destruct (reference_bounds Hr) as (Hlt & Hend & ->).
      rewrite length_skipn in Hend.
      destruct (Nat.eqb e pos) eqn:He; [apply Nat.eqb_eq in He; lia|].
      destruct (IH e (Some e)) as [Hw Hs]. split.
      * constructor.
        -- unfold within. destruct (reference_bounds Hr) as (_ & _ & ->). simpl. lia.
        -- eapply Forall_impl; [|exact Hw]. intros m. apply within_weaken. lia.
      * constructor; [|exact Hs].
        eapply Forall_impl; [|exact Hw]. intros m (A & _). unfold precedes.
        destruct (reference_bounds Hr) as (_ & _ & ->). simpl. exact A.
Qed.

Lemma ordered_split {X} (R : X -> X -> Prop) l : ForallOrdPairs R l ->
  forall front m1 mid m2 back, l = front ++ m1 :: mid ++ m2 :: back -> R m1 m2.
Proof.
  induction 1 as [|a l Ha Hs IH]; intros front m1 mid m2 back E.
  - destruct front; discriminate E.
  - destruct front as [|x front]; simpl in E; injection E as -> ->.
    + rewrite Forall_forall in Ha. apply Ha. apply in_or_app. right. left. reflexivity.
    + eapply IH. reflexivity.
Qed.

Lemma digits_none k t c p :
  no_digit_ahead t ->
  backtrack (OpPlus (OpCharClass ClassDigit)) p t c k = None.
Proof. intros Ht. cbn [backtrack]. apply again_no_digit; auto. Qed.

Lemma group_run ps q t c k :
  backtrack (OpConcat (issue_group ps) after_group) q t c k
  = backtrack (key_alternation ps) q t c
      (fun p1 s1 c1 =>
         backtrack (OpConcat (OpLiteral hyphen) (OpPlus (OpCharClass ClassDigit)))
           p1 s1 (set_cap 2 (q, p1) c1)
           (fun p2 s2 c2 => backtrack after_group p2 s2 (set_cap 1 (q, p2) c2) k)).
Proof. reflexivity. Qed.

(** ** The claims *)

Section Startup.
Context {RT : Runtime}.

Lemma buildPattern_compiles (st : State) :
  Forall (fun p => word_key (KEY p)) (Projects st) ->
  buildPattern st =
  Ret (tt, {| Pattern := Some (issue_pattern (Projects st)); Projects := Projects st;
              Client := Client st; jiraHostURL := jiraHostURL st;
              world := world st; trace := trace st |}).
Proof.
  intros H. unfold buildPattern, bind, get.
  rewrite (ParserFacts.Compile_pattern_text H). reflexivity.
Qed.

Lemma buildPattern_plain (st : State) :
  Forall (fun p => plain_key (KEY p)) (Projects st) ->
  buildPattern st =
  Ret (tt, {| Pattern := Some (issue_pattern (Projects st)); Projects := Projects st;
              Client := Client st; jiraHostURL := jiraHostURL st;
              world := world st; trace := trace st |}).
Proof.
  intros H. unfold buildPattern, bind, get.
  rewrite (PlainKeys.Compile_plain_keys H). reflexivity.
Qed.

End Startup.

Example started_up :
  exists st, @started_in jira_up tt = Some st /\
             Pattern st = Some (issue_pattern [PROJ]) /\ Projects st = [PROJ].
Proof. eexists. repeat split. Qed.

(** C1: the claim is that with no project key the pattern matches no
    reference and [processEvents] resolves nothing.  With an empty
    listing [buildPattern] compiles [(?:\W|^)(()-\d+)(\+)?|$], which
    still matches a hyphen and digits after a boundary, and the end of
    every text: in "see -12 ok" [processEvents] resolves "-12" and then
    the empty key, and in the empty text it has one match. *)
Theorem empty_project_list_still_matches :
  exists st re,
    @started_in jira_empty tt = Some st /\
    Projects st = [] /\ Pattern st = Some re /\
    FindAllStringSubmatch re (runes "see -12 ok")
      = [[runes " -12"; runes "-12"; []; []]; [[]; []; []; []]] /\
    FindAllStringSubmatch re [] = [[[]; []; []; []]] /\
    exists wg' st',
      processEvents (runes "see -12 ok") general {| counter := 1 |} st
        = Ret (wg', st') /\
      lookups (trace st') = [runes "-12"; []].
Proof.
  eexists. eexists. split; [reflexivity|]. split; [reflexivity|].
  split; [reflexivity|]. split; [reflexivity|]. split; [reflexivity|].
  eexists. eexists. split; reflexivity.
Qed.

(** C2: the claim is that a failed project listing stops the startup.
    Here the listing answers 500: [GetProjects] returns its error,
    [main] drops it, [buildPattern] compiles the pattern of no key, the
    loop is entered, and a message is taken and processed.  (When the
    connection is refused the startup does end, in the panic of
    [consumeResponse].) *)
Theorem listing_failure_is_not_fatal :
  startup config (@initial jira_listing_refused tt) = Panic /\
  exists st0 st p,
    bind (configure config) (fun _ => bind get (fun s => GetProjects (Client s)))
         (@initial jira_listing_500 tt)
      = Ret (Some (StatusCodeError 500), st0) /\
    @started_in jira_listing_500 tt = Some st /\
    Projects st = [] /\ Pattern st = Some (issue_pattern []) /\
    steps (serving st [a_message]) p /\
    phase p = Looping /\ length (finished p) = 1 /\
    lookups (trace (globals p)) = [[]].
Proof.
  split; [reflexivity|].
  eexists. eexists. eexists.
  split; [lazy; reflexivity|]. split; [reflexivity|].
  split; [reflexivity|]. split; [reflexivity|].
  split.
  - eapply steps_step.
    + eapply steps_step; [apply steps_refl|].
      eapply step_message; reflexivity.
    + eapply step_goroutine with (before := []); simpl; auto; reflexivity.
  - repeat split.
Qed.

Section Panics.
Context {RT : Runtime}.

(** A round trip that fails without a response makes [GetIssue] panic. *)
Lemma GetIssue_panics_without_response client key st err w :
  url_error (baseURL client ++ issueURL ++ key) = None ->
  httpClient_Do (issue_request client key) (world st) = (DoError None err, w) ->
  GetIssue client key st = Panic.
Proof.
  intros Hurl HDo. unfold GetIssue, http_NewRequest. rewrite Hurl.
  fold (issue_request client key).
  unfold bind, emit, consumeResponse, bind, on_world. simpl.
  rewrite HDo. reflexivity.
Qed.

(** A round trip that the redirect policy stopped has a response, and
    its error is returned. *)
Lemma GetIssue_returns_policy_error client key st response err w :
  url_error (baseURL client ++ issueURL ++ key) = None ->
  httpClient_Do (issue_request client key) (world st)
    = (DoError (Some response) err, w) ->
  exists st', GetIssue client key st = Ret ((zero_Issue, Some err), st').
Proof.
  intros Hurl HDo. unfold GetIssue, http_NewRequest. rewrite Hurl.
  fold (issue_request client key).
  unfold bind, emit, consumeResponse, bind, on_world. simpl.
  rewrite HDo. eexists. reflexivity.
Qed.

(** A payload with its fields comes back with an assignee: its own, or
    the sentinel. *)
Lemma GetIssue_normalizes client key st response w data issue fields :
  url_error (baseURL client ++ issueURL ++ key) = None ->
  httpClient_Do (issue_request client key) (world st) = (DoResponse response, w) ->
  StatusCode response = StatusOK ->
  Body response = inl data ->
  json_Unmarshal_Issue data zero_Issue = (issue, None) ->
  Key issue <> [] ->
  Fields issue = Some fields ->
  exists fields' st',
    GetIssue client key st
      = Ret (({| Key := Key issue; Fields := Some fields' |}, None), st') /\
    Assignee_ fields' =
      Some (match Assignee_ fields with
            | Some a => a
            | None => {| DisplayName := runes "Unassigned" |}
            end) /\
    Summary fields' = Summary fields /\ Priority_ fields' = Priority_ fields /\
    Status_ fields' = Status_ fields.
Proof.
  intros Hurl HDo Hcode Hbody Hjson Hkey Hfields.
  unfold GetIssue, http_NewRequest. rewrite Hurl.
  fold (issue_request client key).
  unfold bind, emit, consumeResponse, bind, on_world. simpl.
  rewrite HDo, Hbody. unfold ret. cbv beta iota. rewrite Hcode, Z.eqb_refl.
  cbv [negb]. rewrite Hjson.
  destruct (Key issue) as [|x k] eqn:EK; [congruence|]. cbv [is_empty].
  rewrite Hfields. cbv [deref ret].
  destruct issue as [k0 f0]. simpl in *. subst.
  destruct (Assignee_ fields) as [a|] eqn:EA.
  - exists fields. eexists. split; [reflexivity|]. auto.
  - eexists. eexists. split; [reflexivity|]. simpl. auto.
Qed.

End Panics.

(** The two payloads of the specification: without an assignee and
    with one. *)
Example unassigned_is_normalized :
  exists st1,
    GetIssue (Client (@state_in jira_unassigned tt)) (runes "PROJ-1")
             (@state_in jira_unassigned tt)
    = Ret (({| Key := runes "PROJ-1";
               Fields := Some (fields_of (Some {| DisplayName := runes "Unassigned" |})
                                         (Some high)) |}, None), st1).
Proof. eexists. lazy. reflexivity. Qed.

Example assignee_is_kept :
  exists st1,
    GetIssue (Client up_state) (runes "PROJ-1") up_state
    = Ret ((issue_assigned, None), st1).
Proof. eexists. lazy. reflexivity. Qed.

Example colors :
  getColor (runes "Done") = green /\ getColor (runes "Open") = blue /\
  getColor (runes "Backlog") = yellow.
Proof. repeat split. Qed.

Example two_references :
  map reference_of
      (FindAllStringSubmatch (issue_pattern [PROJ]) (runes "see PROJ-42 and PROJ-43+"))
  = [runes "PROJ-42"; runes "PROJ-43"].
Proof. reflexivity. Qed.

(** C3: the claim is that a failed round trip comes back from
    [GetIssue] as an error.  Here the connection is refused: [Do]
    returns no response, [consumeResponse] reads the status of that nil
    response, and [GetIssue], [processEvents] and the process panic. *)
Theorem transport_error_crashes :
  exists st p,
    @started_in jira_refusing tt = Some st /\
    httpClient_Do (issue_request (Client st) (runes "PROJ-1")) (world st)
      = (refused, tt) /\
    GetIssue (Client st) (runes "PROJ-1") st = Panic /\
    processEvents (runes "see PROJ-1") general {| counter := 1 |} st = Panic /\
    steps (serving st [MessageEvent [] (runes "see PROJ-1") general]) p /\
    phase p = Crashed.
Proof.
  eexists. eexists.
  split; [reflexivity|]. split; [reflexivity|].
  split; [reflexivity|]. split; [reflexivity|].
  split.
  - eapply steps_step.
    + eapply steps_step; [apply steps_refl|].
      eapply step_message; reflexivity.
    + eapply step_panic with (before := []); simpl; auto; reflexivity.
  - reflexivity.
Qed.

(** C7: the claim is that every payload with status 200, a key and no
    assignee comes back with the assignee "Unassigned".  The payload
    [{"key":"PROJ-1"}] is one, and [GetIssue] panics on it: it reads
    the assignee through the nil [Fields].  ([GetIssue_normalizes]
    is the claim for the payloads that have their fields.) *)
Theorem payload_without_fields_panics :
  exists st,
    @started_in jira_no_fields tt = Some st /\
    httpClient_Do (issue_request (Client st) (runes "PROJ-1")) (world st)
      = (answers 200 body_no_fields, tt) /\
    @json_Unmarshal_Issue jira_no_fields body_no_fields zero_Issue
      = (issue_no_fields, None) /\
    Key issue_no_fields = runes "PROJ-1" /\
    GetIssue (Client st) (runes "PROJ-1") st = Panic.
Proof.
  eexists. split; [reflexivity|]. repeat split.
Qed.

(** C10: the claim is that an issue that [GetIssue] returns without an
    error has its [Fields], [Assignee], [Priority] and [Status], so
    that [sendMessage] reads no nil pointer.  A payload with status
    200 and no priority comes back without an error and with a nil
    [Priority], and [sendMessage] and [processEvents] panic on it. *)
Theorem payload_without_priority_panics :
  exists st iss st1 fields,
    @started_in jira_no_priority tt = Some st /\
    httpClient_Do (issue_request (Client st) (runes "PROJ-1")) (world st)
      = (answers 200 body_no_priority, tt) /\
    GetIssue (Client st) (runes "PROJ-1") st = Ret ((iss, None), st1) /\
    Fields iss = Some fields /\ Priority_ fields = None /\
    sendMessage iss general st1 = Panic /\
    processEvents (runes "PROJ-1") general {| counter := 1 |} st = Panic.
Proof.
  eexists. eexists. eexists. eexists.
  split; [reflexivity|]. split; [reflexivity|].
  split; [lazy; reflexivity|]. split; [reflexivity|].
  split; [reflexivity|]. split; reflexivity.
Qed.

Section WaitGroups.
Context {RT : Runtime}.

Lemma wg_Add_counter delta w w' :
  wg_Add delta w = Some w' -> counter w' = (counter w + delta)%Z.
Proof.
  unfold wg_Add. destruct (counter w + delta <? 0)%Z; [discriminate|].
  intros H. injection H as <-. reflexivity.
Qed.

Lemma step_counts events p q : counts events p -> step p q -> counts events q.
Proof.
  unfold counts. intros Hc Hs.
  destruct Hs as [p sub text channel rest wg' Hph Hin Hbot Hadd
                 |p sub text channel rest Hph Hin Hbot
                 |p rest Hph Hin
                 |p rest Hph Hin
                 |p before g after copy st' Hph Hst Hrun
                 |p before g after Hph Hst Hrun
                 |p Hph H0]; simpl; rewrite ?Hph in Hc; rewrite ?Hph; rewrite ?Hin in *; simpl in *.
  - rewrite Hbot in Hc. apply wg_Add_counter in Hadd. lia.
  - rewrite Hbot in Hc. exact Hc.
  - lia.
  - exact Hc.
  - destruct Hph as [Hph|Hph]; rewrite Hph in *; exact Hc.
  - exact I.
  - auto.
Qed.

Lemma steps_counts st events p :
  steps (serving st events) p -> counts events p.
Proof.
  intros H. remember (serving st events) as p0 eqn:E.
  induction H as [p|p q r Hpq IH Hqr].
  - subst. unfold counts. simpl. lia.
  - eapply step_counts; eauto.
Qed.

(** [wg.Wait] returns only if no [processEvents] was started. *)
Lemma exits_only_when_idle st events p :
  steps (serving st events) p -> phase p = Exited -> dispatched events = 0.
Proof.
  intros H He. apply steps_counts in H. unfold counts in H. rewrite He in H. lia.
Qed.

End WaitGroups.

(** C4: the claim is that after the authentication failure [main]
    waits for the [processEvents] in flight and then exits.  After one
    message and the failure there is a run in which the goroutine has
    finished, its copy of the wait group is at 0, [main]'s own is at 1
    and no step is left; and no run exits. *)
Theorem wait_blocks_after_a_message :
  (exists p,
     steps (serving up_state message_then_auth_failure) p /\
     phase p = Waiting /\ incoming p = [] /\
     running p = [] /\ finished p = [{| counter := 0 |}] /\
     counter (wg p) = 1%Z /\
     forall q, ~ step p q) /\
  (forall p, steps (serving up_state message_then_auth_failure) p -> phase p <> Exited).
Proof.
  split.
  - eexists. split.
    + eapply steps_step.
      * eapply steps_step.
        -- eapply steps_step; [apply steps_refl|].
           eapply step_message; reflexivity.
        -- eapply step_invalid_auth; reflexivity.
      * eapply step_goroutine with (before := []); simpl; auto; reflexivity.
    + repeat split.
      intros q Hq. inversion Hq; simpl in *; try discriminate.
      * destruct before; discriminate.
      * destruct before; discriminate.
  - intros p Hp He. apply exits_only_when_idle in Hp; [discriminate | exact He].
Qed.

Section Isolation.
Context {RT : Runtime}.

Lemma processEvents_unfold text ch w st re :
  Pattern st = Some re ->
  processEvents text ch w st =
  bind (for_matches ch (FindAllStringSubmatch re text))
       (fun _ => match wg_Done w with Some w' => ret w' | None => panic end) st.
Proof. intros H. unfold processEvents, bind at 1 2, get. rewrite H. reflexivity. Qed.

Lemma consumeResponse_modelled req st : consumeResponse req st <> Unmodelled.
Proof.
  unfold consumeResponse, bind, on_world.
  destruct (httpClient_Do req (world st)) as [[r|[r|] err] w]; simpl;
    try destruct (Body r); discriminate.
Qed.

Lemma GetIssue_modelled client key st : GetIssue client key st <> Unmodelled.
Proof.
  unfold GetIssue, http_NewRequest.
  destruct (url_error (baseURL client ++ issueURL ++ key)); unfold bind at 1, emit;
    [discriminate|].
  unfold bind at 1.
  match goal with |- context [consumeResponse ?r ?s] =>
    pose proof (@consumeResponse_modelled r s) as HC;
    destruct (consumeResponse r s) as [[[[rc buffer] [err|]] st1]| |]
  end; try discriminate; [|congruence].
  destruct (negb (rc =? StatusOK)%Z); [discriminate|].
  destruct (json_Unmarshal_Issue buffer zero_Issue) as [issue [err|]]; [discriminate|].
  destruct (is_empty (Key issue)); [discriminate|].
  unfold bind. destruct (Fields issue) as [f|]; simpl; [|discriminate].
  destruct (Assignee_ f); discriminate.
Qed.

Lemma sendMessage_modelled issue ch st : sendMessage issue ch st <> Unmodelled.
Proof.
  unfold sendMessage, bind.
  destruct (Fields issue) as [f|]; simpl; [|discriminate].
  destruct (Assignee_ f); simpl; [|discriminate].
  destruct (Priority_ f); simpl; [|discriminate].
  destruct (Status_ f); simpl; [|discriminate].
  unfold on_world. simpl.
  match goal with |- context [Slack_PostMessage ?a ?b ?c ?d] =>
    destruct (Slack_PostMessage a b c d) end.
  discriminate.
Qed.

Lemma handle_match_modelled ch v st : handle_match ch v st <> Unmodelled.
Proof.
  unfold handle_match, bind, get.
  pose proof (@GetIssue_modelled (Client st) (TrimSpace (nth 1 v [])) st) as HG.
  destruct (GetIssue (Client st) (TrimSpace (nth 1 v [])) st) as [[[iss [err|]] st1]| |];
    try discriminate; [|congruence].
  pose proof (@sendMessage_modelled iss ch st1) as HS.
  destruct (sendMessage iss ch st1) as [[e st2]| |]; try discriminate. congruence.
Qed.

(** The loop returns, or one of its turns panics after the turns
    before it have returned. *)
Lemma for_matches_outcome ch ms : forall st,
  (exists st', for_matches ch ms st = Ret (tt, st')) \/
  (for_matches ch ms st = Panic /\
   exists done v rest st1,
     ms = done ++ v :: rest /\
     for_matches ch done st = Ret (tt, st1) /\
     handle_match ch v st1 = Panic).
Proof.
  induction ms as [|v ms IH]; intros st.
  - left. exists st. reflexivity.
  - simpl. unfold bind.
    pose proof (@handle_match_modelled ch v st) as HM.
    destruct (handle_match ch v st) as [[[] st1]| |] eqn:EH; [| |congruence].
    + destruct (IH st1) as [(st' & E) | (E & done & v' & rest & st2 & -> & Hd & Hp)].
      * left. exists st'. exact E.
      * right. split; [exact E|].
        exists (v :: done), v', rest, st2. split; [reflexivity|]. split; [|exact Hp].
        simpl. unfold bind. rewrite EH. exact Hd.
    + right. split; [reflexivity|].
      exists [], v, ms, st. auto.
Qed.

(** A panic in a turn is the outcome of the loop and of [processEvents]. *)
Lemma panic_ends_the_loop ch done v rest st st1 :
  for_matches ch done st = Ret (tt, st1) ->
  handle_match ch v st1 = Panic ->
  for_matches ch (done ++ v :: rest) st = Panic.
Proof.
  intros Hd Hp. rewrite for_matches_app. unfold bind. rewrite Hd. simpl.
  unfold bind. rewrite Hp. reflexivity.
Qed.

(** In a message whose matches are [before ++ v :: after], if the
    loop of [processEvents] reaches [v] and the tracker answers the
    lookup of [v] with a status other than 200 or with an empty key,
    then that turn of the loop writes the lookup and no post, and the
    loop, and [processEvents] with it, goes on with [after]: a run that
    returns has looked up every reference of [after]. *)
Lemma failed_turn_goes_on text ch w st re before v after st1 :
  Pattern st = Some re ->
  FindAllStringSubmatch re text = before ++ v :: after ->
  for_matches ch before st = Ret (tt, st1) ->
  lookup_fails (Client st1) (reference_of v) st1 ->
  exists st2,
    handle_match ch v st1 = Ret (tt, st2) /\
    trace st2 = trace st1 ++ [CalledGetIssue (reference_of v)] /\
    posts (trace st2) = posts (trace st1) /\
    for_matches ch (before ++ v :: after) st = for_matches ch after st2 /\
    processEvents text ch w st =
      bind (for_matches ch after)
           (fun _ => match wg_Done w with Some w' => ret w' | None => panic end) st2 /\
    (forall w' st', processEvents text ch w st = Ret (w', st') ->
       lookups (trace st') = lookups (trace st2) ++ map reference_of after).
Proof.
  intros HP Hms Hbefore Hfail.
  destruct (GetIssue_fails Hfail) as (iss & err & st2 & HG & Ht).
  exists st2.
  assert (Hh : handle_match ch v st1 = Ret (tt, st2))
    by (eapply handle_match_failed; eauto).
  assert (Hloop : for_matches ch (before ++ v :: after) st = for_matches ch after st2).
  { rewrite for_matches_app. unfold bind at 1. rewrite Hbefore.
    simpl. unfold bind. rewrite Hh. reflexivity. }
  assert (Hrest : processEvents text ch w st =
                  bind (for_matches ch after)
                    (fun _ => match wg_Done w with Some w' => ret w' | None => panic end)
                    st2).
  { rewrite (@processEvents_unfold text ch w st re HP), Hms.
    unfold bind. rewrite Hloop. reflexivity. }
  repeat split; auto.
  - rewrite Ht, posts_app. simpl. apply app_nil_r.
  - intros w' st' Hrun. rewrite Hrest in Hrun. unfold bind in Hrun.
    destruct (for_matches ch after st2) as [[[] st3]| |] eqn:E; try discriminate.
    destruct (wg_Done w); [|discriminate]. unfold ret in Hrun. injection Hrun as _ <-.
    apply for_matches_resolves in E. destruct E as (outs & _ & evs & Hte & Hl & _).
    rewrite Hte, lookups_app, Hl. reflexivity.
Qed.

(** An account of a run of [processEvents]: the outcome of the
    resolution of each match, and what the run wrote. *)
Lemma processEvents_resolves text ch w st re w' st' :
  Pattern st = Some re ->
  processEvents text ch w st = Ret (w', st') ->
  exists outs evs,
    resolves_all ch (FindAllStringSubmatch re text) st outs st' /\
    trace st' = trace st ++ evs /\
    lookups evs = map reference_of (FindAllStringSubmatch re text) /\
    length (posts evs) = sent outs.
Proof.
  intros HP H. rewrite (@processEvents_unfold text ch w st re HP) in H.
  unfold bind in H.
  destruct (for_matches ch (FindAllStringSubmatch re text) st) as [[[] st1]| |] eqn:E;
    try discriminate.
  destruct (wg_Done w); [|discriminate]. unfold ret in H. injection H as _ <-.
  apply for_matches_resolves in E. destruct E as (outs & Hr & evs & Ht & Hl & Hp).
  exists outs, evs. auto.
Qed.

(** C6, as amended: duplicate mentions are not deduplicated.
    [processEvents] takes the matches in order, repeats included: the
    matches [done] that it gets through are each resolved once, and
    posted once if the resolution succeeded and not otherwise ([outs]
    holds the outcomes).  [done] is all the matches, and the run ends
    with the deferred [Done], unless the turn of a match [v] panics;
    then [done] is the matches before [v], and the run panics. *)
Theorem no_deduplication text ch w st re :
  Pattern st = Some re ->
  exists done outs st1 evs,
    resolves_all ch done st outs st1 /\
    trace st1 = trace st ++ evs /\
    lookups evs = map reference_of done /\
    length (posts evs) = sent outs /\
    ((done = FindAllStringSubmatch re text /\
      processEvents text ch w st
      = match wg_Done w with Some w' => Ret (w', st1) | None => Panic end) \/
     (exists v rest,
        FindAllStringSubmatch re text = done ++ v :: rest /\
        handle_match ch v st1 = Panic /\
        processEvents text ch w st = Panic)).
Proof.
  intros HP. rewrite (@processEvents_unfold text ch w st re HP).
  destruct (for_matches_outcome ch (FindAllStringSubmatch re text) st)
    as [(st' & E) | (E & done & v & rest & st1 & Ems & Hd & Hp)].
  - destruct (for_matches_resolves _ _ _ E) as (outs & Hr & evs & Ht & Hl & Hn).
    exists (FindAllStringSubmatch re text), outs, st', evs.
    do 4 (split; [assumption|]). left. split; [reflexivity|].
    unfold bind. rewrite E. destruct (wg_Done w); reflexivity.
  - destruct (for_matches_resolves _ _ _ Hd) as (outs & Hr & evs & Ht & Hl & Hn).
    exists done, outs, st1, evs.
    do 4 (split; [assumption|]). right. exists v, rest.
    split; [exact Ems|]. split; [exact Hp|].
    unfold bind. rewrite E. reflexivity.
Qed.

End Isolation.

(** C8: the claim is that after a reference whose resolution fails the
    remaining references of the message are still resolved and
    dispatched.  In "PROJ-7 PROJ-1 PROJ-2", against a tracker that
    does not know PROJ-7 and answers PROJ-1 without a priority, the
    turn of PROJ-7 writes its lookup and no post and the loop goes on;
    the turn of PROJ-1 panics in [sendMessage], and with it the loop,
    [processEvents] and the process: PROJ-2 is not looked up.  Against
    Jira as it should be the same message gives the three lookups and
    the card of PROJ-1. *)
Theorem later_panic_breaks_isolation :
  exists st st1 iss st2 p,
    @started_in jira_no_priority tt = Some st /\
    Pattern st = Some (issue_pattern [PROJ]) /\
    FindAllStringSubmatch (issue_pattern [PROJ]) (runes "PROJ-7 PROJ-1 PROJ-2")
      = [match_7; match_then_1; match_then_2] /\
    map reference_of [match_7; match_then_1; match_then_2]
      = [runes "PROJ-7"; runes "PROJ-1"; runes "PROJ-2"] /\
    lookup_fails (Client st) (runes "PROJ-7") st /\
    handle_match general match_7 st = Ret (tt, st1) /\
    trace st1 = trace st ++ [CalledGetIssue (runes "PROJ-7")] /\
    GetIssue (Client st1) (runes "PROJ-1") st1 = Ret ((iss, None), st2) /\
    sendMessage iss general st2 = Panic /\
    handle_match general match_then_1 st1 = Panic /\
    for_matches general [match_7; match_then_1] st = Panic /\
    for_matches general [match_7; match_then_1; match_then_2] st = Panic /\
    processEvents (runes "PROJ-7 PROJ-1 PROJ-2") general one st = Panic /\
    steps (serving st [MessageEvent [] (runes "PROJ-7 PROJ-1 PROJ-2") general]) p /\
    phase p = Crashed /\
    lookups (trace (state_after (runes "PROJ-7 PROJ-1 PROJ-2") general one up_state))
      = [runes "PROJ-7"; runes "PROJ-1"; runes "PROJ-2"] /\
    map (fun m => map Title (Attachments (snd m)))
        (posts (trace (state_after (runes "PROJ-7 PROJ-1 PROJ-2") general one up_state)))
      = [[runes "PROJ-1"]].
Proof.
  eexists. eexists. eexists. eexists. eexists.
  split; [reflexivity|]. split; [reflexivity|]. split; [reflexivity|].
  split; [reflexivity|]. split.
  { split; [reflexivity|]. exists {| StatusCode := 404; Body := inl [] |}, tt.
    split; [reflexivity|]. left. discriminate. }
  split; [lazy; reflexivity|]. split; [reflexivity|].
  split; [lazy; reflexivity|]. split; [reflexivity|].
  split; [reflexivity|]. split; [reflexivity|]. split; [reflexivity|].
  split; [reflexivity|]. split.
  { eapply steps_step.
    - eapply steps_step; [apply steps_refl|].
      eapply step_message; reflexivity.
    - eapply step_panic with (before := []); simpl; auto; reflexivity. }
  split; [reflexivity|]. split; reflexivity.
Qed.

(** ** The matches of a text, as a whole *)

Lemma FindAll_structure ps text :
  ends_with_one ps text (FindAllStringSubmatchIndex (issue_pattern ps) text).
Proof.
  unfold FindAllStringSubmatchIndex.
  destruct (@allMatches_structure ps text (S (length text)) 0 None) as [(_ & E & _)|(_ & H)];
    [lia | lia | discriminate | exact H].
Qed.

Lemma reference_match_whole ps text m :
  reference_match ps text m ->
  fst (whole m) < snd (whole m) /\ snd (whole m) <= length text /\
  exists c1, nth 1 m None = Some c1 /\
    (fst c1 = 0 \/ exists x, nth_error text (fst c1 - 1) = Some x /\ is_word x = false).
Proof.
  intros (b & e & c & Hb & Href & ->).
  destruct (reference_bounds Href) as (Hlt & Hle & Hw). rewrite Hw. simpl.
  rewrite length_skipn in Hle. split; [lia|]. split; [lia|].
  destruct Href as (lead & K & ds & pl & rest & Hs & Hlead & _ & _ & _ & _ & _ & ->).
  simpl. eexists. split; [reflexivity|]. simpl.
  destruct Hlead as [(x & -> & Hx)|[-> ->]]; [right | left; reflexivity].
  exists x. split; [|exact Hx].
  replace (b + length [x] - 1) with b by (simpl; lia).
  rewrite <- (firstn_skipn b text) at 1. rewrite Hs.
  rewrite nth_error_app2; rewrite length_firstn, Nat.min_l by lia; [|lia].
  rewrite Nat.sub_diag. reflexivity.
Qed.

Lemma all_matches ps text m :
  In m (FindAllStringSubmatchIndex (issue_pattern ps) text) ->
  m = empty_match (length text) \/ reference_match ps text m.
Proof.
  intros H. destruct (FindAll_structure ps text) as (front & lastm & E & HF & Hl).
  rewrite E in H. apply in_app_or in H. destruct H as [H|[<-|[]]].
  - rewrite Forall_forall in HF. right. apply HF. exact H.
  - destruct Hl as [->|[Hr _]]; auto.
Qed.

(** The empty match comes last, and exactly when no reference ends the
    text. *)
Lemma empty_match_last ps text :
  let idx := FindAllStringSubmatchIndex (issue_pattern ps) text in
  idx <> [] /\
  (In (empty_match (length text)) idx <->
   ~ exists m, In m idx /\ fst (whole m) < snd (whole m) /\ snd (whole m) = length text) /\
  (In (empty_match (length text)) idx ->
   exists front, idx = front ++ [empty_match (length text)]).
Proof.
  intros idx. destruct (FindAll_structure ps text) as (front & lastm & E & HF & Hl).
  fold idx in E. rewrite Forall_forall in HF.
  assert (Hfront : forall m, In m front -> m <> empty_match (length text)).
  { intros m Hm ->. apply HF in Hm. simpl in Hm. lia. }
  split; [rewrite E; destruct front; discriminate|].
  assert (Hlast : In (empty_match (length text)) idx -> lastm = empty_match (length text)).
  { rewrite E. intros H. apply in_app_or in H. destruct H as [H|[H|[]]]; auto.
    exfalso. eapply Hfront; eauto. }
  split; [split|].
  - intros Hin (m & Hm & Hlt & Hend). apply Hlast in Hin. subst lastm.
    rewrite E in Hm. apply in_app_or in Hm. destruct Hm as [Hm|[<-|[]]].
    + apply HF in Hm. lia.
    + simpl in Hlt. lia.
  - intros Hno. destruct Hl as [->|[Hr Hend]].
    + rewrite E. apply in_or_app. right. left. reflexivity.
    + exfalso. apply Hno. exists lastm. split.
      * rewrite E. apply in_or_app. right. left. reflexivity.
      * destruct (reference_match_whole Hr) as (Hlt & _). auto.
  - intros Hin. apply Hlast in Hin. subst lastm. exists front. exact E.
Qed.

Lemma reference_match_strings ps text m :
  reference_match ps text m -> reference_strings ps (map (substr text) m).
Proof.
  intros (b & e & c & Hb & Hr & ->).
  destruct Hr as (lead & K & ds & pl & rest & Hs & Hlead & HK & Hds & Hdig & Hpl & He & ->).
  exists lead, K, ds, pl. split; [|repeat split; auto].
  - cbn [set_cap map]. f_equal; [|f_equal; [|f_equal; [|f_equal]]].
    + apply substr_at with (b := b) (pre := []) (post := rest).
      * rewrite Hs. simpl. rewrite <- !app_assoc. simpl. rewrite <- !app_assoc. reflexivity.
      * simpl. lia.
      * rewrite !length_app. simpl. rewrite !length_app. lia.
    + apply substr_at with (b := b) (pre := lead) (post := pl ++ rest).
      * rewrite Hs, <- !app_assoc. reflexivity.
      * reflexivity.
      * rewrite length_app. simpl. lia.
    + apply substr_at with (b := b) (pre := lead) (post := hyphen :: ds ++ pl ++ rest);
        [exact Hs | reflexivity | reflexivity].
    + destruct Hpl as [-> | ->]; [reflexivity|].
      apply substr_at with (b := b) (pre := lead ++ K ++ hyphen :: ds) (post := rest).
      * rewrite Hs, <- ?app_assoc. simpl. rewrite <- ?app_assoc. reflexivity.
      * rewrite !length_app. simpl. lia.
      * subst e. simpl. lia.
  - destruct Hlead as [(x & -> & Hx)|[-> _]]; [right; eauto | left; reflexivity].
Qed.

Lemma reference_strings_not_empty ps v : reference_strings ps v -> nth 1 v [] <> [].
Proof.
  intros (lead & K & ds & pl & -> & _). simpl. destruct K; discriminate.
Qed.

Section LastLookup.
Context {RT : Runtime}.

(** C9, as amended: every text has at least one match.  The empty
    match at the end of the text, whose submatches are all empty, is
    among the matches exactly when no other match ends at the end of
    the text; it is then the last match, and the only one with an
    empty reference.  When the turns of the matches before it have
    returned, [processEvents] goes on as [GetIssue] of the empty key
    decides: an error ends the run with the deferred [Done], the
    lookup being the last thing written; an issue is sent; a panic is
    the panic of the run.  If one of the turns before panics, so does
    the run.  A run that returns has looked up the references of the
    matches before it and then the empty key. *)
Theorem empty_reference_lookup st0 st text ch w :
  Forall (fun p => plain_key (KEY p)) (Projects st0) ->
  buildPattern st0 = Ret (tt, st) ->
  exists re,
    Pattern st = Some re /\
    FindAllStringSubmatch re text <> [] /\
    map (substr text) (empty_match (length text)) = [[]; []; []; []] /\
    (In (empty_match (length text)) (FindAllStringSubmatchIndex re text) <->
     ~ exists m, In m (FindAllStringSubmatchIndex re text) /\
                 fst (whole m) < snd (whole m) /\ snd (whole m) = length text) /\
    (In (empty_match (length text)) (FindAllStringSubmatchIndex re text) ->
     exists front,
       FindAllStringSubmatch re text = front ++ [[[]; []; []; []]] /\
       Forall (fun v => nth 1 v [] <> []) front /\
       ((for_matches ch front st = Panic /\ processEvents text ch w st = Panic) \/
        exists st1,
          for_matches ch front st = Ret (tt, st1) /\
          processEvents text ch w st
          = match GetIssue (Client st1) [] st1 with
            | Ret ((iss, None), st2) =>
                bind (sendMessage iss ch)
                  (fun _ => match wg_Done w with Some w' => ret w' | None => panic end) st2
            | Ret ((_, Some _), st2) =>
                match wg_Done w with Some w' => Ret (w', st2) | None => Panic end
            | Panic => Panic
            | Unmodelled => Unmodelled
            end /\
          GetIssue (Client st1) [] st1 <> Unmodelled /\
          forall r st2, GetIssue (Client st1) [] st1 = Ret (r, st2) ->
                        trace st2 = trace st1 ++ [CalledGetIssue []]) /\
       (forall w' st',
          processEvents text ch w st = Ret (w', st') ->
          exists evs,
            trace st' = trace st ++ evs /\
            lookups evs = map reference_of front ++ [[]])).
Proof.
  intros Hkeys Hbuild.
  rewrite (buildPattern_plain st0 Hkeys) in Hbuild. injection Hbuild as <-.
  set (ps := Projects st0) in *.
  set (st := {| Pattern := Some (issue_pattern ps); Projects := ps;
                Client := Client st0; jiraHostURL := jiraHostURL st0;
                world := world st0; trace := trace st0 |}) in *.
  assert (HP : Pattern st = Some (issue_pattern ps)) by reflexivity.
  destruct (empty_match_last ps text) as (Hne & Hiff & Hlast).
  assert (Hempty : map (substr text) (empty_match (length text)) = [[]; []; []; []])
    by (simpl; rewrite Nat.sub_diag; reflexivity).
  exists (issue_pattern ps).
  split; [reflexivity|]. split.
  { unfold FindAllStringSubmatch. intros E. apply map_eq_nil in E. auto. }
  split; [exact Hempty|]. split; [exact Hiff|].
  intros Hin. destruct (Hlast Hin) as (front & E).
  assert (Hrefs : Forall (reference_match ps text) front).
  { apply Forall_forall. intros m Hm.
    assert (Hm' : In m (FindAllStringSubmatchIndex (issue_pattern ps) text))
      by (rewrite E; apply in_or_app; left; exact Hm).
    destruct (all_matches _ _ _ Hm') as [->|Hr]; [|exact Hr].
    exfalso.
    destruct (FindAll_structure ps text) as (front' & lastm & E' & HF & _).
    rewrite E in E'. apply app_inj_tail in E'. destruct E' as [<- _].
    rewrite Forall_forall in HF. apply HF in Hm. simpl in Hm. lia. }
  exists (map (map (substr text)) front).
  assert (Ems : FindAllStringSubmatch (issue_pattern ps) text
                = map (map (substr text)) front ++ [[[]; []; []; []]]).
  { unfold FindAllStringSubmatch. rewrite E, map_app.
    change (map (map (substr text)) [empty_match (length text)])
      with [map (substr text) (empty_match (length text))].
    rewrite Hempty. reflexivity. }
  split; [exact Ems|]. split.
  { apply Forall_forall. intros v Hv. apply in_map_iff in Hv.
    destruct Hv as (m & <- & Hm). rewrite Forall_forall in Hrefs.
    eapply reference_strings_not_empty, reference_match_strings, Hrefs, Hm. }
  split.
  2: { intros w' st' Hrun.
       destruct (@processEvents_resolves _ text ch w st _ w' st' HP Hrun)
         as (outs & evs & _ & Ht & Hl & _).
       exists evs. split; [exact Ht|]. rewrite Hl, Ems, map_app. reflexivity. }
  rewrite (@processEvents_unfold _ text ch w st _ HP), Ems.
  destruct (for_matches_outcome ch (map (map (substr text)) front) st)
    as [(st1 & Ef) | (Ef & _)].
  - right. exists st1. split; [exact Ef|]. split; [|split].
    + unfold bind at 1. rewrite for_matches_app. unfold bind at 1. rewrite Ef.
      cbn [for_matches]. unfold bind at 1. unfold handle_match, bind at 1, get.
      change (TrimSpace (nth 1 [[]; []; []; []] [])) with (@nil rune).
      unfold bind at 1.
      destruct (GetIssue (Client st1) [] st1) as [[[iss [err|]] st2]| |];
        [| |reflexivity|reflexivity].
      * unfold ret. destruct (wg_Done w); reflexivity.
      * unfold bind, ret. destruct (sendMessage iss ch st2) as [[e st3]| |]; reflexivity.
    + apply GetIssue_modelled.
    + intros r st2 HG. exact (proj1 (@GetIssue_trace _ _ _ _ _ _ HG)).
  - left. split; [exact Ef|]. unfold bind. rewrite for_matches_app. unfold bind.
    rewrite Ef. reflexivity.
Qed.

End LastLookup.

Lemma substr_token (pre K ds post : gostring) :
  substr (pre ++ K ++ hyphen :: ds ++ post)
         (Some (length pre, length pre + length K + 1 + length ds))
  = K ++ hyphen :: ds.
Proof.
  unfold substr. rewrite skipn_app, skipn_all, Nat.sub_diag. simpl.
  replace (length pre + length K + 1 + length ds - length pre)
    with (length (K ++ hyphen :: ds)) by (rewrite length_app; simpl; lia).
  replace (K ++ hyphen :: ds ++ post) with ((K ++ hyphen :: ds) ++ post)
    by (rewrite <- app_assoc; reflexivity).
  rewrite firstn_app, firstn_all, Nat.sub_diag. simpl. apply app_nil_r.
Qed.

Lemma after_key_app k s : after_key k (k ++ s) = Some s.
Proof. induction k as [|x k IH]; simpl; [|rewrite N.eqb_refl]; auto. Qed.

Lemma after_key_Some k : forall s r, after_key k s = Some r -> s = k ++ r.
Proof.
  induction k as [|x k IH]; intros [|y s] r H; simpl in H; try discriminate.
  - injection H as <-. reflexivity.
  - injection H as <-. reflexivity.
  - destruct (N.eqb_spec x y) as [->|]; [|discriminate].
    apply IH in H. rewrite H. reflexivity.
Qed.

Lemma reads_key_app k h d r : reads_key k (k ++ h :: d :: r) = N.eqb h hyphen && is_digit d.
Proof. unfold reads_key. rewrite after_key_app. reflexivity. Qed.

Lemma reads_key_true k s :
  reads_key k s = true -> exists d r, s = k ++ hyphen :: d :: r /\ is_digit d = true.
Proof.
  unfold reads_key. destruct (after_key k s) as [[|h [|d r]]|] eqn:E; try discriminate.
  intros H. apply andb_true_iff in H. destruct H as [Hh Hd].
  apply N.eqb_eq in Hh. subst h. apply after_key_Some in E. eauto.
Qed.

Lemma keys_first ps K rest c k r0 p :
  first_reading ps (K ++ hyphen :: rest) = Some K ->
  (forall K' s', reads_key K' (K' ++ s') = false -> k (p + length K') s' c = None) ->
  k (p + length K) (hyphen :: rest) c = Some r0 ->
  backtrack (key_alternation ps) p (K ++ hyphen :: rest) c k = Some r0.
Proof.
  unfold first_reading. intros Hfirst Hfail Hr.
  induction ps as [|pr ps IH]; [discriminate Hfirst|].
  cbn [map find] in Hfirst. simpl.
  destruct (reads_key (KEY pr) (K ++ hyphen :: rest)) eqn:E.
  - injection Hfirst as ->. rewrite backtrack_literal, Hr. reflexivity.
  - destruct (backtrack (literal (KEY pr)) p (K ++ hyphen :: rest) c k) as [r|] eqn:Eb.
    + exfalso. apply backtrack_sound in Eb.
      destruct Eb as (w & s' & c' & Hs & Hd & Hkr).
      apply derives_literal in Hd. destruct Hd as [-> ->].
      rewrite Hs in E. rewrite (Hfail _ _ E) in Hkr. discriminate Hkr.
    + simpl. apply IH. exact Hfirst.
Qed.

Lemma hyphen_digits_none k p s c :
  (forall d r, s = hyphen :: d :: r -> is_digit d = false) ->
  backtrack (OpConcat (OpLiteral hyphen) (OpPlus (OpCharClass ClassDigit))) p s c k = None.
Proof.
  intros H. destruct s as [|x s]; [reflexivity|].
  cbn [backtrack]. destruct (N.eqb_spec x hyphen) as [->|]; [|reflexivity].
  apply again_no_digit; [reflexivity|].
  destruct s as [|d r]; [exact I|]. simpl. eapply H. reflexivity.
Qed.

Lemma group_fails ps q s :
  reads_key [] s = false -> first_reading ps s = None ->
  backtrack (OpConcat (issue_group ps) after_group) q s no_caps accept = None.
Proof.
  intros Hnone Hkeys.
  destruct (backtrack (OpConcat (issue_group ps) after_group) q s no_caps accept)
    as [r|] eqn:E; [exfalso|reflexivity].
  apply backtrack_sound in E. destruct E as (w & s' & c' & -> & Hd & _).
  inversion Hd as [| | | | | |a b p0 w1 w2 s0 c0 c2 c3 Hg Hq| | | | | |]; subst.
  apply derives_group in Hg. destruct Hg as (K & ds & -> & HK & Hne & HF & _).
  destruct ds as [|d ds]; [congruence|].
  assert (Hd' : is_digit d = true) by (inversion HF; assumption).
  assert (Hr : reads_key K (((K ++ hyphen :: d :: ds) ++ w2) ++ s') = true).
  { rewrite <- !app_assoc. simpl. rewrite reads_key_app, N.eqb_refl, Hd'. reflexivity. }
  destruct HK as [->|HK]; [congruence|].
  unfold first_reading in Hkeys.
  rewrite (find_none _ _ Hkeys K HK) in Hr. discriminate Hr.
Qed.

(** With keys without a hyphen a listed key with a whole number after
    it is a token. *)
Lemma token_without_hyphens ps K ds post :
  (forall K', In K' (map KEY ps) -> ~ In hyphen K') ->
  In K (map KEY ps) ->
  ds <> [] -> Forall (fun x => is_digit x = true) ds -> no_digit_ahead post ->
  token ps K ds post.
Proof.
  intros Hno HK Hne Hds Hpost. do 3 (split; [assumption|]).
  unfold first_reading.
  destruct (find (fun k => reads_key k (K ++ hyphen :: ds ++ post)) (map KEY ps))
    as [K'|] eqn:E.
  - apply find_some in E. destruct E as [HK' Hr].
    apply reads_key_true in Hr. destruct Hr as (d & r & E & _).
    symmetry in E. apply split_at_hyphen in E; auto. destruct E as [-> _]. reflexivity.
  - exfalso. pose proof (find_none _ _ E K HK) as Hr. simpl in Hr.
    destruct ds as [|d ds]; [congruence|]. simpl app in Hr.
    rewrite reads_key_app, N.eqb_refl in Hr. inversion Hds. simpl in Hr. congruence.
Qed.

Section Tokens.

Variable ps : list Project.
Variables K ds post : gostring.
Hypothesis is_token : token ps K ds post.

Lemma group_on_the_token q :
  backtrack (OpConcat (issue_group ps) after_group) q (K ++ hyphen :: ds ++ post)
    no_caps accept
  = Some (q + length K + 1 + length ds + plus_len post, reference_caps q K ds post).
Proof.
  destruct is_token as (ds_nonempty & ds_digits & number_ends & K_first).
  rewrite group_run. apply keys_first.
  - exact K_first.
  - intros K' s' E. apply hyphen_digits_none. intros d r ->.
    rewrite reads_key_app, N.eqb_refl in E. exact E.
  - cbn [backtrack]. rewrite N.eqb_refl.
    change (backtrack (OpPlus (OpCharClass ClassDigit)) (S (q + length K)) (ds ++ post)
              (set_cap 2 (q, q + length K) no_caps)
              (fun p' s' c' =>
                 backtrack after_group p' s' (set_cap 1 (q, p') c') accept)
            = Some (q + length K + 1 + length ds + plus_len post,
                    reference_caps q K ds post)).
    apply digits_greedy; auto.
    replace (S (q + length K) + length ds) with (q + length K + 1 + length ds) by lia.
    unfold no_caps. cbn [set_cap repeat]. rewrite after_group_accepts. reflexivity.
Qed.

Lemma pattern_after_boundary p w :
  is_word w = false ->
  backtrack (expr (issue_pattern ps)) p (w :: K ++ hyphen :: ds ++ post) no_caps accept
  = Some (S p + length K + 1 + length ds + plus_len post, reference_caps (S p) K ds post).
Proof.
  intros Hw. cbn [expr issue_pattern backtrack in_class]. rewrite Hw. cbn [negb].
  fold after_group.
  change (orelse
            (orelse
               (backtrack (OpConcat (issue_group ps) after_group) (S p)
                  (K ++ hyphen :: ds ++ post) no_caps accept)
               (if Nat.eqb p 0
                then backtrack (OpConcat (issue_group ps) after_group) p
                       (w :: K ++ hyphen :: ds ++ post) no_caps accept
                else None))
            None
          = Some (S p + length K + 1 + length ds + plus_len post,
                  reference_caps (S p) K ds post)).
  rewrite group_on_the_token. reflexivity.
Qed.

Lemma pattern_at_start :
  clean_start ps (K ++ hyphen :: ds ++ post) ->
  backtrack (expr (issue_pattern ps)) 0 (K ++ hyphen :: ds ++ post) no_caps accept
  = Some (length K + 1 + length ds + plus_len post, reference_caps 0 K ds post).
Proof.
  intros Hclean.
  pose proof (group_on_the_token 0) as Hg.
  remember (K ++ hyphen :: ds ++ post) as T eqn:ET.
  destruct T as [|x T']; [destruct K; discriminate ET|].
  cbn [expr issue_pattern backtrack in_class]. fold after_group.
  change (orelse
            (orelse
               (if negb (is_word x)
                then backtrack (OpConcat (issue_group ps) after_group) 1 T' no_caps accept
                else None)
               (backtrack (OpConcat (issue_group ps) after_group) 0 (x :: T')
                  no_caps accept))
            None
          = Some (length K + 1 + length ds + plus_len post, reference_caps 0 K ds post)).
  rewrite Hg. destruct (is_word x) eqn:Hx; cbn [negb]; [reflexivity|].
  simpl in Hclean. destruct Hclean as [Hclean|[Hnone Hkeys]]; [congruence|].
  rewrite group_fails; auto.
Qed.

End Tokens.

Lemma taken_tail m idx i : taken idx i -> taken (m :: idx) i.
Proof. intros (m' & Hin & H). exists m'. split; [right; exact Hin | exact H]. Qed.

Section Captured.

Variable ps : list Project.
Variables K ds post : gostring.
Hypothesis is_token : token ps K ds post.

(** After a rune that is not a word character the token is found,
    unless a match that starts before the rune extends over it. *)
Lemma found_or_taken pre w :
  is_word w = false ->
  forall budget pos prev,
    pos <= length pre ->
    length (pre ++ w :: K ++ hyphen :: ds ++ post) < budget + pos ->
    In (reference_found K ds post 1 (S (length pre)))
       (allMatches (issue_pattern ps) (pre ++ w :: K ++ hyphen :: ds ++ post)
          budget pos prev) \/
    taken (allMatches (issue_pattern ps) (pre ++ w :: K ++ hyphen :: ds ++ post)
             budget pos prev) (length pre).
Proof.
  intros Hw. set (text := pre ++ w :: K ++ hyphen :: ds ++ post).
  assert (Ltext : length pre < length text)
    by (unfold text; rewrite length_app; simpl; lia).
  induction budget as [|budget IH]; intros pos prev Hpos Hb; [lia|].
  rewrite allMatches_step.
  destruct (Nat.leb_spec pos (length text)) as [Hle|]; [|lia].
  destruct (doExecute_pattern ps text Hle) as (m & Hm & _).
  rewrite Hm. unfold doExecute in Hm.
  assert (Es : skipn pos text = skipn pos pre ++ w :: K ++ hyphen :: ds ++ post).
  { unfold text. rewrite skipn_app. replace (pos - length pre) with 0 by lia.
    reflexivity. }
  assert (La0 : length (skipn pos pre) = length pre - pos) by apply length_skipn.
  assert (Hhere : backtrack (expr (issue_pattern ps)) (pos + length (skipn pos pre))
                    (w :: K ++ hyphen :: ds ++ post)
                    (repeat None (S (numSubexp (issue_pattern ps)))) accept
                  = Some (S (length pre) + length K + 1 + length ds + plus_len post,
                          reference_caps (S (length pre)) K ds post)).
  { rewrite La0. replace (pos + (length pre - pos)) with (length pre) by lia.
    apply pattern_after_boundary; auto. }
  destruct (@search_leftmost _ _ _ _ _ _ _ _ Hm Es Hhere)
    as (a & s2 & e & c & Ea & Hlen & Hback & -> & Hsame).
  destruct (Nat.eq_dec (length a) (length (skipn pos pre))) as [Heq|Hneq].
  - left. rewrite (Hsame Heq). rewrite La0.
    replace (pos + (length pre - pos)) with (length pre) by lia.
    cbn [whole set_cap reference_caps].
    destruct (Nat.eqb_spec (S (length pre) + length K + 1 + length ds + plus_len post) pos);
      [lia|].
    left. unfold reference_found. cbn [set_cap reference_caps].
    replace (S (length pre) - 1) with (length pre) by lia. reflexivity.
  - destruct (skipn_split _ _ _ Hle Ea) as [Hs2 Hlen2].
    change (repeat None (S (numSubexp (issue_pattern ps)))) with no_caps in Hback.
    apply pattern_shape in Hback. destruct Hback as [(-> & _ & _)|Href].
    { simpl in Hlen2. lia. }
    rewrite <- Hs2 in Href.
    destruct (reference_bounds Href) as (Hlt & _ & Hwhole). rewrite Hwhole.
    destruct (Nat.eqb_spec e pos); [lia|].
    destruct (Nat.le_gt_cases e (length pre)) as [He|He].
    + destruct (IH e (Some e)) as [Hin|Ht]; [exact He | lia | |].
      * left. right. exact Hin.
      * right. apply taken_tail. exact Ht.
    + right. exists (set_cap 0 (pos + length a, e) c). split; [left; reflexivity|].
      rewrite Hwhole. simpl. lia.
Qed.

(** The token is found at the start of the text. *)
Lemma found_at_the_start :
  clean_start ps (K ++ hyphen :: ds ++ post) ->
  In (reference_found K ds post 0 0)
     (FindAllStringSubmatchIndex (issue_pattern ps) (K ++ hyphen :: ds ++ post)).
Proof.
  intros Hclean.
  unfold FindAllStringSubmatchIndex. rewrite allMatches_step. simpl Nat.leb.
  unfold doExecute. simpl skipn.
  assert (Hs : search (issue_pattern ps) 0 (K ++ hyphen :: ds ++ post)
               = Some (reference_found K ds post 0 0)).
  { erewrite search_here; [reflexivity|].
    apply pattern_at_start; auto. }
  rewrite Hs. unfold reference_found. cbn [whole set_cap reference_caps].
  destruct (Nat.eqb_spec (0 + length K + 1 + length ds + plus_len post) 0); [lia|].
  left. reflexivity.
Qed.

End Captured.

Lemma ordered_pair {X} (R : X -> X -> Prop) l : ForallOrdPairs R l ->
  forall a b, In a l -> In b l -> a = b \/ R a b \/ R b a.
Proof.
  induction 1 as [|x l Hx Hs IH]; intros a b Ha Hb; [destruct Ha|].
  rewrite Forall_forall in Hx.
  destruct Ha as [<-|Ha], Hb as [<-|Hb]; auto.
Qed.

(** Where the reference of a match lies in it. *)
Lemma reference_capture ps text m :
  reference_match ps text m ->
  exists b e,
    nth 1 m None = Some (b, e) /\ b < e /\ e <= snd (whole m) /\
    (fst (whole m) + 1 = b \/ (fst (whole m) = 0 /\ b = 0)).
Proof.
  intros (b0 & e0 & c & Hb & Href & ->).
  destruct Href as (lead & K & ds & pl & rest & Hs & Hlead & _ & _ & _ & _ & -> & ->).
  cbn [set_cap nth whole fst snd]. eexists _, _. split; [reflexivity|].
  split; [lia|]. split; [lia|].
  destruct Hlead as [(x & -> & _)|[-> ->]]; simpl; [left | right]; lia.
Qed.

Lemma captured_is_not_taken ps text i e :
  In (Some (S i, e))
     (map (fun m => nth 1 m None) (FindAllStringSubmatchIndex (issue_pattern ps) text)) ->
  ~ taken (FindAllStringSubmatchIndex (issue_pattern ps) text) i.
Proof.
  intros Hc (m' & Hin' & Hb' & He').
  apply in_map_iff in Hc. destruct Hc as (m & Hm & Hin).
  destruct (all_matches _ _ _ Hin) as [->|Href]; [discriminate Hm|].
  destruct (reference_capture Href) as (b & e1 & Hn & Hlt & Hend & Hstart).
  rewrite Hn in Hm. injection Hm as -> ->.
  destruct Hstart as [Hstart|[_ Hstart]]; [|discriminate Hstart].
  destruct (allMatches_sorted ps text (S (length text)) 0 None) as [_ Hs].
  destruct (ordered_pair Hs m m' Hin Hin') as [<-|[H|H]]; unfold precedes in *; lia.
Qed.

Lemma no_overlap_open ps pre w T b e c :
  is_word w = false ->
  (w = plus_sign -> forall pre' d, pre = pre' ++ [d] -> is_digit d = false) ->
  (w = hyphen -> no_digit_ahead T) ->
  (forall K', In K' (map KEY ps) -> ~ In w K') ->
  b < length pre ->
  reference_at ps b (skipn b (pre ++ w :: T)) e c ->
  e <= length pre.
Proof.
  intros Hw Hplus Hhyphen Hkeys Hb Href.
  destruct (Nat.le_gt_cases e (length pre)) as [|He]; [assumption|exfalso].
  destruct Href as (lead & K' & ds' & pl & rest & Hs & Hlead & HK' & Hne & HF & Hpl & -> & _).
  rewrite skipn_app in Hs.
  replace (b - length pre) with 0 in Hs by lia. simpl skipn in Hs.
  assert (Lu : length (skipn b pre) = length pre - b) by apply length_skipn.
  set (u := skipn b pre) in *.
  assert (Hpre : pre = firstn b pre ++ u) by (symmetry; apply firstn_skipn).
  symmetry in Hs. apply app_eq_split in Hs.
  destruct Hs as [(A2 & -> & _)|(u2 & Eu & Hs)].
  { destruct Hlead as [(y & E & _)|[E _]];
      apply (f_equal (@length _)) in E; rewrite length_app in E; simpl in E; lia. }
  apply app_eq_split in Hs. destruct Hs as [(A2 & -> & _)|(u3 & -> & Hs)].
  { destruct HK' as [E|HK'].
    - destruct u2; discriminate.
    - apply (Hkeys _ HK'). apply in_elt. }
  destruct u3 as [|h u4]; simpl in Hs.
  { injection Hs as <- Hs. destruct ds' as [|d ds']; [congruence|].
    simpl in Hs. rewrite <- Hs in Hhyphen. specialize (Hhyphen eq_refl). simpl in Hhyphen.
    inversion HF. congruence. }
  injection Hs as <- Hs.
  apply app_eq_split in Hs. destruct Hs as [(A2 & -> & _)|(u5 & -> & Hs)].
  { rewrite Forall_forall in HF.
    assert (is_digit w = true) by (apply HF; auto using in_elt).
    apply digit_is_word in H. congruence. }
  apply app_eq_split in Hs. destruct Hs as [(A2 & Epl & _)|(u6 & -> & _)].
  - destruct Hpl as [-> | ->]; [destruct u5; discriminate|].
    destruct u5 as [|? [|? ?]]; try discriminate.
    simpl in Epl. injection Epl as <- _.
    destruct (exists_last Hne) as (ds'' & d & ->).
    rewrite Forall_forall in HF.
    assert (Hd : is_digit d = true) by (apply HF; apply in_elt).
    rewrite (Hplus eq_refl (firstn b pre ++ lead ++ K' ++ hyphen :: ds'') d) in Hd;
      [discriminate|].
    rewrite Hpre at 1. rewrite Eu. rewrite app_nil_r.
    rewrite <- ?app_assoc. simpl. rewrite <- ?app_assoc. reflexivity.
  - rewrite Eu in Lu. rewrite !length_app in Lu. simpl in Lu.
    rewrite !length_app in Lu. lia.
Qed.

Lemma open_is_not_taken ps pre w K R :
  open_boundary ps pre w K ->
  ~ taken (FindAllStringSubmatchIndex (issue_pattern ps) (pre ++ w :: K ++ hyphen :: R))
          (length pre).
Proof.
  intros ((Hw & Hplus) & Hhyphen & Hkeys) (m & Hin & Hb & He).
  destruct (all_matches _ _ _ Hin) as [->|(b & e & c & Hlen & Href & ->)].
  { simpl in Hb, He. lia. }
  destruct (reference_bounds Href) as (_ & _ & Hwhole). rewrite Hwhole in Hb, He.
  simpl in Hb, He.
  assert (Hh : w = hyphen -> no_digit_ahead (K ++ hyphen :: R)).
  { intros E. specialize (Hhyphen E). destruct K; simpl; [reflexivity | exact Hhyphen]. }
  assert (e <= length pre); [|lia].
  exact (@no_overlap_open ps pre w (K ++ hyphen :: R) b e c Hw Hplus Hh Hkeys Hb Href).
Qed.

Lemma captured_string re pre K ds post :
  In (Some (length pre, length pre + length K + 1 + length ds))
     (map (fun m => nth 1 m None)
        (FindAllStringSubmatchIndex re (pre ++ K ++ hyphen :: ds ++ post))) ->
  captured re pre K ds post.
Proof.
  intros Hidx. split; [exact Hidx|].
  apply in_map_iff in Hidx. destruct Hidx as (m & Hm & Hin).
  apply in_map_iff. exists (map (substr (pre ++ K ++ hyphen :: ds ++ post)) m).
  split.
  - rewrite <- (substr_token pre K ds post), <- Hm.
    change [] with (substr (pre ++ K ++ hyphen :: ds ++ post) None).
    apply map_nth.
  - unfold FindAllStringSubmatch. apply in_map. exact Hin.
Qed.

Section Matched.
Context {RT : Runtime}.

(** C5, as amended: with keys that hold no operator of the pattern
    language, the pattern that [buildPattern] compiles captures, in no
    text, a reference that starts right after a word character.  A
    listed key with a whole number after it is a token when no key
    holds a hyphen.  The pattern captures the token [K-ds] at the
    start of the text, if the text is clean there; and after a rune
    [w] that is not a word character it captures the token exactly
    when no match that starts before [w] extends over it, which is so
    when [w] is an open boundary. *)
Theorem references_are_matched st0 st :
  Projects st0 <> [] ->
  Forall (fun p => plain_key (KEY p)) (Projects st0) ->
  buildPattern st0 = Ret (tt, st) ->
  exists re,
    Pattern st = Some re /\
    (forall text m b e,
       In m (FindAllStringSubmatchIndex re text) ->
       nth 1 m None = Some (b, e) ->
       b = 0 \/ exists x, nth_error text (b - 1) = Some x /\ is_word x = false) /\
    (forall K ds post,
       (forall K', In K' (map KEY (Projects st0)) -> ~ In hyphen K') ->
       In K (map KEY (Projects st0)) ->
       ds <> [] -> Forall (fun x => is_digit x = true) ds -> no_digit_ahead post ->
       token (Projects st0) K ds post) /\
    (forall K ds post,
       token (Projects st0) K ds post ->
       (clean_start (Projects st0) (K ++ hyphen :: ds ++ post) ->
        captured re [] K ds post) /\
       (forall pre w,
          is_word w = false ->
          (captured re (pre ++ [w]) K ds post <->
           ~ taken (FindAllStringSubmatchIndex re
                      ((pre ++ [w]) ++ K ++ hyphen :: ds ++ post))
                   (length pre)) /\
          (open_boundary (Projects st0) pre w K ->
           captured re (pre ++ [w]) K ds post))).
Proof.
  intros _ Hkeys Hbuild.
  rewrite (buildPattern_plain st0 Hkeys) in Hbuild.
  injection Hbuild as <-. set (ps := Projects st0) in *.
  exists (issue_pattern ps). split; [reflexivity|]. split.
  - intros text m b e Hin Hm.
    apply all_matches in Hin. destruct Hin as [->|Href]; [discriminate|].
    destruct (reference_match_whole Href) as (_ & _ & c1 & Hc1 & Hb).
    rewrite Hc1 in Hm. injection Hm as ->. exact Hb.
  - split; [intros K ds post; apply token_without_hyphens|].
    intros K ds post Htoken. split.
    + intros Hclean. apply captured_string.
      apply in_map_iff. exists (reference_found K ds post 0 0).
      split; [reflexivity|]. apply found_at_the_start; auto.
    + intros pre w Hw.
      assert (Hfound : ~ taken (FindAllStringSubmatchIndex (issue_pattern ps)
                                  ((pre ++ [w]) ++ K ++ hyphen :: ds ++ post))
                               (length pre) ->
                       captured (issue_pattern ps) (pre ++ [w]) K ds post).
      { intros Hfree. apply captured_string.
        apply in_map_iff. exists (reference_found K ds post 1 (S (length pre))). split.
        - simpl. rewrite length_app. simpl.
          replace (length pre + 1) with (S (length pre)) by lia. reflexivity.
        - rewrite <- app_assoc in *. simpl in *.
          unfold FindAllStringSubmatchIndex in *.
          destruct (@found_or_taken ps K ds post Htoken pre w Hw
                      (S (length (pre ++ w :: K ++ hyphen :: ds ++ post))) 0 None)
            as [Hin|Ht]; [lia | lia | exact Hin | contradiction]. }
      split; [split|].
      * intros [Hc _]. rewrite length_app in Hc. simpl in Hc.
        replace (length pre + 1) with (S (length pre)) in Hc by lia.
        eapply captured_is_not_taken; eauto.
      * exact Hfound.
      * intros Hopen. apply Hfound. rewrite <- app_assoc. simpl.
        apply open_is_not_taken. exact Hopen.
Qed.

End Matched.

(** C5, as stated, fails.  In "PROJ-1+PROJ-2" the reference PROJ-2
    follows a [+], which is not a word character, and is not matched:
    the match of PROJ-1 took the [+].  With the key "1A" the reference
    1A-5 after the hyphen of "x -1A-5" is not matched: the empty
    alternative of the keys matched "-1".  The key "A+" is compiled as
    a repetition: "A+-1" is not matched, and "AA-1" is.  With the keys
    "A" and "A-1" the reference A-1-5 is read as A-1; with the keys
    "#A" and "A", "#A-1" at the start of the text is read as A-1.  And
    a reference is matched inside a longer token: before the letters
    of "PROJ-42foo", and after a letter that is not in ASCII. *)
Lemma plus_joined_reference_is_missed :
  Pattern up_state = Some (issue_pattern [PROJ]) /\
  is_word plus_sign = false /\
  FindAllStringSubmatch (issue_pattern [PROJ]) (runes "PROJ-1+PROJ-2")
    = [[runes "PROJ-1+"; runes "PROJ-1"; runes "PROJ"; runes "+"]; [[]; []; []; []]] /\
  ~ In (runes "PROJ-2")
       (map (fun v => nth 1 v [])
          (FindAllStringSubmatch (issue_pattern [PROJ]) (runes "PROJ-1+PROJ-2"))) /\
  Compile (pattern_text [P1A]) = Parser.Parsed (issue_pattern [P1A]) /\
  ~ In (runes "1A-5")
       (map (fun v => nth 1 v [])
          (FindAllStringSubmatch (issue_pattern [P1A]) (runes "x -1A-5"))) /\
  (exists re,
     Compile (pattern_text [A_plus]) = Parser.Parsed re /\
     map (fun v => nth 1 v []) (FindAllStringSubmatch re (runes "A+-1")) = [runes "-1"] /\
     map (fun v => nth 1 v []) (FindAllStringSubmatch re (runes "AA-1")) = [runes "AA-1"]) /\
  Compile (pattern_text [A_only; A_1]) = Parser.Parsed (issue_pattern [A_only; A_1]) /\
  map (fun v => nth 1 v [])
      (FindAllStringSubmatch (issue_pattern [A_only; A_1]) (runes "A-1-5"))
    = [runes "A-1"; []] /\
  Compile (pattern_text [hash_A; A_only]) = Parser.Parsed (issue_pattern [hash_A; A_only]) /\
  map (fun v => nth 1 v [])
      (FindAllStringSubmatch (issue_pattern [hash_A; A_only]) (runes "#A-1"))
    = [runes "A-1"] /\
  map (fun v => nth 1 v [])
      (FindAllStringSubmatch (issue_pattern [PROJ]) (runes "PROJ-42foo"))
    = [runes "PROJ-42"; []] /\
  is_word e_acute = false /\
  map (fun v => nth 1 v [])
      (FindAllStringSubmatch (issue_pattern [PROJ]) (e_acute :: runes "PROJ-1"))
    = [runes "PROJ-1"].
Proof.
  split; [reflexivity|]. split; [reflexivity|]. split; [reflexivity|].
  split; [vm_compute; intuition discriminate|].
  split; [reflexivity|].
  split; [vm_compute; intuition discriminate|].
  split; [eexists; split; [reflexivity|]; split; reflexivity|].
  repeat split.
Qed.

(** C5 at "see PROJ-42 now", at the start and at the [+] of
    "PROJ-1+PROJ-2", and at "see XPROJ-42 now". *)
Lemma references_are_matched_witness :
  exists re,
    Pattern up_state = Some re /\
    captured re (runes "see ") (runes "PROJ") (runes "42") (runes " now") /\
    captured re [] (runes "PROJ") (runes "1") (runes "+PROJ-2") /\
    (captured re (runes "PROJ-1+") (runes "PROJ") (runes "2") [] <->
     ~ taken (FindAllStringSubmatchIndex re (runes "PROJ-1+PROJ-2")) 6) /\
    ~ exists m e,
        In m (FindAllStringSubmatchIndex re (runes "see XPROJ-42 now")) /\
        nth 1 m None = Some (5, e).
Proof.
  destruct (@references_are_matched jira_up up_state up_state)
    as (re & HP & Hneg & Hfree & Htok).
  - discriminate.
  - repeat constructor.
  - reflexivity.
  - assert (HPROJ : forall ds post,
              ds <> [] -> Forall (fun x => is_digit x = true) ds -> no_digit_ahead post ->
              token (Projects up_state) (runes "PROJ") ds post).
    { intros ds post. apply Hfree.
      - intros K' [<-|[]] Hin. vm_compute in Hin. intuition discriminate.
      - left. reflexivity. }
    exists re. split; [exact HP|]. split; [|split; [|split]].
    + apply (proj2 (Htok (runes "PROJ") (runes "42") (runes " now")
                      (HPROJ (runes "42") (runes " now")
                         ltac:(discriminate) ltac:(repeat constructor) eq_refl))
               (runes "see") 32%N eq_refl).
      split; [split; [reflexivity | intros H; discriminate H]|].
      split; [intros H; discriminate H|].
      intros K' [<-|[]] Hin. vm_compute in Hin. intuition discriminate.
    + apply (proj1 (Htok (runes "PROJ") (runes "1") (runes "+PROJ-2")
                      (HPROJ (runes "1") (runes "+PROJ-2")
                         ltac:(discriminate) ltac:(repeat constructor) eq_refl))).
      left. reflexivity.
    + apply (proj1 (proj2 (Htok (runes "PROJ") (runes "2") []
                      (HPROJ (runes "2") []
                         ltac:(discriminate) ltac:(repeat constructor) I))
               (runes "PROJ-1") plus_sign eq_refl)).
    + intros (m & e & Hin & Hm).
      destruct (Hneg _ m 5 e Hin Hm) as [H|(x & Hx & Hw)]; [discriminate H|].
      vm_compute in Hx. injection Hx as <-. discriminate Hw.
Defined.

(** A key with a space in it is matched as it is. *)
Example key_with_a_space :
  Compile (pattern_text [A_B]) = Parser.Parsed (issue_pattern [A_B]) /\
  map (fun v => nth 1 v [])
      (FindAllStringSubmatch (issue_pattern [A_B]) (runes "see A B-7"))
    = [runes "A B-7"].
Proof. split; reflexivity. Qed.

(** C6, as stated, fails.  "PROJ-1 and PROJ-1 again" holds the key
    twice and has three resolutions, the third of the empty key;
    "PROJ-1+PROJ-1" holds it twice and has one resolution of it, and
    one post. *)
Lemma two_mentions_are_not_always_two_resolutions :
  Pattern up_state = Some (issue_pattern [PROJ]) /\
  lookups (trace up_state) = [] /\
  (exists w' st',
     processEvents (runes "PROJ-1 and PROJ-1 again") general one up_state = Ret (w', st') /\
     lookups (trace st') = [runes "PROJ-1"; runes "PROJ-1"; []] /\
     length (lookups (trace st')) = 3 /\ length (posts (trace st')) = 2) /\
  (exists w' st',
     processEvents (runes "PROJ-1+PROJ-1") general one up_state = Ret (w', st') /\
     lookups (trace st') = [runes "PROJ-1"; []] /\
     length (posts (trace st')) = 1).
Proof.
  split; [reflexivity|]. split; [reflexivity|]. split.
  - eexists. eexists. split; [lazy; reflexivity|]. repeat split.
  - eexists. eexists. split; [lazy; reflexivity|]. repeat split.
Qed.

(** C6 at "PROJ-1 PROJ-1". *)
Lemma no_deduplication_witness :
  exists done outs st1 evs,
    resolves_all general done up_state outs st1 /\
    trace st1 = trace up_state ++ evs /\
    lookups evs = map reference_of done /\
    length (posts evs) = sent outs /\
    ((done = FindAllStringSubmatch (issue_pattern [PROJ]) (runes "PROJ-1 PROJ-1") /\
      processEvents (runes "PROJ-1 PROJ-1") general one up_state
      = match wg_Done one with Some w' => Ret (w', st1) | None => Panic end) \/
     (exists v rest,
        FindAllStringSubmatch (issue_pattern [PROJ]) (runes "PROJ-1 PROJ-1")
          = done ++ v :: rest /\
        handle_match general v st1 = Panic /\
        processEvents (runes "PROJ-1 PROJ-1") general one up_state = Panic)).
Proof.
  apply (@no_deduplication jira_up (runes "PROJ-1 PROJ-1") general one up_state
           (issue_pattern [PROJ])).
  reflexivity.
Defined.

(** The same ticket twice, and nothing else matched: two resolutions
    and two posts. *)
Example two_mentions_two_cards :
  map reference_of (FindAllStringSubmatch (issue_pattern [PROJ]) (runes "PROJ-1 PROJ-1"))
    = [runes "PROJ-1"; runes "PROJ-1"] /\
  lookups (trace (state_after (runes "PROJ-1 PROJ-1") general one up_state))
    = [runes "PROJ-1"; runes "PROJ-1"] /\
  map fst (posts (trace (state_after (runes "PROJ-1 PROJ-1") general one up_state)))
    = [general; general] /\
  map (fun p => map Title (Attachments (snd p)))
      (posts (trace (state_after (runes "PROJ-1 PROJ-1") general one up_state)))
    = [[runes "PROJ-1"]; [runes "PROJ-1"]].
Proof. repeat split. Qed.

(** C9, as stated, fails.  "PROJ-42" has one match, of the reference,
    none with an empty reference, and [processEvents] does not look up
    the empty key; nor does it for "see -12", which holds no ticket
    and has the one match of "-12".  And the lookup of the empty key
    fails if the tracker says so: one that answers it with an issue
    gets a post for "hello". *)
Lemma reference_at_the_end_leaves_no_empty_match :
  (exists w' st',
     processEvents (runes "hello") general one (@state_in jira_catch_all tt)
       = Ret (w', st') /\
     lookups (trace st') = [[]] /\ length (posts (trace st')) = 1) /\
  Pattern up_state = Some (issue_pattern [PROJ]) /\
  FindAllStringSubmatch (issue_pattern [PROJ]) (runes "PROJ-42")
    = [[runes "PROJ-42"; runes "PROJ-42"; runes "PROJ"; []]] /\
  ~ (exists v, In v (FindAllStringSubmatch (issue_pattern [PROJ]) (runes "PROJ-42")) /\
               nth 1 v [] = []) /\
  (exists w' st',
     processEvents (runes "PROJ-42") general one up_state = Ret (w', st') /\
     lookups (trace st') = [runes "PROJ-42"] /\
     ~ In [] (lookups (trace st'))) /\
  FindAllStringSubmatch (issue_pattern [PROJ]) (runes "see -12")
    = [[runes " -12"; runes "-12"; []; []]] /\
  (exists w' st',
     processEvents (runes "see -12") general one up_state = Ret (w', st') /\
     lookups (trace st') = [runes "-12"]).
Proof.
  split; [eexists; eexists; split; [lazy; reflexivity | split; reflexivity]|].
  split; [reflexivity|]. split; [reflexivity|]. split.
  { intros (v & Hin & Hv). vm_compute in Hin. destruct Hin as [<-|[]]. discriminate Hv. }
  split.
  { eexists. eexists. split; [lazy; reflexivity|]. split; [reflexivity|].
    vm_compute. intuition discriminate. }
  split; [reflexivity|].
  eexists. eexists. split; [lazy; reflexivity|]. reflexivity.
Qed.

(** C9 at "hello". *)
Lemma empty_reference_lookup_witness :
  exists re,
    Pattern up_state = Some re /\
    FindAllStringSubmatch re (runes "hello") <> [] /\
    map (substr (runes "hello")) (empty_match (length (runes "hello"))) = [[]; []; []; []] /\
    (In (empty_match (length (runes "hello")))
        (FindAllStringSubmatchIndex re (runes "hello")) <->
     ~ exists m, In m (FindAllStringSubmatchIndex re (runes "hello")) /\
                 fst (whole m) < snd (whole m) /\
                 snd (whole m) = length (runes "hello")) /\
    (In (empty_match (length (runes "hello")))
        (FindAllStringSubmatchIndex re (runes "hello")) ->
     exists front,
       FindAllStringSubmatch re (runes "hello") = front ++ [[[]; []; []; []]] /\
       Forall (fun v => nth 1 v [] <> []) front /\
       ((for_matches general front up_state = Panic /\
         processEvents (runes "hello") general one up_state = Panic) \/
        exists st1,
          for_matches general front up_state = Ret (tt, st1) /\
          processEvents (runes "hello") general one up_state
          = match GetIssue (Client st1) [] st1 with
            | Ret ((iss, None), st2) =>
                bind (sendMessage iss general)
                  (fun _ => match wg_Done one with Some w' => ret w' | None => panic end) st2
            | Ret ((_, Some _), st2) =>
                match wg_Done one with Some w' => Ret (w', st2) | None => Panic end
            | Panic => Panic
            | Unmodelled => Unmodelled
            end /\
          GetIssue (Client st1) [] st1 <> Unmodelled /\
          forall r st2, GetIssue (Client st1) [] st1 = Ret (r, st2) ->
                        trace st2 = trace st1 ++ [CalledGetIssue []]) /\
       (forall w' st',
          processEvents (runes "hello") general one up_state = Ret (w', st') ->
          exists evs,
            trace st' = trace up_state ++ evs /\
            lookups evs = map reference_of front ++ [[]])).
Proof.
  apply (@empty_reference_lookup jira_up up_state up_state (runes "hello") general one).
  - repeat constructor.
  - reflexivity.
Defined.

(** A message without a reference: the one lookup is of the empty key,
    it fails, and nothing is posted. *)
Example hello_looks_up_the_empty_key :
  FindAllStringSubmatch (issue_pattern [PROJ]) (runes "hello") = [[[]; []; []; []]] /\
  trace (state_after (runes "hello") general one up_state)
    = trace up_state ++ [CalledGetIssue []].
Proof. repeat split. Qed.

(** * Further properties of the code *)

(** ** Colours, matches and references *)

Lemma eqb_string_spec a : forall b, eqb_string a b = true <-> a = b.
Proof.
  induction a as [|x a IH]; intros [|y b]; simpl; split; try easy.
  - rewrite andb_true_iff, N.eqb_eq, IH. intros [-> ->]. reflexivity.
  - intros E. injection E as -> ->. rewrite N.eqb_refl. apply IH. reflexivity.
Qed.

Lemma eqb_string_neq a b : eqb_string a b = false -> a <> b.
Proof.
  intros H E. apply eqb_string_spec in E. congruence.
Qed.

(** X1: [getColor] is blue for the statuses Open, Reopened and To Do,
    green for Resolved, Closed and Done, spelled so, and yellow for
    every other status. *)
Theorem getColor_classifies status :
  (getColor status = blue <->
   In status [runes "Open"; runes "Reopened"; runes "To Do"]) /\
  (getColor status = green <->
   In status [runes "Resolved"; runes "Closed"; runes "Done"]) /\
  (getColor status = yellow <->
   ~ In status [runes "Open"; runes "Reopened"; runes "To Do";
                runes "Resolved"; runes "Closed"; runes "Done"]).
Proof.
  unfold getColor.
  repeat match goal with
         | |- context [eqb_string status ?k] =>
             let E := fresh "E" in
             destruct (eqb_string status k) eqn:E;
             [ apply eqb_string_spec in E; subst status;
               repeat split; intros H; simpl; auto 10;
               try (exfalso; vm_compute in H; intuition discriminate)
             | apply eqb_string_neq in E ]
         end.
  repeat split; intros H; simpl in *;
    try (exfalso; vm_compute in H; discriminate H);
    try (exfalso; intuition congruence); intuition congruence.
Qed.

Lemma word_not_space x : is_word x = true -> is_space x = false.
Proof.
  unfold is_word, is_space, rune_in.
  rewrite !orb_true_iff, !andb_true_iff, !N.leb_le, N.eqb_eq.
  intros H.
  rewrite !orb_false_iff, !andb_false_iff, !N.leb_gt, !N.eqb_neq. lia.
Qed.

Lemma trim_left_id s :
  (forall x t, s = x :: t -> is_space x = false) -> trim_left s = s.
Proof.
  destruct s as [|x t]; [reflexivity|]. intros H. simpl.
  rewrite (H x t eq_refl). reflexivity.
Qed.

Lemma TrimSpace_id s :
  (forall x t, s = x :: t -> is_space x = false) ->
  (forall t y, s = t ++ [y] -> is_space y = false) ->
  TrimSpace s = s.
Proof.
  intros Hh Hl. unfold TrimSpace. rewrite (trim_left_id Hh).
  rewrite trim_left_id; [apply rev_involutive|].
  intros x t E. apply (Hl (rev t) x).
  rewrite <- (rev_involutive s), E. reflexivity.
Qed.

Lemma match_strings ps text m :
  In m (FindAllStringSubmatchIndex (issue_pattern ps) text) ->
  map (substr text) m = empty_strings \/ reference_strings ps (map (substr text) m).
Proof.
  intros Hin. destruct (all_matches _ _ _ Hin) as [->|Hr].
  - left. unfold empty_match, empty_strings. simpl. rewrite Nat.sub_diag. reflexivity.
  - right. exact (reference_match_strings Hr).
Qed.

(** What a match is, as the proofs below use it. *)
Lemma matches_shape ps text v :
  In v (FindAllStringSubmatch (issue_pattern ps) text) ->
  v = empty_strings \/ reference_strings ps v.
Proof.
  unfold FindAllStringSubmatch. rewrite in_map_iff. intros (m & <- & Hin).
  exact (match_strings _ _ _ Hin).
Qed.

Lemma digit_not_space x : is_digit x = true -> is_space x = false.
Proof. intros H. apply word_not_space, digit_is_word, H. Qed.

Lemma reference_key_untrimmed ps K ds :
  Forall (fun p => word_key (KEY p)) ps ->
  (K = [] \/ In K (map KEY ps)) -> ds <> [] ->
  Forall (fun r => is_digit r = true) ds ->
  TrimSpace (K ++ hyphen :: ds) = K ++ hyphen :: ds.
Proof.
  intros Hw HK Hds Hdig. apply TrimSpace_id.
  - intros x t E. destruct HK as [-> | HK].
    + injection E as <- _. reflexivity.
    + destruct K as [|k K']; [injection E as <- _; reflexivity|].
      injection E as <- _. apply word_not_space.
      apply (known_key_word Hw _ k HK). left. reflexivity.
  - intros t y E.
    destruct (exists_last Hds) as (ds' & d & ->).
    change (K ++ hyphen :: ds' ++ [d]) with (K ++ (hyphen :: ds') ++ [d]) in E.
    rewrite app_assoc in E. apply app_inj_tail in E. destruct E as [_ <-].
    apply digit_not_space. rewrite Forall_app in Hdig. destruct Hdig as [_ Hd].
    inversion Hd; assumption.
Qed.

(** [TrimSpace] leaves a captured reference as it is. *)
Lemma reference_untrimmed ps text v :
  Forall (fun p => word_key (KEY p)) ps ->
  In v (FindAllStringSubmatch (issue_pattern ps) text) ->
  reference_of v = nth 1 v [] /\ reference_key ps (reference_of v).
Proof.
  intros Hw Hin. unfold reference_of.
  destruct (matches_shape _ _ _ Hin) as [-> | (lead & K & ds & pl & -> & _ & HK & Hds & Hdig & _)].
  - split; [reflexivity | left; reflexivity].
  - cbn [nth]. rewrite (reference_key_untrimmed Hw HK Hds Hdig).
    split; [reflexivity|]. right. exists K, ds. auto.
Qed.




(** With keys of word characters, the pattern that [buildPattern]
    leaves in [Pattern] is [issue_pattern] of the keys. *)
Lemma built_pattern {RT : Runtime} (st0 st : State) re :
  Forall (fun p => word_key (KEY p)) (Projects st0) ->
  buildPattern st0 = Ret (tt, st) ->
  Pattern st = Some re ->
  re = issue_pattern (Projects st0).
Proof.
  intros Hw Hb HP. rewrite (buildPattern_compiles _ Hw) in Hb. injection Hb as <-.
  simpl in HP. congruence.
Qed.

(** X4: with keys of word characters, every match that
    [FindAllStringSubmatch] returns for the pattern that [buildPattern]
    compiled is the empty match, four empty strings, or the match of a
    reference: capture 1 is a key, a hyphen and digits, the key being
    one of the list or empty, capture 2 is that key, capture 3 is a
    [+] or empty, and the match is capture 1 with at most one rune
    before it, not a word character, and capture 3 after it. *)
Theorem matches_are_references {RT : Runtime} (st0 st : State) re text v :
  Forall (fun p => word_key (KEY p)) (Projects st0) ->
  buildPattern st0 = Ret (tt, st) ->
  Pattern st = Some re ->
  In v (FindAllStringSubmatch re text) ->
  v = empty_strings \/ reference_strings (Projects st0) v.
Proof.
  intros Hw Hb HP. rewrite (built_pattern _ Hw Hb HP).
  unfold FindAllStringSubmatch. rewrite in_map_iff. intros (m & <- & Hin).
  exact (match_strings _ _ _ Hin).
Qed.

(** X6: with keys of word characters, [strings.TrimSpace] changes no
    captured reference: the key that [processEvents] looks up for a
    match is capture 1 as it is, the empty string or a reference. *)
Theorem reference_needs_no_trimming ps text v :
  Forall (fun p => word_key (KEY p)) ps ->
  In v (FindAllStringSubmatch (issue_pattern ps) text) ->
  reference_of v = nth 1 v [] /\ reference_key ps (reference_of v).
Proof.
  intros Hw Hin. unfold reference_of.
  destruct (matches_shape _ _ _ Hin) as [-> | (lead & K & ds & pl & -> & _ & HK & Hds & Hdig & _)].
  - split; [reflexivity | left; reflexivity].
  - cbn [nth]. rewrite (reference_key_untrimmed Hw HK Hds Hdig).
    split; [reflexivity|]. right. exists K, ds. auto.
Qed.

(** ** The client and the card *)

Section Client.

Context {RT : Runtime}.

Lemma consumeResponse_returns req st rc buffer e st' :
  consumeResponse req st = Ret ((rc, buffer, e), st') ->
  writes st [] st' /\
  exists r,
    rc = StatusCode r /\
    ((httpClient_Do req (world st) = (DoResponse r, world st') /\
      buffer = received r /\ e = None) \/
     (exists err, httpClient_Do req (world st) = (DoError (Some r) err, world st') /\
                  buffer = [] /\ e = Some err)).
Proof.
  intros H. split; [exact (@consumeResponse_quiet _ _ _ _ _ H)|].
  unfold consumeResponse, bind, on_world in H.
  destruct (httpClient_Do req (world st)) as [[r | [r|] err] w]; simpl in H.
  - exists r. unfold received. destruct (Body r) as [data|err]; unfold ret in H;
      injection H as <- <- <- <-; auto.
  - unfold ret in H. injection H as <- <- <- <-. exists r. split; [reflexivity|].
    right. exists err. auto.
  - discriminate H.
Qed.



Lemma GetProjects_run client st :
  url_error (baseURL client ++ projectsURL) = None ->
  GetProjects client st =
  bind (consumeResponse (projects_request client))
       (fun r =>
          match r with
          | (_, _, Some err) => ret (Some err)
          | (responseCode, data, None) =>
              if negb (Z.eqb responseCode StatusOK)
              then ret (Some (StatusCodeError responseCode))
              else
                bind get (fun st =>
                  let (ps, e) := json_Unmarshal_Projects data (Projects st) in
                  bind (set_Projects ps) (fun _ => ret e))
          end)
       {| Pattern := Pattern st; Projects := Projects st; Client := Client st;
          jiraHostURL := jiraHostURL st; world := world st;
          trace := trace st ++ [CalledGetProjects] |}.
Proof.
  intros Hurl. unfold GetProjects, http_NewRequest. rewrite Hurl. reflexivity.
Qed.

Lemma GetIssue_run client key st :
  url_error (baseURL client ++ issueURL ++ key) = None ->
  GetIssue client key st =
  bind (consumeResponse (issue_request client key))
       (fun r =>
          match r with
          | (_, _, Some err) => ret (zero_Issue, Some err)
          | (responseCode, data, None) =>
              if negb (Z.eqb responseCode StatusOK)
              then ret (zero_Issue, Some (StatusCodeError responseCode))
              else
                match json_Unmarshal_Issue data zero_Issue with
                | (issue, Some err) => ret (issue, Some err)
                | (issue, None) =>
                    if is_empty (Key issue) then ret (issue, Some NoIssueError)
                    else
                      bind (deref (Fields issue)) (fun fields =>
                        match Assignee_ fields with
                        | None =>
                            ret ({| Key := Key issue;
                                    Fields := Some (set_Assignee
                                                  {| DisplayName := runes "Unassigned" |}
                                                  fields) |},
                                 None)
                        | Some _ => ret (issue, None)
                        end)
                end
          end)
       {| Pattern := Pattern st; Projects := Projects st; Client := Client st;
          jiraHostURL := jiraHostURL st; world := world st;
          trace := trace st ++ [CalledGetIssue key] |}.
Proof.
  intros Hurl. unfold GetIssue, http_NewRequest. rewrite Hurl. reflexivity.
Qed.

(** What a lookup without error has gone through. *)
Lemma GetIssue_resolved client key st issue st' :
  GetIssue client key st = Ret ((issue, None), st') ->
  Key issue <> [] /\
  (exists f a, Fields issue = Some f /\ Assignee_ f = Some a) /\
  exists response decoded f,
    httpClient_Do (issue_request client key) (world st) = (DoResponse response, world st') /\
    StatusCode response = StatusOK /\
    json_Unmarshal_Issue (received response) zero_Issue = (decoded, None) /\
    Fields decoded = Some f /\
    issue = {| Key := Key decoded;
               Fields := Some (match Assignee_ f with
                               | Some _ => f
                               | None => set_Assignee
                                           {| DisplayName := runes "Unassigned" |} f
                               end) |}.
Proof.
  destruct (url_error (baseURL client ++ issueURL ++ key)) as [err|] eqn:Hurl.
  - unfold GetIssue, http_NewRequest. rewrite Hurl. unfold bind, emit, ret.
    intros H. discriminate H.
  - rewrite (GetIssue_run _ _ _ Hurl). unfold bind at 1.
    destruct (consumeResponse _ _) as [[[[rc buffer] e0] st1]| |] eqn:EC; try discriminate.
    destruct (consumeResponse_returns _ _ EC) as (_ & r & -> & Hr). simpl in Hr.
    destruct e0 as [err|]; [unfold ret; intros H; discriminate H|].
    destruct (negb (StatusCode r =? StatusOK)%Z) eqn:Ecode;
      [unfold ret; intros H; discriminate H|].
    apply negb_false_iff, Z.eqb_eq in Ecode.
    destruct Hr as [(HDo & -> & _) | (err & _ & _ & He)]; [|discriminate He].
    destruct (json_Unmarshal_Issue (received r) zero_Issue) as [decoded [err|]] eqn:EJ;
      [unfold ret; intros H; discriminate H|].
    destruct (is_empty (Key decoded)) eqn:EK; [unfold ret; intros H; discriminate H|].
    unfold bind. destruct (Fields decoded) as [f|] eqn:EF; [|intros H; discriminate H].
    simpl deref. unfold ret at 1.
    assert (HK : Key decoded <> []) by (destruct (Key decoded); [discriminate EK | discriminate]).
    destruct (Assignee_ f) as [a|] eqn:EA; unfold ret; intros H; injection H as <- <-.
    + split; [exact HK|]. split; [eauto|].
      exists r, decoded, f. rewrite EA. do 4 (split; [auto; fail|]).
      destruct decoded as [k0 f0]. simpl in *. congruence.
    + split; [exact HK|]. split; [do 2 eexists; split; reflexivity|].
      exists r, decoded, f. rewrite EA. do 4 (split; [auto; fail|]). reflexivity.
Qed.

(** X9: [GetIssue] returns without error only if the tracker answered
    with status 200 and the bytes read from the body (none if the body
    could not be read) decode without error to an issue with a key
    that is not empty and with fields; the issue returned is the
    decoded one, with the assignee "Unassigned" if it had none.  So
    its key is not empty and it has fields and an assignee. *)
Theorem GetIssue_success_is_assigned client key st issue st' :
  GetIssue client key st = Ret ((issue, None), st') ->
  Key issue <> [] /\
  (exists f a, Fields issue = Some f /\ Assignee_ f = Some a) /\
  exists response decoded f,
    httpClient_Do (issue_request client key) (world st) = (DoResponse response, world st') /\
    StatusCode response = StatusOK /\
    json_Unmarshal_Issue (received response) zero_Issue = (decoded, None) /\
    Fields decoded = Some f /\
    issue = {| Key := Key decoded;
               Fields := Some (match Assignee_ f with
                               | Some _ => f
                               | None => set_Assignee
                                           {| DisplayName := runes "Unassigned" |} f
                               end) |}.
Proof. apply GetIssue_resolved. Qed.

(** X10: when the tracker answers a lookup with a status other than
    200, [GetIssue] returns the zero issue and the error of that
    status, after one recorded call. *)
Theorem GetIssue_status_error client key st response data w :
  url_error (baseURL client ++ issueURL ++ key) = None ->
  httpClient_Do (issue_request client key) (world st) = (DoResponse response, w) ->
  Body response = inl data ->
  StatusCode response <> StatusOK ->
  exists st',
    GetIssue client key st
      = Ret ((zero_Issue, Some (StatusCodeError (StatusCode response))), st') /\
    trace st' = trace st ++ [CalledGetIssue key] /\ world st' = w.
Proof.
  intros Hurl HDo Hb Hcode. rewrite (GetIssue_run _ _ _ Hurl).
  unfold bind, consumeResponse, bind, on_world. simpl. rewrite HDo, Hb.
  unfold ret. cbv beta iota.
  destruct (Z.eqb_spec (StatusCode response) StatusOK) as [|_]; [contradiction|].
  cbv [negb]. eexists. split; [reflexivity|]. simpl. auto.
Qed.

(** X11: when the tracker answers with status 200 and a payload whose
    key is empty, [GetIssue] returns the error "No Issue were found"
    with the decoded issue; it does not panic, with or without
    fields. *)
Theorem GetIssue_without_key client key st response data issue w :
  url_error (baseURL client ++ issueURL ++ key) = None ->
  httpClient_Do (issue_request client key) (world st) = (DoResponse response, w) ->
  StatusCode response = StatusOK ->
  Body response = inl data ->
  json_Unmarshal_Issue data zero_Issue = (issue, None) ->
  Key issue = [] ->
  exists st',
    GetIssue client key st = Ret ((issue, Some NoIssueError), st') /\
    trace st' = trace st ++ [CalledGetIssue key].
Proof.
  intros Hurl HDo Hcode Hb Hjson Hkey. rewrite (GetIssue_run _ _ _ Hurl).
  unfold bind, consumeResponse, bind, on_world. simpl. rewrite HDo, Hb.
  unfold ret. cbv beta iota. rewrite Hcode, Z.eqb_refl. cbv [negb].
  rewrite Hjson, Hkey. cbv [is_empty]. eexists. split; reflexivity.
Qed.

(** [sendMessage] panics on a nil pointer only. *)
Lemma sendMessage_panics issue ch st :
  sendMessage issue ch st = Panic <-> ~ renderable issue.
Proof.
  unfold sendMessage, renderable, bind, get.
  destruct (Fields issue) as [f|] eqn:EF; simpl.
  2: { split; [intros _ (f & a & p & s & H & _); discriminate H | reflexivity]. }
  destruct (Assignee_ f) as [a|] eqn:EA; simpl.
  2: { split; [|reflexivity].
       intros _ (f0 & a & p & s & H & H1 & _). injection H as <-. congruence. }
  destruct (Priority_ f) as [p|] eqn:EP; simpl.
  2: { split; [|reflexivity].
       intros _ (f0 & a0 & p & s & H & _ & H1 & _). injection H as <-. congruence. }
  destruct (Status_ f) as [s|] eqn:ES; simpl.
  2: { split; [|reflexivity].
       intros _ (f0 & a0 & p0 & s & H & _ & _ & H1). injection H as <-. congruence. }
  unfold emit, on_world. simpl.
  destruct (Slack_PostMessage _ _ _ _) as [e w]. unfold ret.
  split; [discriminate|]. intros H. elim H. exists f, a, p, s. auto.
Qed.

(** X12: [sendMessage] panics exactly when the issue has no fields, or
    its fields have no assignee, no priority or no status; the issue
    type and the creator are not read. *)
Theorem sendMessage_panics_iff issue ch st :
  sendMessage issue ch st = Panic <->
  match Fields issue with
  | None => True
  | Some f => Assignee_ f = None \/ Priority_ f = None \/ Status_ f = None
  end.
Proof.
  rewrite sendMessage_panics. unfold renderable.
  destruct (Fields issue) as [f|].
  - split.
    + intros H. destruct (Assignee_ f) as [a|] eqn:EA; auto.
      destruct (Priority_ f) as [p|] eqn:EP; auto.
      destruct (Status_ f) as [s|] eqn:ES; auto.
      elim H. exists f, a, p, s. auto.
    + intros H (f0 & a & p & s & E & EA & EP & ES). injection E as <-.
      destruct H as [H | [H | H]]; congruence.
  - split; [auto|]. intros _ (f & a & p & s & E & _). discriminate E.
Qed.

(** What [sendMessage] does with an issue that has all it reads. *)
Lemma sendMessage_card issue ch st f a p s :
  Fields issue = Some f -> Assignee_ f = Some a ->
  Priority_ f = Some p -> Status_ f = Some s ->
  exists params att e st',
    sendMessage issue ch st = Ret (e, st') /\
    trace st' = trace st ++ [CalledPostMessage ch params] /\
    same_globals st st' /\
    Slack_PostMessage ch [] params (world st) = (e, world st') /\
    Attachments params = [att] /\
    Username params = runes "Jira" /\ IconURL params = jiraIcon /\
    Title att = Key issue /\
    TitleLink att = jiraHostURL st ++ runes "/browse/" ++ Key issue /\
    Color att = getColor (Status_Name s) /\
    Text att = runes "*" ++ Summary f ++ runes "*" ++ [newline; newline]
               ++ runes " *Assignee* " ++ DisplayName a
               ++ runes " *Priority* " ++ Priority_Name p ++ runes " ".
Proof.
  intros Hf Ha Hp Hs. unfold sendMessage, bind, get. rewrite Hf. simpl.
  rewrite Ha. simpl. rewrite Hp. simpl. rewrite Hs. simpl.
  unfold emit, on_world. simpl.
  destruct (Slack_PostMessage _ _ _ _) as [e w] eqn:EP. unfold ret.
  do 4 eexists. split; [reflexivity|]. simpl. unfold same_globals. simpl.
  repeat split; try reflexivity. exact EP.
Qed.

(** X13: for an issue with fields, assignee, priority and status,
    [sendMessage] returns what [PostMessage] returned, after one post
    to the channel it was given: one attachment titled with the key,
    linked to [jiraHostURL]/browse/key, coloured by [getColor] of the
    status name, with the summary, the assignee and the priority in
    its text, sent as "Jira" with the Jira icon. *)
Theorem sendMessage_posts_one_card issue ch st f a p s :
  Fields issue = Some f -> Assignee_ f = Some a ->
  Priority_ f = Some p -> Status_ f = Some s ->
  exists params att e st',
    sendMessage issue ch st = Ret (e, st') /\
    trace st' = trace st ++ [CalledPostMessage ch params] /\
    same_globals st st' /\
    Slack_PostMessage ch [] params (world st) = (e, world st') /\
    Attachments params = [att] /\
    Username params = runes "Jira" /\ IconURL params = jiraIcon /\
    Title att = Key issue /\
    TitleLink att = jiraHostURL st ++ runes "/browse/" ++ Key issue /\
    Color att = getColor (Status_Name s) /\
    Text att = runes "*" ++ Summary f ++ runes "*" ++ [newline; newline]
               ++ runes " *Assignee* " ++ DisplayName a
               ++ runes " *Priority* " ++ Priority_Name p ++ runes " ".
Proof.
  intros Hf Ha Hp Hs. unfold sendMessage, bind, get. rewrite Hf. simpl.
  rewrite Ha. simpl. rewrite Hp. simpl. rewrite Hs. simpl.
  unfold emit, on_world. simpl.
  destruct (Slack_PostMessage _ _ _ _) as [e w] eqn:EP. unfold ret.
  do 4 eexists. split; [reflexivity|]. simpl. unfold same_globals. simpl.
  repeat split; try reflexivity. exact EP.
Qed.

(** X14: an issue that [GetIssue] returned without error has fields,
    and [sendMessage] panics on it exactly when they have no priority
    or no status. *)
Theorem resolved_issue_is_sent_unless client key st issue st1 ch :
  GetIssue client key st = Ret ((issue, None), st1) ->
  exists f,
    Fields issue = Some f /\
    (sendMessage issue ch st1 = Panic <-> Priority_ f = None \/ Status_ f = None).
Proof.
  intros H. destruct (GetIssue_resolved _ _ _ H) as (_ & (f & a & Hf & Ha) & _).
  exists f. split; [exact Hf|]. rewrite sendMessage_panics. unfold renderable. split.
  - intros Hn. destruct (Priority_ f) as [p|] eqn:EP; auto.
    destruct (Status_ f) as [s|] eqn:ES; auto.
    elim Hn. exists f, a, p, s. auto.
  - intros Hn (f0 & a0 & p & s & E & _ & EP & ES). rewrite Hf in E. injection E as <-.
    destruct Hn; congruence.
Qed.

End Client.

(** ** What [processEvents] and [main] keep *)

Section Dispatch.

Context {RT : Runtime}.

Lemma handle_match_channel ch v st :
  post (handle_match ch v) st
    (fun _ st' => exists evs,
       writes st evs st' /\ Forall (fun m => fst m = ch) (posts evs)).
Proof.
  unfold handle_match. apply post_bind, post_get. apply post_bind.
  eapply post_weaken; [apply GetIssue_trace|].
  intros [iss [err|]] st1 Hw.
  - apply post_ret. eexists. split; [exact Hw|]. constructor.
  - apply post_bind. eapply post_weaken; [apply sendMessage_trace|].
    intros e st2 (params & Hw2). apply post_ret.
    eexists. split; [apply (writes_trans Hw Hw2)|].
    simpl. constructor; [reflexivity | constructor].
Qed.

Lemma for_matches_channel ch ms : forall st,
  post (for_matches ch ms) st
    (fun _ st' => exists evs,
       writes st evs st' /\ Forall (fun m => fst m = ch) (posts evs)).
Proof.
  induction ms as [|v ms IH]; intros st; simpl.
  - apply post_ret. exists []. split; [apply writes_refl | constructor].
  - apply post_bind. eapply post_weaken; [apply handle_match_channel|].
    intros [] st1 (e1 & Hw1 & Hp1).
    eapply post_weaken; [apply IH|].
    intros [] st2 (e2 & Hw2 & Hp2).
    exists (e1 ++ e2). split; [apply (writes_trans Hw1 Hw2)|].
    rewrite posts_app. apply Forall_app. auto.
Qed.

Lemma processEvents_returns text ch w st w' st' :
  processEvents text ch w st = Ret (w', st') ->
  counter w' = (counter w - 1)%Z /\ (0 <= counter w')%Z /\
  exists re evs,
    Pattern st = Some re /\
    for_matches ch (FindAllStringSubmatch re text) st = Ret (tt, st') /\
    writes st evs st' /\
    Forall (fun m => fst m = ch) (posts evs).
Proof.
  intros H. destruct (Pattern st) as [re|] eqn:EP.
  2: { unfold processEvents, bind, get in H. rewrite EP in H. discriminate H. }
  rewrite (processEvents_unfold _ _ _ _ EP) in H. unfold bind in H.
  destruct (for_matches ch _ st) as [[[] st1]| |] eqn:EF; try discriminate.
  unfold wg_Done, wg_Add in H.
  destruct (counter w + -1 <? 0)%Z eqn:EZ; [discriminate H|].
  unfold ret in H. injection H as <- <-. simpl.
  apply Z.ltb_ge in EZ. split; [lia|]. split; [lia|].
  destruct (@for_matches_channel ch _ st tt st1 EF) as (evs & Hw & Hp).
  exists re, evs. auto.
Qed.

(** X16: when [processEvents] returns, its copy of the wait group is
    one lower and not negative, the package variables are unchanged,
    and every post it made went to the channel it was given. *)
Theorem processEvents_posts_to_its_channel text ch w st w' st' :
  processEvents text ch w st = Ret (w', st') ->
  counter w' = (counter w - 1)%Z /\ (0 <= counter w')%Z /\
  same_globals st st' /\
  exists evs, trace st' = trace st ++ evs /\
              Forall (fun m => fst m = ch) (posts evs).
Proof.
  intros H. destruct (processEvents_returns _ _ _ _ H)
    as (Hc & H0 & re & evs & _ & _ & [Ht Hg] & Hp).
  repeat split; try apply Hg; auto. exists evs. auto.
Qed.

(** X17: with keys of word characters, the keys [processEvents] looks
    up are the first captures of the matches, in order, and each is
    empty or a reference: a listed key or none, a hyphen and
    digits. *)
Theorem lookups_are_references st0 st text ch w w' st' :
  Forall (fun p => word_key (KEY p)) (Projects st0) ->
  buildPattern st0 = Ret (tt, st) ->
  processEvents text ch w st = Ret (w', st') ->
  exists evs,
    trace st' = trace st ++ evs /\
    lookups evs = map (fun v => nth 1 v [])
                      (FindAllStringSubmatch (issue_pattern (Projects st0)) text) /\
    Forall (reference_key (Projects st0)) (lookups evs).
Proof.
  intros Hw Hb H. rewrite (buildPattern_compiles _ Hw) in Hb. injection Hb as <-.
  match type of H with
  | processEvents _ _ _ ?s = _ =>
      assert (HP : Pattern s = Some (issue_pattern (Projects st0))) by reflexivity
  end.
  destruct (processEvents_resolves _ _ _ _ HP H) as (outs & evs & _ & Ht & Hl & _).
  exists evs. split; [exact Ht|]. rewrite Hl.
  split.
  - apply map_ext_in. intros v Hv. apply (reference_untrimmed _ _ Hw Hv).
  - apply Forall_forall. intros k Hk. apply in_map_iff in Hk.
    destruct Hk as (v & <- & Hv). apply (reference_untrimmed _ _ Hw Hv).
Qed.


End Dispatch.

Section Loop.

Context {RT : Runtime}.

Ltac step_cases Hs :=
  destruct Hs as [p sub text channel rest wg' Hph Hin Hbot Hadd
                 |p sub text channel rest Hph Hin Hbot
                 |p rest Hph Hin
                 |p rest Hph Hin
                 |p before g after copy st' Hph Hst Hrun
                 |p before g after Hph Hst Hrun
                 |p Hph H0].

Lemma steps_invariant (I : Process -> Prop) p0 :
  I p0 -> (forall p q, I p -> step p q -> I q) ->
  forall p, steps p0 p -> I p.
Proof.
  intros H0 Hstep p H. induction H as [|p q r Hpq IH Hqr]; eauto.
Qed.

Lemma step_one_each events p q : one_each events p -> step p q -> one_each events q.
Proof.
  unfold one_each, started. intros [Hc Hn] Hs.
  step_cases Hs; simpl; rewrite ?Hph in Hn; rewrite ?Hph; rewrite ?Hin in *; simpl in *.
  - rewrite Hbot in Hn. apply wg_Add_counter in Hadd. rewrite length_app. simpl. lia.
  - rewrite Hbot in Hn. auto.
  - split; [exact Hc | lia].
  - auto.
  - rewrite Hst in *. rewrite !length_app in *. simpl in *.
    split; [rewrite Hc; f_equal; lia|].
    destruct Hph as [Hph|Hph]; rewrite Hph in *; lia.
  - split; [exact Hc|]. destruct Hph as [Hph|Hph]; rewrite Hph in Hn; lia.
  - auto.
Qed.

Lemma step_copies_positive p q : copies_positive p -> step p q -> copies_positive q.
Proof.
  unfold copies_positive. intros (Hr & Hf & Hw) Hs.
  step_cases Hs; simpl; auto.
  - apply wg_Add_counter in Hadd. repeat split; auto; [|lia].
    apply Forall_app. split; [exact Hr|]. constructor; [simpl; lia | constructor].
  - rewrite Hst in Hr. apply Forall_app in Hr. destruct Hr as [Hb Hga].
    inversion Hga as [|? ? Hg Ha]. subst.
    destruct (processEvents_returns _ _ _ _ Hrun) as (_ & H0 & _).
    repeat split; auto. apply Forall_app. auto.
Qed.

Lemma step_reads events p q : reads events p -> step p q -> reads events q.
Proof.
  unfold reads. intros [(taken & Ht) Ha] Hs.
  step_cases Hs; simpl; rewrite ?Hph in *; rewrite ?Hin in *.
  - split; [exists (taken ++ [MessageEvent sub text channel]);
            rewrite <- app_assoc; exact Ht|].
    intros [H|H]; discriminate H.
  - split; [exists (taken ++ [MessageEvent sub text channel]);
            rewrite <- app_assoc; exact Ht|].
    intros [H|H]; discriminate H.
  - split; [exists (taken ++ [InvalidAuthEvent]); rewrite <- app_assoc; exact Ht|].
    intros _. rewrite Ht. apply in_or_app. right. left. reflexivity.
  - split; [exists (taken ++ [OtherEvent]); rewrite <- app_assoc; exact Ht|].
    intros [H|H]; discriminate H.
  - split; [exists taken; exact Ht | exact Ha].
  - split; [exists taken; exact Ht|]. intros [H|H]; discriminate H.
  - split; [exists taken; exact Ht|]. intros _. apply Ha. left. reflexivity.
Qed.


Lemma step_then_steps p q r : step p q -> steps q r -> steps p r.
Proof.
  intros Hpq Hqr. induction Hqr as [|q r s Hqr IH Hrs].
  - eapply steps_step; [apply steps_refl | exact Hpq].
  - eapply steps_step; [apply IH; exact Hpq | exact Hrs].
Qed.

Lemma idle_loop_exits : forall events p,
  phase p = Looping -> incoming p = events -> counter (wg p) = 0%Z ->
  dispatched events = 0 -> In InvalidAuthEvent events ->
  exists q, steps p q /\ phase q = Exited.
Proof.
  induction events as [|ev rest IH]; intros p Hph Hin Hc Hd Ha; [destruct Ha|].
  destruct ev as [sub text ch| |].
  - simpl in Hd. destruct (is_bot sub) eqn:Hbot; [|discriminate Hd].
    destruct Ha as [Ha|Ha]; [discriminate Ha|].
    destruct (IH (read_event p)) as (q & Hq & He); auto.
    + simpl. rewrite Hin. reflexivity.
    + exists q. split; [|exact He].
      eapply step_then_steps; [|exact Hq]. eapply step_bot_message; eauto.
  - exists (with_phase Exited (with_phase Waiting (read_event p))). split; [|reflexivity].
    eapply steps_step; [eapply steps_step; [apply steps_refl|]|].
    + eapply step_invalid_auth; eauto.
    + apply step_wait_returns; [reflexivity | exact Hc].
  - simpl in Hd. destruct Ha as [Ha|Ha]; [discriminate Ha|].
    destruct (IH (read_event p)) as (q & Hq & He); auto.
    + simpl. rewrite Hin. reflexivity.
    + exists q. split; [|exact He].
      eapply step_then_steps; [|exact Hq]. eapply step_other; eauto.
Qed.

(** X23: [main] can exit exactly when the event stream holds an
    authentication failure and no message other than a bot's comes
    before it. *)
Theorem main_exits_iff st events :
  (exists p, steps (serving st events) p /\ phase p = Exited) <->
  dispatched events = 0 /\ In InvalidAuthEvent events.
Proof.
  split.
  - intros (p & Hp & He). split; [exact (exits_only_when_idle Hp He)|].
    assert (Hr : reads events p).
    { apply (steps_invariant (reads events) (p0 := serving st events)); auto.
      - split; [exists []; reflexivity|]. intros [H|H]; discriminate H.
      - intros; eapply step_reads; eauto. }
    apply Hr. right. exact He.
  - intros [Hd Ha]. apply idle_loop_exits with (events := events); auto.
Qed.

(** X24: [main]'s own counter is always the number of goroutines it
    has started, finished or not; that number never exceeds the
    number of messages, not a bot's, before the first authentication
    failure, and equals it once the loop is left. *)
Theorem one_goroutine_per_message st events p :
  steps (serving st events) p ->
  counter (wg p) = Z.of_nat (length (running p) + length (finished p)) /\
  length (running p) + length (finished p) <= dispatched events /\
  (phase p = Waiting \/ phase p = Exited ->
   length (running p) + length (finished p) = dispatched events).
Proof.
  intros H.
  assert (Hi : one_each events p).
  { apply (steps_invariant (one_each events) (p0 := serving st events)); auto.
    - unfold one_each, started. simpl. auto.
    - intros; eapply step_one_each; eauto. }
  destruct Hi as [Hc Hn]. unfold started in *. split; [exact Hc|].
  destruct (phase p); split; try lia; intros [E|E]; try discriminate E; lia.
Qed.

(** X25: the copy of the wait group that a started goroutine holds
    can take its [Done]: if [processEvents] panics in it, its loop
    over the matches has panicked. *)
Theorem goroutine_panics_only_in_its_loop st events p g re :
  steps (serving st events) p ->
  In g (running p) ->
  Pattern (globals p) = Some re ->
  wg_Done (g_wg g) <> None /\
  (processEvents (g_text g) (g_channel g) (g_wg g) (globals p) = Panic ->
   for_matches (g_channel g) (FindAllStringSubmatch re (g_text g)) (globals p) = Panic).
Proof.
  intros H Hg HP.
  assert (Hi : copies_positive p).
  { apply (steps_invariant copies_positive (p0 := serving st events)); auto.
    - unfold copies_positive. simpl. repeat split; auto. lia.
    - intros; eapply step_copies_positive; eauto. }
  destruct Hi as (Hr & _). rewrite Forall_forall in Hr. specialize (Hr g Hg).
  assert (Hd : wg_Done (g_wg g) <> None).
  { unfold wg_Done, wg_Add. destruct (counter (g_wg g) + -1 <? 0)%Z eqn:EZ; [|discriminate].
    apply Z.ltb_lt in EZ. lia. }
  split; [exact Hd|].
  rewrite (processEvents_unfold _ _ _ _ HP). unfold bind.
  destruct (for_matches _ _ _) as [[[] st1]| |]; auto.
  - destruct (wg_Done (g_wg g)); [discriminate | congruence].
  - discriminate.
Qed.


End Loop.

(** ** Startup *)

Section Starting.

Context {RT : Runtime}.

Lemma startup_run env st :
  startup env st =
  bind (GetProjects (client_of env)) (fun _ => buildPattern) (configured env st).
Proof. reflexivity. Qed.

(** X20: when the listing is answered with status 200 and a body that
    decodes to projects with keys of word characters, [main] reaches
    its loop with these projects, the pattern compiled from them, the
    client of the environment and one recorded call. *)
Theorem startup_ready env st response data ps w :
  url_error (baseURL (client_of env) ++ projectsURL) = None ->
  httpClient_Do (projects_request (client_of env)) (world st) = (DoResponse response, w) ->
  StatusCode response = StatusOK ->
  Body response = inl data ->
  json_Unmarshal_Projects data (Projects st) = (ps, None) ->
  Forall (fun p => word_key (KEY p)) ps ->
  startup env st =
  Ret (tt, {| Pattern := Some (issue_pattern ps); Projects := ps;
              Client := client_of env; jiraHostURL := JIRA_URL env;
              world := w; trace := trace st ++ [CalledGetProjects] |}).
Proof.
  intros Hurl HDo Hcode Hb Hj Hw. rewrite startup_run. unfold bind at 1.
  rewrite (GetProjects_run _ _ Hurl).
  unfold bind, consumeResponse, bind, on_world. simpl. rewrite HDo, Hb.
  unfold ret. cbv beta iota. rewrite Hcode, Z.eqb_refl. cbv [negb].
  unfold get. simpl. rewrite Hj. unfold set_Projects. simpl.
  rewrite buildPattern_compiles; [reflexivity | exact Hw].
Qed.

(** X21: when the listing is answered with a status other than 200,
    [GetProjects] returns the error of that status and [main] reaches
    its loop all the same, with the projects it had and the pattern
    compiled from them. *)
Theorem startup_drops_listing_error env st response data w :
  url_error (baseURL (client_of env) ++ projectsURL) = None ->
  httpClient_Do (projects_request (client_of env)) (world st) = (DoResponse response, w) ->
  Body response = inl data ->
  StatusCode response <> StatusOK ->
  Forall (fun p => word_key (KEY p)) (Projects st) ->
  GetProjects (client_of env) (configured env st)
    = Ret (Some (StatusCodeError (StatusCode response)),
           {| Pattern := Pattern st; Projects := Projects st;
              Client := client_of env; jiraHostURL := JIRA_URL env;
              world := w; trace := trace st ++ [CalledGetProjects] |}) /\
  startup env st =
  Ret (tt, {| Pattern := Some (issue_pattern (Projects st)); Projects := Projects st;
              Client := client_of env; jiraHostURL := JIRA_URL env;
              world := w; trace := trace st ++ [CalledGetProjects] |}).
Proof.
  intros Hurl HDo Hb Hcode Hw.
  assert (HG : GetProjects (client_of env) (configured env st)
    = Ret (Some (StatusCodeError (StatusCode response)),
           {| Pattern := Pattern st; Projects := Projects st;
              Client := client_of env; jiraHostURL := JIRA_URL env;
              world := w; trace := trace st ++ [CalledGetProjects] |})).
  { rewrite (GetProjects_run _ _ Hurl).
    unfold bind, consumeResponse, bind, on_world. simpl. rewrite HDo, Hb.
    unfold ret. cbv beta iota.
    destruct (Z.eqb_spec (StatusCode response) StatusOK) as [|_]; [contradiction|].
    reflexivity. }
  split; [exact HG|]. rewrite startup_run. unfold bind. rewrite HG.
  rewrite buildPattern_compiles; [reflexivity | exact Hw].
Qed.

(** X22: when the round trip for the listing fails without a
    response, [GetProjects] panics, and [main] with it, before the
    pattern is built. *)
Theorem startup_panics_without_response env st err w :
  url_error (baseURL (client_of env) ++ projectsURL) = None ->
  httpClient_Do (projects_request (client_of env)) (world st) = (DoError None err, w) ->
  GetProjects (client_of env) (configured env st) = Panic /\
  startup env st = Panic.
Proof.
  intros Hurl HDo.
  assert (HG : GetProjects (client_of env) (configured env st) = Panic).
  { rewrite (GetProjects_run _ _ Hurl).
    unfold bind, consumeResponse, bind, on_world. simpl. rewrite HDo. reflexivity. }
  split; [exact HG|]. rewrite startup_run. unfold bind. rewrite HG. reflexivity.
Qed.

End Starting.

Module Unescaped.
Import Parser ParserFacts.

Lemma keys_then ps rest q0 t0 :
  Forall (fun p => word_key (KEY p)) ps ->
  rest = q0 :: t0 -> N.eqb q0 63 = false ->
  exists q t', flat_map (fun p => KEY p ++ runes "|") ps ++ rest = q :: t'
               /\ N.eqb q 63 = false.
Proof.
  intros H -> Hq. destruct H as [|p ps Hp Hps].
  - simpl. eauto.
  - simpl. destruct Hp as [|c k Hc Hk].
    + simpl. eexists _, _. split; reflexivity.
    + simpl. eexists _, _. split; [reflexivity|]. apply word_not_quest; auto.
Qed.

Lemma key_then k t :
  word_key k -> exists q t', k ++ rparen :: t = q :: t' /\ N.eqb q 63 = false.
Proof.
  intros [|c k' Hc Hk].
  - simpl. eexists _, _. split; reflexivity.
  - simpl. eexists _, _. split; [reflexivity|]. apply word_not_quest; auto.
Qed.

Lemma Compile_unescaped ps k i ps' :
  Forall (fun p => word_key (KEY p)) ps -> word_key k ->
  Forall (fun p => word_key (KEY p)) ps' ->
  Compile (pattern_text (ps ++ {| ID := i; KEY := k ++ [rparen] |} :: ps')) = SyntaxError.
Proof.
  intros Hps Hk Hps'. unfold Compile. rewrite pattern_text_eq.
  rewrite flat_map_app. simpl flat_map. rewrite <- !app_assoc. simpl app.
  destruct (key_then ((124%N : rune) :: flat_map (fun p => KEY p ++ runes "|") ps' ++ pattern_suffix) Hk)
    as (q0 & t0 & E0 & Hq0).
  destruct (keys_then Hps E0 Hq0) as (q & t' & E & Hq).
  change pattern_prefix with ([40; 63; 58; 92; 87; 124; 94; 41; 40; 40]%N : gostring).
  simpl app. rewrite E. remember (q :: t') as rest eqn:R.
  simpl parse. subst rest. cbv beta match. rewrite Hq. rewrite <- E. unfold new_frame.
  rewrite (parse_keys Hps). rewrite (parse_key Hk).
  simpl parse. unfold bar, push, close, push_all. simpl.
  rewrite (parse_keys Hps'). reflexivity.
Qed.

End Unescaped.

Section Keys.

Context {RT : Runtime}.

(** X2: with keys of word characters [buildPattern] does not panic:
    it sets [Pattern] to the expression of the issue pattern over the
    listed keys, with three capture groups, and changes nothing
    else. *)
Theorem buildPattern_on_word_keys st :
  Forall (fun p => word_key (KEY p)) (Projects st) ->
  exists st',
    buildPattern st = Ret (tt, st') /\
    Pattern st' = Some (issue_pattern (Projects st)) /\
    numSubexp (issue_pattern (Projects st)) = 3 /\
    Projects st' = Projects st /\ Client st' = Client st /\
    jiraHostURL st' = jiraHostURL st /\ world st' = world st /\ trace st' = trace st.
Proof.
  intros H. eexists. split; [apply buildPattern_compiles; exact H|].
  simpl. repeat split.
Qed.

(** X3: the keys are not escaped: a key that ends in a closing
    parenthesis, after word characters, leaves a pattern that does not
    compile, and [buildPattern] panics. *)
Theorem unescaped_key_panics st ps k i ps' :
  Projects st = ps ++ {| ID := i; KEY := k ++ [rparen] |} :: ps' ->
  Forall (fun p => word_key (KEY p)) ps -> word_key k ->
  Forall (fun p => word_key (KEY p)) ps' ->
  buildPattern st = Panic.
Proof.
  intros HP Hps Hk Hps'. unfold buildPattern, bind, get. rewrite HP.
  rewrite (Unescaped.Compile_unescaped i Hps Hk Hps'). reflexivity.
Qed.

End Keys.

(** ** Order of the matches, bots and failed posts *)

(** X5: with keys of word characters, every match of the pattern that
    [buildPattern] compiled lies in the text, and the matches come in
    the order of the text and do not overlap: an earlier match ends
    where a later one starts or before it. *)
Theorem matches_in_text_order {RT : Runtime} (st0 st : State) re text :
  Forall (fun p => word_key (KEY p)) (Projects st0) ->
  buildPattern st0 = Ret (tt, st) ->
  Pattern st = Some re ->
  (forall m, In m (FindAllStringSubmatchIndex re text) ->
     fst (whole m) <= snd (whole m) /\ snd (whole m) <= length text) /\
  (forall front m1 mid m2 back,
     FindAllStringSubmatchIndex re text = front ++ m1 :: mid ++ m2 :: back ->
     snd (whole m1) <= fst (whole m2)).
Proof.
  intros Hk Hb HP. rewrite (built_pattern _ Hk Hb HP).
  unfold FindAllStringSubmatchIndex.
  destruct (allMatches_sorted (Projects st0) text (S (length text)) 0 None) as [Hw Hs].
  split.
  - intros m Hin. rewrite Forall_forall in Hw. apply Hw in Hin.
    unfold within in Hin. lia.
  - intros front m1 mid m2 back E.
    exact (@ordered_split _ _ _ Hs _ _ _ _ _ E).
Qed.

Section Quiet.

Context {RT : Runtime}.

Lemma only_bots_dispatched events : only_bots events -> dispatched events = 0.
Proof.
  induction 1 as [|ev rest Hev _ IH]; [reflexivity|].
  destruct ev as [sub text ch| |]; simpl; [rewrite Hev|..]; auto.
Qed.

Lemma step_idle st events p q :
  dispatched events = 0 ->
  one_each events p /\ globals p = st /\ phase p <> Crashed ->
  step p q ->
  one_each events q /\ globals q = st /\ phase q <> Crashed.
Proof.
  intros Hd (Ho & Hg & Hc) Hs.
  split; [eapply step_one_each; eauto|].
  assert (Hnone : running p = []).
  { destruct Ho as [_ Hn]. unfold started in Hn.
    destruct (running p); [reflexivity|]. simpl in Hn. destruct (phase p); lia. }
  destruct Hs as [p sub text channel rest wg' Hph Hin Hbot Hadd
                 |p sub text channel rest Hph Hin Hbot
                 |p rest Hph Hin
                 |p rest Hph Hin
                 |p before g after copy st' Hph Hst Hrun
                 |p before g after Hph Hst Hrun
                 |p Hph H0]; simpl;
    try (split; [exact Hg | first [discriminate | exact Hc]]).
  - rewrite Hnone in Hst. destruct before; discriminate Hst.
  - rewrite Hnone in Hst. destruct before; discriminate Hst.
Qed.

(** X27: when every message of the stream is a bot's, [main] starts
    no goroutine: nothing is looked up or posted, the counter stays
    at zero and the process does not crash. *)
Theorem bot_messages_are_ignored st events p :
  only_bots events ->
  steps (serving st events) p ->
  globals p = st /\ running p = [] /\ finished p = [] /\
  counter (wg p) = 0%Z /\ phase p <> Crashed.
Proof.
  intros Hb H. pose proof (only_bots_dispatched Hb) as Hd.
  assert (Hi : one_each events p /\ globals p = st /\ phase p <> Crashed).
  { apply (steps_invariant
             (fun p => one_each events p /\ globals p = st /\ phase p <> Crashed)
             (p0 := serving st events)); auto.
    - unfold one_each, started. simpl. repeat split; auto. discriminate.
    - intros p1 q1 H1 H2. eapply step_idle; eauto. }
  destruct Hi as ([Hc Hn] & Hg & Hcr). unfold started in *.
  assert (H0 : length (running p) + length (finished p) = 0) by (destruct (phase p); lia).
  split; [exact Hg|].
  split; [destruct (running p); [reflexivity | simpl in H0; lia]|].
  split; [destruct (finished p); [reflexivity | simpl in H0; lia]|].
  split; [rewrite Hc, H0; reflexivity | exact Hcr].
Qed.

(** X15: what [sendMessage] returns is dropped: for an issue resolved
    without error that has fields, assignee, priority and status, the
    turn of the loop returns whether the post failed or not, and the
    loop goes on with the next match. *)
Theorem post_error_is_dropped ch v rest st issue st1 :
  GetIssue (Client st) (reference_of v) st = Ret ((issue, None), st1) ->
  renderable issue ->
  exists params e st2,
    sendMessage issue ch st1 = Ret (e, st2) /\
    Slack_PostMessage ch [] params (world st1) = (e, world st2) /\
    handle_match ch v st = Ret (tt, st2) /\
    for_matches ch (v :: rest) st = for_matches ch rest st2.
Proof.
  intros HG (f & a & p & s & Hf & Ha & Hp & Hs).
  destruct (sendMessage_card issue ch st1 Hf Ha Hp Hs)
    as (params & att & e & st2 & HS & _ & _ & HP & _).
  exists params, e, st2. split; [exact HS|]. split; [exact HP|].
  assert (HM : handle_match ch v st = Ret (tt, st2)).
  { rewrite (handle_match_resolved _ _ _ HG). unfold bind. rewrite HS. reflexivity. }
  split; [exact HM|]. simpl. unfold bind. rewrite HM. reflexivity.
Qed.

Lemma reference_string_found ps pre K ds post :
  Forall (fun p => word_key (KEY p)) ps ->
  In K (map KEY ps) -> starts_without_digit K ->
  ds <> [] -> Forall (fun x => is_digit x = true) ds ->
  no_digit_ahead post -> at_boundary pre ->
  In (K ++ hyphen :: ds)
     (map (fun v => nth 1 v [])
        (FindAllStringSubmatch (issue_pattern ps) (pre ++ K ++ hyphen :: ds ++ post))).
Proof.
  intros Hkeys HK HKd Hne Hds Hpost Hpre.
  assert (Hidx : In (Some (length pre, length pre + length K + 1 + length ds))
                   (map (fun m => nth 1 m None)
                      (FindAllStringSubmatchIndex (issue_pattern ps)
                         (pre ++ K ++ hyphen :: ds ++ post)))).
  { apply in_map_iff. destruct Hpre as [->|(pre' & w & -> & Hfree)].
    - exists (reference_found K ds post 0 0). split; [reflexivity|].
      apply found_at_start; auto.
    - exists (reference_found K ds post 1 (S (length pre'))). split.
      + simpl. rewrite length_app. simpl.
        replace (length pre' + 1) with (S (length pre')) by lia. reflexivity.
      + rewrite <- app_assoc. simpl. apply found_after_boundary; auto. }
  apply in_map_iff in Hidx. destruct Hidx as (m & Hm & Hin).
  apply in_map_iff. exists (map (substr (pre ++ K ++ hyphen :: ds ++ post)) m).
  split.
  - rewrite <- (substr_token pre K ds post), <- Hm.
    change [] with (substr (pre ++ K ++ hyphen :: ds ++ post) None).
    apply map_nth.
  - unfold FindAllStringSubmatch. apply in_map. exact Hin.
Qed.

(** X18: with keys of word characters, [processEvents] looks up the
    reference [K-ds], for a listed key [K] that does not start with
    a digit, wherever the text has it at its start or after a rune
    that is not a word character (and not a [+] right after a
    digit), with no digit after it. *)
Theorem reference_is_looked_up st0 st pre K ds post ch w w' st' :
  Forall (fun p => word_key (KEY p)) (Projects st0) ->
  buildPattern st0 = Ret (tt, st) ->
  In K (map KEY (Projects st0)) -> starts_without_digit K ->
  ds <> [] -> Forall (fun x => is_digit x = true) ds ->
  no_digit_ahead post -> at_boundary pre ->
  processEvents (pre ++ K ++ hyphen :: ds ++ post) ch w st = Ret (w', st') ->
  exists evs,
    trace st' = trace st ++ evs /\ In (K ++ hyphen :: ds) (lookups evs).
Proof.
  intros Hkeys Hb HK HKd Hne Hds Hpost Hpre H.
  rewrite (buildPattern_compiles _ Hkeys) in Hb. injection Hb as <-.
  match type of H with
  | processEvents _ _ _ ?s = _ =>
      assert (HP : Pattern s = Some (issue_pattern (Projects st0))) by reflexivity
  end.
  destruct (processEvents_resolves _ _ _ _ HP H) as (outs & evs & _ & Ht & Hl & _).
  exists evs. split; [exact Ht|]. rewrite Hl.
  rewrite (map_ext_in reference_of (fun v => nth 1 v [])).
  - apply reference_string_found; auto.
  - intros v Hv. apply (reference_untrimmed _ _ Hkeys Hv).
Qed.

End Quiet.

(** ** The number of a reference, and what [main] asks for *)

Lemma digit_prefix (s : gostring) :
  exists ds rest,
    s = ds ++ rest /\ Forall (fun x => is_digit x = true) ds /\ no_digit_ahead rest.
Proof.
  induction s as [|x s (ds & rest & -> & Hds & Hrest)].
  - exists [], []. repeat split; constructor.
  - destruct (is_digit x) eqn:Hx.
    + exists (x :: ds), rest. repeat split; auto.
    + exists [], (x :: ds ++ rest). repeat split; auto.
Qed.

Lemma group_greedy ps q t e c :
  backtrack (OpConcat (issue_group ps) after_group) q t no_caps accept = Some (e, c) ->
  exists K ds rest,
    t = K ++ hyphen :: ds ++ rest /\ ds <> [] /\ no_digit_ahead rest /\
    nth 1 c None = Some (q, q + length K + 1 + length ds).
Proof.
  rewrite group_run. intros H.
  destruct (backtrack_sound (key_alternation ps) _ _ _ _ H) as (K & s' & c' & -> & Hd & Hk).
  apply derives_keys in Hd. destruct Hd as [-> _].
  destruct s' as [|x s2]; [discriminate Hk|].
  cbn [backtrack] in Hk. destruct (N.eqb_spec x hyphen) as [->|]; [|discriminate Hk].
  destruct (digit_prefix s2) as (ds & rest & -> & Hds & Hrest).
  destruct ds as [|d ds].
  - simpl app in Hk. change (again _ _ _ _ _ _) with
      (backtrack (OpPlus (OpCharClass ClassDigit)) (S (q + length K)) rest
         (set_cap 2 (q, q + length K) no_caps)
         (fun p2 s2 c2 => backtrack after_group p2 s2 (set_cap 1 (q, p2) c2) accept)) in Hk.
    rewrite digits_none in Hk by exact Hrest. discriminate Hk.
  - change (again _ _ _ _ _ _) with
      (backtrack (OpPlus (OpCharClass ClassDigit)) (S (q + length K)) ((d :: ds) ++ rest)
         (set_cap 2 (q, q + length K) no_caps)
         (fun p2 s2 c2 => backtrack after_group p2 s2 (set_cap 1 (q, p2) c2) accept)) in Hk.
    erewrite digits_greedy in Hk; [| exact Hrest | discriminate | exact Hds |].
    2: { unfold no_caps. cbn [repeat set_cap]. apply after_group_accepts. }
    injection Hk as <- <-.
    exists K, (d :: ds), rest. repeat split; auto; [discriminate|].
    cbn [nth]. f_equal. f_equal. simpl. lia.
Qed.

Lemma pattern_greedy ps p s e c b1 e1 :
  backtrack (expr (issue_pattern ps)) p s no_caps accept = Some (e, c) ->
  nth 1 c None = Some (b1, e1) ->
  exists pre rest,
    s = pre ++ rest /\ e1 = p + length pre /\ no_digit_ahead rest.
Proof.
  intros H Hc. unfold issue_pattern in H. cbn [expr] in H.
  change (backtrack (OpAlternate ?a ?b) p s no_caps accept)
    with (orelse (backtrack a p s no_caps accept) (backtrack b p s no_caps accept)) in H.
  apply orelse_Some in H. destruct H as [H | [_ H]].
  - change (backtrack (OpConcat ?a (OpConcat ?g ?q)) p s no_caps accept)
      with (backtrack a p s no_caps
              (fun p' s' c' => backtrack (OpConcat g q) p' s' c' accept)) in H.
    destruct (backtrack_sound _ _ _ _ _ H) as (w & s' & c' & -> & Hd & Hk).
    assert (Hc' : c' = no_caps).
    { inversion Hd as [| | | | | | |a b p0 w0 s0 c0 c1 Hx |a b p0 w0 s0 c0 c1 Hx| | | |]; subst;
        inversion Hx; subst; reflexivity. }
    subst c'. fold after_group in Hk.
    destruct (group_greedy _ _ _ Hk) as (K & ds & rest & -> & _ & Hrest & Hn).
    rewrite Hn in Hc. injection Hc as <- <-.
    exists (w ++ K ++ hyphen :: ds), rest. split; [|split; [|exact Hrest]].
    + rewrite <- !app_assoc. simpl. reflexivity.
    + rewrite !length_app. simpl. lia.
  - cbn [backtrack] in H. destruct s; [|discriminate H].
    unfold accept in H. injection H as <- <-. discriminate Hc.
Qed.

Lemma allMatches_from re text m : forall budget pos prev,
  In m (allMatches re text budget pos prev) ->
  exists pos', pos' <= length text /\ doExecute re text pos' = Some m.
Proof.
  induction budget as [|budget IH]; intros pos prev Hin; [destruct Hin|].
  rewrite allMatches_step in Hin.
  destruct (Nat.leb pos (length text)) eqn:Hle; [|destruct Hin].
  apply Nat.leb_le in Hle.
  destruct (doExecute re text pos) as [m0|] eqn:HE; [|destruct Hin].
  destruct (whole m0) as [b e]. destruct (Nat.eqb e pos).
  - apply in_app_or in Hin. destruct Hin as [Hin|Hin]; [|eauto].
    destruct (match prev with Some q => negb (Nat.eqb b q) | None => true end);
      [|destruct Hin].
    destruct Hin as [<-|[]]. eauto.
  - destruct Hin as [<-|Hin]; eauto.
Qed.

(** X28: with keys of word characters, the pattern that
    [buildPattern] compiled matches the number of a reference whole:
    the text that follows a captured reference does not start with a
    digit. *)
Theorem reference_number_is_whole {RT : Runtime} (st0 st : State) re text m b1 e1 :
  Forall (fun p => word_key (KEY p)) (Projects st0) ->
  buildPattern st0 = Ret (tt, st) ->
  Pattern st = Some re ->
  In m (FindAllStringSubmatchIndex re text) ->
  nth 1 m None = Some (b1, e1) ->
  e1 <= length text /\ no_digit_ahead (skipn e1 text).
Proof.
  intros Hk Hbuilt HP. rewrite (built_pattern _ Hk Hbuilt HP).
  intros Hin Hc. unfold FindAllStringSubmatchIndex in Hin.
  destruct (allMatches_from _ _ _ _ _ _ Hin) as (pos & Hpos & HE).
  unfold doExecute in HE. apply search_spec in HE.
  destruct HE as (a & s2 & e & c & Hs & Hb & -> & _).
  destruct (skipn_split _ _ _ Hpos Hs) as [Hs2 Hlen].
  assert (Hc1 : nth 1 c None = Some (b1, e1)).
  { destruct c as [|c0 c]; [simpl in Hc; discriminate Hc | exact Hc]. }
  destruct (pattern_greedy _ _ _ Hb Hc1) as (pre & rest & -> & -> & Hrest).
  rewrite length_app in Hlen. split; [lia|].
  rewrite (Nat.add_comm (pos + length a) (length pre)), <- skipn_skipn, Hs2.
  rewrite skipn_app, skipn_all, Nat.sub_diag. simpl. exact Hrest.
Qed.

Section Asked.

Context {RT : Runtime}.



End Asked.

(** ** The properties above, at inputs *)

(** X4 at the match of "see PROJ-42 now". *)
Lemma matches_are_references_witness :
  match_42 = empty_strings \/ reference_strings (Projects up_state) match_42.
Proof.
  apply (@matches_are_references jira_up up_state up_state (issue_pattern [PROJ])
           (runes "see PROJ-42 now") match_42).
  - repeat constructor.
  - reflexivity.
  - reflexivity.
  - vm_compute. left. reflexivity.
Defined.

(** X6 at the match of "see PROJ-42 now". *)
Lemma reference_needs_no_trimming_witness :
  reference_of match_42 = nth 1 match_42 [] /\
  reference_key [PROJ] (reference_of match_42).
Proof.
  apply (@reference_needs_no_trimming [PROJ] (runes "see PROJ-42 now") match_42).
  - repeat constructor.
  - vm_compute. left. reflexivity.
Defined.

(** X5 at "PROJ-1 PROJ-2", and at its two matches. *)
Lemma matches_in_text_order_witness :
  (forall m,
     In m (FindAllStringSubmatchIndex (issue_pattern [PROJ]) (runes "PROJ-1 PROJ-2")) ->
     fst (whole m) <= snd (whole m) /\
     snd (whole m) <= length (runes "PROJ-1 PROJ-2")) /\
  (fst (whole [Some (6, 13); Some (7, 13); Some (7, 11); None])
     <= snd (whole [Some (6, 13); Some (7, 13); Some (7, 11); None]) /\
   snd (whole [Some (6, 13); Some (7, 13); Some (7, 11); None])
     <= length (runes "PROJ-1 PROJ-2")) /\
  snd (whole [Some (0, 6); Some (0, 6); Some (0, 4); None])
    <= fst (whole [Some (6, 13); Some (7, 13); Some (7, 11); None]).
Proof.
  destruct (@matches_in_text_order jira_up up_state up_state (issue_pattern [PROJ])
              (runes "PROJ-1 PROJ-2"))
    as [Hin Hord].
  - repeat constructor.
  - reflexivity.
  - reflexivity.
  - split; [exact Hin|]. split.
    + apply Hin. vm_compute. right. left. reflexivity.
    + apply (Hord [] [Some (0, 6); Some (0, 6); Some (0, 4); None] []
               [Some (6, 13); Some (7, 13); Some (7, 11); None] []).
      reflexivity.
Defined.

(** X2 at the list of PROJ. *)
Lemma buildPattern_on_word_keys_witness :
  exists st',
    buildPattern (listed [PROJ]) = Ret (tt, st') /\
    Pattern st' = Some (issue_pattern (Projects (listed [PROJ]))) /\
    numSubexp (issue_pattern (Projects (listed [PROJ]))) = 3 /\
    Projects st' = Projects (listed [PROJ]) /\ Client st' = Client (listed [PROJ]) /\
    jiraHostURL st' = jiraHostURL (listed [PROJ]) /\
    world st' = world (listed [PROJ]) /\ trace st' = trace (listed [PROJ]).
Proof.
  apply (@buildPattern_on_word_keys jira_up (listed [PROJ])).
  repeat constructor.
Defined.

(** X3 at the keys PROJ and "A)". *)
Lemma unescaped_key_panics_witness : buildPattern (listed [PROJ; odd_key]) = Panic.
Proof.
  apply (@unescaped_key_panics jira_up (listed [PROJ; odd_key])
           [PROJ] (runes "A") (runes "10002") []).
  - reflexivity.
  - repeat constructor.
  - repeat constructor.
  - constructor.
Defined.


(** A body that breaks off is handed on as no data, with the status
    and without an error. *)
Example unreadable_body_is_no_error :
  consumeResponse (issue_request (Client (@state_in jira_truncated tt)) (runes "PROJ-1"))
                  (@state_in jira_truncated tt)
  = Ret ((200%Z, [], None), @state_in jira_truncated tt).
Proof. reflexivity. Qed.


(** X9 at PROJ-1 without an assignee. *)
Lemma GetIssue_success_is_assigned_witness :
  Key {| Key := runes "PROJ-1"; Fields := Some (fields_of (Some unassigned) (Some high)) |}
    <> [] /\
  (exists f a,
     Fields {| Key := runes "PROJ-1";
               Fields := Some (fields_of (Some unassigned) (Some high)) |} = Some f /\
     Assignee_ f = Some a) /\
  exists response decoded f,
    httpClient_Do (issue_request (Client (@state_in jira_unassigned tt)) (runes "PROJ-1"))
                  (world (@state_in jira_unassigned tt))
      = (DoResponse response,
         world (final (GetIssue (Client (@state_in jira_unassigned tt)) (runes "PROJ-1"))
                      (@state_in jira_unassigned tt))) /\
    StatusCode response = StatusOK /\
    @json_Unmarshal_Issue jira_unassigned (received response) zero_Issue = (decoded, None) /\
    Fields decoded = Some f /\
    {| Key := runes "PROJ-1"; Fields := Some (fields_of (Some unassigned) (Some high)) |}
    = {| Key := Key decoded;
         Fields := Some (match Assignee_ f with
                         | Some _ => f
                         | None => set_Assignee {| DisplayName := runes "Unassigned" |} f
                         end) |}.
Proof.
  apply (@GetIssue_success_is_assigned jira_unassigned
           (Client (@state_in jira_unassigned tt)) (runes "PROJ-1")
           (@state_in jira_unassigned tt)
           {| Key := runes "PROJ-1"; Fields := Some (fields_of (Some unassigned) (Some high)) |}
           (final (GetIssue (Client (@state_in jira_unassigned tt)) (runes "PROJ-1"))
                  (@state_in jira_unassigned tt))).
  reflexivity.
Defined.

(** X10 at PROJ-7, which is not found. *)
Lemma GetIssue_status_error_witness :
  exists st',
    GetIssue (Client up_state) (runes "PROJ-7") up_state
      = Ret ((zero_Issue,
              Some (StatusCodeError (StatusCode {| StatusCode := 404; Body := inl [] |}))),
             st') /\
    trace st' = trace up_state ++ [CalledGetIssue (runes "PROJ-7")] /\ world st' = tt.
Proof.
  apply (@GetIssue_status_error jira_up (Client up_state) (runes "PROJ-7") up_state
           {| StatusCode := 404; Body := inl [] |} [] tt).
  - reflexivity.
  - reflexivity.
  - reflexivity.
  - discriminate.
Defined.

(** X11 at an error message in place of PROJ-1. *)
Lemma GetIssue_without_key_witness :
  exists st',
    GetIssue (Client (@state_in jira_no_key tt)) (runes "PROJ-1") (@state_in jira_no_key tt)
      = Ret ((issue_no_key, Some NoIssueError), st') /\
    trace st' = trace (@state_in jira_no_key tt) ++ [CalledGetIssue (runes "PROJ-1")].
Proof.
  apply (@GetIssue_without_key jira_no_key (Client (@state_in jira_no_key tt))
           (runes "PROJ-1") (@state_in jira_no_key tt)
           {| StatusCode := 200; Body := inl body_no_key |} body_no_key issue_no_key tt).
  - reflexivity.
  - reflexivity.
  - reflexivity.
  - reflexivity.
  - reflexivity.
  - reflexivity.
Defined.

(** X13 at PROJ-1, assigned to Ada. *)
Lemma sendMessage_posts_one_card_witness :
  exists params att e st',
    sendMessage issue_assigned general up_state = Ret (e, st') /\
    trace st' = trace up_state ++ [CalledPostMessage general params] /\
    same_globals up_state st' /\
    Slack_PostMessage general [] params (world up_state) = (e, world st') /\
    Attachments params = [att] /\
    Username params = runes "Jira" /\ IconURL params = jiraIcon /\
    Title att = Key issue_assigned /\
    TitleLink att = jiraHostURL up_state ++ runes "/browse/" ++ Key issue_assigned /\
    Color att = getColor (Status_Name open) /\
    Text att = runes "*" ++ Summary (fields_of (Some ada) (Some high)) ++ runes "*"
               ++ [newline; newline]
               ++ runes " *Assignee* " ++ DisplayName ada
               ++ runes " *Priority* " ++ Priority_Name high ++ runes " ".
Proof.
  apply (@sendMessage_posts_one_card jira_up issue_assigned general up_state
           (fields_of (Some ada) (Some high)) ada high open).
  - reflexivity.
  - reflexivity.
  - reflexivity.
  - reflexivity.
Defined.

(** X14 at PROJ-1 without a priority. *)
Lemma resolved_issue_is_sent_unless_witness :
  exists f,
    Fields issue_no_priority = Some f /\
    (sendMessage issue_no_priority general
       (final (GetIssue (Client (@state_in jira_no_priority tt)) (runes "PROJ-1"))
              (@state_in jira_no_priority tt)) = Panic <->
     Priority_ f = None \/ Status_ f = None).
Proof.
  apply (@resolved_issue_is_sent_unless jira_no_priority
           (Client (@state_in jira_no_priority tt)) (runes "PROJ-1")
           (@state_in jira_no_priority tt) issue_no_priority
           (final (GetIssue (Client (@state_in jira_no_priority tt)) (runes "PROJ-1"))
                  (@state_in jira_no_priority tt))
           general).
  reflexivity.
Defined.

(** X15 at PROJ-1 and a Slack that refuses the post. *)
Lemma post_error_is_dropped_witness :
  exists params e st2,
    sendMessage issue_assigned general
      (final (GetIssue (Client (@state_in slack_down tt)) (reference_of match_1))
             (@state_in slack_down tt)) = Ret (e, st2) /\
    Slack_PostMessage general [] params
      (world (final (GetIssue (Client (@state_in slack_down tt)) (reference_of match_1))
                    (@state_in slack_down tt))) = (e, world st2) /\
    handle_match general match_1 (@state_in slack_down tt) = Ret (tt, st2) /\
    for_matches general (match_1 :: [match_42]) (@state_in slack_down tt)
      = for_matches general [match_42] st2.
Proof.
  apply (@post_error_is_dropped slack_down general match_1 [match_42]
           (@state_in slack_down tt) issue_assigned
           (final (GetIssue (Client (@state_in slack_down tt)) (reference_of match_1))
                  (@state_in slack_down tt))).
  - reflexivity.
  - exists (fields_of (Some ada) (Some high)), ada, high, open. repeat split.
Defined.

(** X16 at "PROJ-1 PROJ-1". *)
Lemma processEvents_posts_to_its_channel_witness :
  counter none = (counter one - 1)%Z /\ (0 <= counter none)%Z /\
  same_globals up_state (state_after (runes "PROJ-1 PROJ-1") general one up_state) /\
  exists evs,
    trace (state_after (runes "PROJ-1 PROJ-1") general one up_state)
      = trace up_state ++ evs /\
    Forall (fun m => fst m = general) (posts evs).
Proof.
  apply (@processEvents_posts_to_its_channel jira_up (runes "PROJ-1 PROJ-1") general one
           up_state none (state_after (runes "PROJ-1 PROJ-1") general one up_state)).
  vm_compute. reflexivity.
Defined.

(** X17 at "see PROJ-42 now". *)
Lemma lookups_are_references_witness :
  exists evs,
    trace (state_after (runes "see PROJ-42 now") general one up_state)
      = trace up_state ++ evs /\
    lookups evs = map (fun v => nth 1 v [])
                      (FindAllStringSubmatch (issue_pattern (Projects up_state))
                         (runes "see PROJ-42 now")) /\
    Forall (reference_key (Projects up_state)) (lookups evs).
Proof.
  apply (@lookups_are_references jira_up up_state up_state (runes "see PROJ-42 now")
           general one none (state_after (runes "see PROJ-42 now") general one up_state)).
  - repeat constructor.
  - reflexivity.
  - reflexivity.
Defined.

(** X18 at "see PROJ-42 now". *)
Lemma reference_is_looked_up_witness :
  exists evs,
    trace (state_after (runes "see PROJ-42 now") general one up_state)
      = trace up_state ++ evs /\
    In (runes "PROJ" ++ hyphen :: runes "42") (lookups evs).
Proof.
  apply (@reference_is_looked_up jira_up up_state up_state
           (runes "see ") (runes "PROJ") (runes "42") (runes " now") general one none
           (state_after (runes "see PROJ-42 now") general one up_state)).
  - repeat constructor.
  - reflexivity.
  - left. reflexivity.
  - reflexivity.
  - discriminate.
  - repeat constructor.
  - reflexivity.
  - right. exists (runes "see"), 32%N. split; [reflexivity|].
    split; [reflexivity | intros H; discriminate H].
  - reflexivity.
Defined.


(** X20 at Jira as it should be. *)
Lemma startup_ready_witness :
  startup config (@initial jira_up tt) =
  Ret (tt, {| Pattern := Some (issue_pattern [PROJ]); Projects := [PROJ];
              Client := @client_of jira_up config; jiraHostURL := JIRA_URL config;
              world := world (@initial jira_up tt);
              trace := trace (@initial jira_up tt) ++ [CalledGetProjects] |}).
Proof.
  apply (@startup_ready jira_up config (@initial jira_up tt)
           {| StatusCode := 200; Body := inl listing_body |} listing_body [PROJ] tt).
  - reflexivity.
  - reflexivity.
  - reflexivity.
  - reflexivity.
  - reflexivity.
  - repeat constructor.
Defined.

(** X21 at a listing answered with 500. *)
Lemma startup_drops_listing_error_witness :
  GetProjects (@client_of jira_listing_500 config) (@configured_in jira_listing_500 tt)
    = Ret (Some (StatusCodeError (StatusCode {| StatusCode := 500; Body := inl [] |})),
           {| Pattern := Pattern (@initial jira_listing_500 tt);
              Projects := Projects (@initial jira_listing_500 tt);
              Client := @client_of jira_listing_500 config; jiraHostURL := JIRA_URL config;
              world := world (@initial jira_listing_500 tt);
              trace := trace (@initial jira_listing_500 tt) ++ [CalledGetProjects] |}) /\
  startup config (@initial jira_listing_500 tt) =
  Ret (tt, {| Pattern := Some (issue_pattern (Projects (@initial jira_listing_500 tt)));
              Projects := Projects (@initial jira_listing_500 tt);
              Client := @client_of jira_listing_500 config; jiraHostURL := JIRA_URL config;
              world := world (@initial jira_listing_500 tt);
              trace := trace (@initial jira_listing_500 tt) ++ [CalledGetProjects] |}).
Proof.
  apply (@startup_drops_listing_error jira_listing_500 config (@initial jira_listing_500 tt)
           {| StatusCode := 500; Body := inl [] |} [] tt).
  - reflexivity.
  - reflexivity.
  - reflexivity.
  - discriminate.
  - constructor.
Defined.

(** X22 at a refused connection. *)
Lemma startup_panics_without_response_witness :
  GetProjects (@client_of jira_listing_refused config) (@configured_in jira_listing_refused tt)
    = Panic /\
  startup config (@initial jira_listing_refused tt) = Panic.
Proof.
  apply (@startup_panics_without_response jira_listing_refused config
           (@initial jira_listing_refused tt)
           (LibraryError (runes "dial tcp: connection refused")) tt).
  - reflexivity.
  - reflexivity.
Defined.

(** [main] takes the message "hello". *)
Lemma hello_is_dispatched : steps (serving up_state message_then_auth_failure) hello_dispatched.
Proof.
  eapply steps_step; [apply steps_refl|].
  apply (@step_message jira_up (serving up_state message_then_auth_failure)
           [] (runes "hello") general [InvalidAuthEvent] one); reflexivity.
Defined.

(** X24 after "hello" was dispatched. *)
Lemma one_goroutine_per_message_witness :
  counter (wg hello_dispatched)
    = Z.of_nat (length (running hello_dispatched) + length (finished hello_dispatched)) /\
  length (running hello_dispatched) + length (finished hello_dispatched)
    <= dispatched message_then_auth_failure /\
  (phase hello_dispatched = Waiting \/ phase hello_dispatched = Exited ->
   length (running hello_dispatched) + length (finished hello_dispatched)
     = dispatched message_then_auth_failure).
Proof.
  apply (@one_goroutine_per_message jira_up up_state message_then_auth_failure
           hello_dispatched).
  exact hello_is_dispatched.
Defined.

(** X25 at the goroutine of "hello". *)
Lemma goroutine_panics_only_in_its_loop_witness :
  wg_Done (g_wg {| g_text := runes "hello"; g_channel := general; g_wg := one |}) <> None /\
  (processEvents (runes "hello") general one (globals hello_dispatched) = Panic ->
   for_matches general (FindAllStringSubmatch (issue_pattern [PROJ]) (runes "hello"))
     (globals hello_dispatched) = Panic).
Proof.
  apply (@goroutine_panics_only_in_its_loop jira_up up_state message_then_auth_failure
           hello_dispatched
           {| g_text := runes "hello"; g_channel := general; g_wg := one |}
           (issue_pattern [PROJ])).
  - exact hello_is_dispatched.
  - left. reflexivity.
  - reflexivity.
Defined.



(** X27 at a bot message and an authentication failure. *)
Lemma bot_messages_are_ignored_witness :
  globals left_idle = up_state /\ running left_idle = [] /\ finished left_idle = [] /\
  counter (wg left_idle) = 0%Z /\ phase left_idle <> Crashed.
Proof.
  apply (@bot_messages_are_ignored jira_up up_state bot_then_auth_failure left_idle).
  - constructor; [reflexivity|]. constructor; [exact I | constructor].
  - eapply steps_step; [eapply steps_step; [eapply steps_step; [apply steps_refl|]|]|].
    + apply (@step_bot_message jira_up (serving up_state bot_then_auth_failure)
               (runes "bot_message") (runes "PROJ-1") general [InvalidAuthEvent]);
        reflexivity.
    + apply (@step_invalid_auth jira_up _ []); reflexivity.
    + apply (@step_wait_returns jira_up); reflexivity.
Defined.

(** X28 at "PROJ-42x". *)
Lemma reference_number_is_whole_witness :
  7 <= length (runes "PROJ-42x") /\ no_digit_ahead (skipn 7 (runes "PROJ-42x")).
Proof.
  apply (@reference_number_is_whole jira_up up_state up_state (issue_pattern [PROJ])
           (runes "PROJ-42x") [Some (0, 7); Some (0, 7); Some (0, 4); None] 0 7).
  - repeat constructor.
  - reflexivity.
  - reflexivity.
  - vm_compute. left. reflexivity.
  - reflexivity.
Defined.

